(** * The Witness Sandbox: pattern engine, drop geometry and grid state

    A shallow embedding of the TypeScript sources
      - components/Grid.tsx          (rotatePattern, handleDrop, removePiece,
                                      rotatePiece, toggleWall, clearGrid,
                                      toggleMarkedCell, getHoverCells,
                                      getEditionHoverCellId, getCellColor,
                                      the useDrop drop handler and the
                                      PieceOverlay useDrag end handler)
      - components/PaletteShape.tsx  (rotatePattern, the same text;
                                      handleRotate)
      - components/ShapeCreator.tsx  (trimPattern, toggleCell, resetForm,
                                      handleSaveShape, handleEditShape)
      - App.tsx                      (handleSaveShape, handleDeleteShape)

    Conventions of the embedding.
      - A [number[][]] pattern is a [list (list Z)]; a cell is "set" when it
        is truthy, that is non-zero.
      - Pixel quantities (pointer positions, the container rectangle, cell
        size, gap) are exact rationals [Q]; [Math.floor] is [Qfloor] and
        [Math.round] rounds half-way cases towards plus infinity, as
        ECMAScript does.  Binary floating point is not modelled.
      - React state is passed explicitly.  A variable that a handler reads
        from its closure (the array [pieces] in [handleDrop], the map
        [cellMinis] in [toggleMarkedCell]) is an argument of its own, apart
        from the state [prev] that the functional updaters receive.
      - A JavaScript call that throws, or that would store [undefined] in a
        number matrix, yields [None].
      - [rotatePattern] and [trimPattern] are embedded twice: on values,
        for the calculations, and on references into a heap of array
        objects ([Module Heap]), to see which objects they write to. *)

From Stdlib Require Import ZArith QArith Qround Qfield Lia Lqa Ascii.
From stdpp Require Import base option list strings pretty gmap.

Set Default Proof Using "Type".

(** ** Loops *)

(** [for (let i = 0; i < n; i++) body(i)], threading the variables the body
    assigns to; the body may fail. *)
Fixpoint for_upto {S : Type} (n : nat) (body : nat → S → option S) (s : S)
  : option S :=
  match n with
  | O => Some s
  | Datatypes.S k => s' ← for_upto k body s; body k s'
  end.

(** * Pattern engine *)

Module PatternEngine.

Abbreviation Pattern := (list (list Z)).

(** Truthiness of a number cell: [if (pattern[i][j])]. *)
Definition truthy (v : Z) : bool := negb (v =? 0)%Z.

(** [pattern[i][j]]; [None] is JavaScript's [undefined]. *)
Definition cellAt (pattern : Pattern) (i j : nat) : option Z :=
  row ← pattern !! i; row !! j.

(** [m[j][k] = v] on an array of arrays, inside the bounds of [m]. *)
Definition store (m : Pattern) (j k : nat) (v : Z) : option Pattern :=
  row ← m !! j;
  if decide (k < length row) then Some (<[j := <[k := v]> row]> m) else None.

(** [rotatePattern] of Grid.tsx and of PaletteShape.tsx.
<<
    const rows = pattern.length;
    const cols = pattern[0].length;
    const rotated = Array(cols).fill(null).map(() => Array(rows).fill(0));
    for (let i = 0; i < rows; i++)
      for (let j = 0; j < cols; j++)
        rotated[j][rows - 1 - i] = pattern[i][j];
    return rotated;
>> *)
Definition rotatePattern (pattern : Pattern) : option Pattern :=
  row0 ← pattern !! 0;
  let rows := length pattern in
  let cols := length row0 in
  let rotated := replicate cols (replicate rows 0%Z) in
  for_upto rows (λ i rotated,
    for_upto cols (λ j rotated,
      v ← cellAt pattern i j;
      store rotated j (rows - 1 - i) v) rotated) rotated.

(** The cells of a pattern in the order in which
    [for (i < pat.length) for (j < pat[i].length)] visits them. *)
Definition entries (pat : Pattern) : list (nat * nat * Z) :=
  mjoin (imap (λ i row, imap (λ j v, (i, j, v)) row) pat).

(** [Array.prototype.slice(start, end)]: negative indices count from the
    end, and both are clamped to the array. *)
Definition slice_index (len k : Z) : Z :=
  if (k <? 0)%Z then Z.max (len + k) 0 else Z.min k len.

Definition slice {A : Type} (from to : Z) (l : list A) : list A :=
  let len := Z.of_nat (length l) in
  let k := slice_index len from in
  let final := slice_index len to in
  take (Z.to_nat (final - k)) (drop (Z.to_nat k) l).

(** The four running extrema of [trimPattern]. *)
Record Box := mkBox { minRow : Z; maxRow : Z; minCol : Z; maxCol : Z }.

Definition grow (b : Box) (e : nat * nat * Z) : Box :=
  let '(i, j, v) := e in
  if truthy v then
    {| minRow := Z.min (minRow b) (Z.of_nat i);
       maxRow := Z.max (maxRow b) (Z.of_nat i);
       minCol := Z.min (minCol b) (Z.of_nat j);
       maxCol := Z.max (maxCol b) (Z.of_nat j) |}
  else b.

(** [trimPattern] of ShapeCreator.tsx.
<<
    let minRow = pat.length;  let maxRow = -1;
    let minCol = pat[0].length;  let maxCol = -1;
    for (i < pat.length) for (j < pat[i].length)
      if (pat[i][j]) { minRow = Math.min(minRow, i); ... }
    if (minRow > maxRow) return [[1]];
    const trimmed = [];
    for (let i = minRow; i <= maxRow; i++)
      trimmed.push(pat[i].slice(minCol, maxCol + 1));
    return trimmed;
>> *)
Definition trimPattern (pat : Pattern) : option Pattern :=
  row0 ← pat !! 0;
  let b := foldl grow
             {| minRow := Z.of_nat (length pat); maxRow := -1;
                minCol := Z.of_nat (length row0); maxCol := -1 |}
             (entries pat) in
  if (minRow b >? maxRow b)%Z then Some [[1%Z]]
  else
    for_upto (Z.to_nat (maxRow b - minRow b + 1)) (λ k trimmed,
      row ← pat !! (Z.to_nat (minRow b) + k);
      Some (trimmed ++ [slice (minCol b) (maxCol b + 1) row])) [].

End PatternEngine.

Import PatternEngine.

(** * Patterns as JavaScript objects *)

Module Heap.

(** An array object holds numbers or references to other arrays; the heap
    maps the references that are in use to their objects. *)
Definition loc := positive.

Inductive array :=
  | Numbers (cells : list Z)
  | Rows (refs : list loc).

Abbreviation heap := (gmap loc array).

(** [a.length] *)
Definition lengthOf (h : heap) (a : loc) : option nat :=
  match h !! a with
  | Some (Numbers cells) => Some (length cells)
  | Some (Rows refs) => Some (length refs)
  | None => None
  end.

(** [a[i]] where [a] is an array of arrays; [None] for [undefined]. *)
Definition readRow (h : heap) (a : loc) (i : nat) : option loc :=
  match h !! a with Some (Rows refs) => refs !! i | _ => None end.

(** [a[j]] where [a] is an array of numbers. *)
Definition readCell (h : heap) (a : loc) (j : nat) : option Z :=
  match h !! a with Some (Numbers cells) => cells !! j | _ => None end.

(** [a[k] = v] inside the bounds of an array of numbers. *)
Definition writeCell (h : heap) (a : loc) (k : nat) (v : Z) : option heap :=
  match h !! a with
  | Some (Numbers cells) =>
    if decide (k < length cells)
    then Some (<[a := Numbers (<[k := v]> cells)]> h) else None
  | _ => None
  end.

(** [a.push(r)] on an array of arrays. *)
Definition push (h : heap) (a : loc) (r : loc) : option heap :=
  match h !! a with
  | Some (Rows refs) => Some (<[a := Rows (refs ++ [r])]> h)
  | _ => None
  end.

(** A new array object. *)
Definition alloc (h : heap) (a : array) : loc * heap :=
  let l := fresh (dom h) in (l, <[l := a]> h).

(** [rotatePattern] on references: the writes go through [rotated[j]]. *)
Definition rotatePattern (pattern : loc) (h : heap) : option (loc * heap) :=
  rows ← lengthOf h pattern;
  row0 ← readRow h pattern 0;
  cols ← lengthOf h row0;
  '(refs, h) ← for_upto cols (λ _ '(refs, h),
      let '(r, h) := alloc h (Numbers (replicate rows 0%Z)) in
      Some (refs ++ [r], h)) ([], h);
  let '(rotated, h) := alloc h (Rows refs) in
  h ← for_upto rows (λ i h,
      for_upto cols (λ j h,
        source ← readRow h pattern i;
        v ← readCell h source j;
        target ← readRow h rotated j;
        writeCell h target (rows - 1 - i) v) h) h;
  Some (rotated, h).

(** [pat] read as a matrix of numbers. *)
Definition load (h : heap) (pat : loc) : option Pattern :=
  match h !! pat with
  | Some (Rows refs) =>
    mapM (λ r, match h !! r with Some (Numbers cells) => Some cells | _ => None end) refs
  | _ => None
  end.

(** [trimPattern] on references.  The scanning loops only read; every row
    of the result is a new array made by [slice], pushed on the new array
    [trimmed]. *)
Definition trimPattern (pat : loc) (h : heap) : option (loc * heap) :=
  P ← load h pat;
  row0 ← P !! 0;
  let b := foldl grow
             {| minRow := Z.of_nat (length P); maxRow := -1;
                minCol := Z.of_nat (length row0); maxCol := -1 |}
             (entries P) in
  if (minRow b >? maxRow b)%Z then
    let '(r, h) := alloc h (Numbers [1%Z]) in
    Some (alloc h (Rows [r]))
  else
    let '(trimmed, h) := alloc h (Rows []) in
    h ← for_upto (Z.to_nat (maxRow b - minRow b + 1)) (λ k h,
        source ← readRow h pat (Z.to_nat (minRow b) + k);
        cells ← (match h !! source with
                 | Some (Numbers cells) => Some cells | _ => None end);
        let '(r, h) := alloc h (Numbers (slice (minCol b) (maxCol b + 1) cells)) in
        push h trimmed r) h;
    Some (trimmed, h).

(** [l] refers to an array of arrays of numbers with the cells of [P]. *)
Definition represents (h : heap) (l : loc) (P : Pattern) : Prop :=
  ∃ refs, h !! l = Some (Rows refs) ∧
          Forall2 (λ r row, h !! r = Some (Numbers row)) refs P.

(** Every object of [h] is still there, unchanged, in [h']. *)
Definition unchanged (h h' : heap) : Prop :=
  ∀ l a, h !! l = Some a → h' !! l = Some a.

End Heap.

Arguments Heap.alloc : simpl never.
Arguments Heap.readRow : simpl never.
Arguments Heap.readCell : simpl never.
Arguments Heap.writeCell : simpl never.
Arguments Heap.lengthOf : simpl never.
Arguments Heap.push : simpl never.

(** * Geometry mapper and grid state (Grid.tsx) *)

Module Grid.

(** [Math.floor] and [Math.round] on exact rationals. *)
Definition Math_floor (q : Q) : Z := Qfloor q.
Definition Math_round (q : Q) : Z := Qfloor (q + (1 # 2))%Q.

(** [{ x, y }] pixel pairs: client offsets and the grab offset. *)
Record Point := mkPoint { x : Q; y : Q }.

(** What the code reads from [getBoundingClientRect()]. *)
Record DOMRect := mkRect { rect_left : Q; rect_top : Q }.

Record GridProps := mkProps {
  rows : Z;
  cols : Z;
  editionMode : bool;
  gridCellSize : option Q;
  gridPaddingSize : option Q }.

(** [propGridCellSize ?? gridCellSize], [propGridPaddingSize ?? gridPaddingSize]
    and [gapSize + 3]. *)
Definition cellSize (props : GridProps) : Q := default 30%Q (gridCellSize props).
Definition gapSize (props : GridProps) : Q := default 5%Q (gridPaddingSize props).
Definition containerPadding (props : GridProps) : Q := (gapSize props + 3)%Q.

Record PlacedPiece := mkPiece {
  id : string;
  type : string;
  pattern : Pattern;
  originalPattern : Pattern;
  color : string;
  row : Z;
  col : Z;
  rotation : Z }.

Record Mini := mkMini { mini_pattern : Pattern; mini_color : string }.

(** The drag item is typed [any]; the fields the code reads, each of which
    may be absent. *)
Record DragItem := mkItem {
  item_pattern : option Pattern;
  item_type : string;
  item_color : string;
  item_pieceId : option string;
  item_pointerOffset : option Point }.

(** The four [useState] collections of the component. *)
Record GridState := mkState {
  pieces : list PlacedPiece;
  walls : gset string;
  markedCells : gset string;
  cellMinis : gmap string Mini }.

Definition initialState : GridState :=
  {| pieces := []; walls := ∅; markedCells := ∅; cellMinis := ∅ |}.

(** The template literal [`${rowCell}-${colCell}`]. *)
Definition cellId (r c : Z) : string := pretty r +:+ "-" +:+ pretty c.

(** [pieceId] when it is truthy (present and not the empty string). *)
Definition truthyId (pieceId : option string) : option string :=
  match pieceId with
  | Some s => if decide (s = "") then None else Some s
  | None => None
  end.

(** How [handleDrop] can end: an early [return] before any setter, the
    edition-mode branch (setCellMinis, setMarkedCells), or the final
    [setPieces]. *)
Inductive DropResult :=
  | Ignored
  | MiniDropped (next : GridState)
  | PiecePlaced (next : GridState).

Definition commit (prev : GridState) (r : DropResult) : GridState :=
  match r with
  | Ignored => prev
  | MiniDropped next | PiecePlaced next => next
  end.

(** Lines 102-117 of [handleDrop]: the block index of the grab and the cell
    of the piece origin, as [(row, col)]. *)
Definition dropOrigin (props : GridProps) (rect : DOMRect) (pattern : Pattern)
    (row0 : list Z) (pointerOffset : option Point) (clientOffset : Point)
  : Z * Z :=
  let padding := containerPadding props in
  let pointerOffset := default {| x := 0; y := 0 |} pointerOffset in
  let patternCols := Z.of_nat (length row0) in
  let patternRows := Z.of_nat (length pattern) in
  let blockIndexX := Math_floor (x pointerOffset / (cellSize props + gapSize props)) in
  let blockIndexY := Math_floor (y pointerOffset / (cellSize props + gapSize props)) in
  let blockIndexX := if (blockIndexX <? 0)%Z then 0%Z else blockIndexX in
  let blockIndexY := if (blockIndexY <? 0)%Z then 0%Z else blockIndexY in
  let blockIndexX :=
    if (blockIndexX >=? patternCols)%Z then (patternCols - 1)%Z else blockIndexX in
  let blockIndexY :=
    if (blockIndexY >=? patternRows)%Z then (patternRows - 1)%Z else blockIndexY in
  let xInGrid := (x clientOffset - rect_left rect - padding)%Q in
  let yInGrid := (y clientOffset - rect_top rect - padding)%Q in
  let col := (Math_round (xInGrid / (cellSize props + gapSize props)) - blockIndexX)%Z in
  let row := (Math_round (yInGrid / (cellSize props + gapSize props)) - blockIndexY)%Z in
  (row, col).

(** The bounds loop of [handleDrop] (lines 120-130): [false] when the loop
    hits [return; // Shape doesn't fit]. *)
Definition fits (props : GridProps) (pattern : Pattern) (row col : Z) : bool :=
  forallb (λ '(i, j, v),
    if truthy v then
      let targetRow := (row + Z.of_nat i)%Z in
      let targetCol := (col + Z.of_nat j)%Z in
      negb ((targetRow >=? rows props)%Z || (targetCol >=? cols props)%Z
            || (targetRow <? 0)%Z || (targetCol <? 0)%Z)
    else true) (entries pattern).

(** [handleDrop(item, clientOffset)].  [pieces] is the array the closure
    reads at line 134; [fresh] stands for the value of
    [`piece-${Date.now()}-${Math.random()}`]; [prev] is the state the
    updaters are applied to. *)
Definition handleDrop (props : GridProps) (containerRef : option DOMRect)
    (pieces : list PlacedPiece) (fresh : string)
    (item : DragItem) (clientOffset : option Point) (prev : GridState)
  : DropResult :=
  match clientOffset, containerRef with
  | Some clientOffset, Some rect =>
    match item_pattern item with
    | None | Some [] => Ignored
    | Some ((row0 :: _) as pattern) =>
      let padding := containerPadding props in
      if editionMode props then
        let xInGrid := (x clientOffset - rect_left rect - padding)%Q in
        let yInGrid := (y clientOffset - rect_top rect - padding)%Q in
        let colCell := Math_round (xInGrid / (cellSize props + gapSize props)) in
        let rowCell := Math_round (yInGrid / (cellSize props + gapSize props)) in
        if ((colCell <? 0)%Z || (colCell >=? cols props)%Z
            || (rowCell <? 0)%Z || (rowCell >=? rows props)%Z)
        then Ignored
        else
          let cellId := cellId rowCell colCell in
          let clonedPattern := pattern in
          MiniDropped
            {| pieces := Grid.pieces prev;
               walls := walls prev;
               markedCells :=
                 if decide (cellId ∈ markedCells prev)
                 then markedCells prev ∖ {[cellId]} else markedCells prev;
               cellMinis :=
                 <[cellId := {| mini_pattern := clonedPattern;
                                mini_color := item_color item |}]>
                   (cellMinis prev) |}
      else
        let '(row, col) :=
          dropOrigin props rect pattern row0 (item_pointerOffset item) clientOffset in
        if fits props pattern row col then
          let pieceId := item_pieceId item in
          let existingPiece :=
            pid ← pieceId; List.find (λ p, bool_decide (id p = pid)) pieces in
          let originalPattern :=
            from_option Grid.originalPattern pattern existingPiece in
          let currentRotation := from_option rotation 0%Z existingPiece in
          let newPiece :=
            {| id := default fresh (truthyId pieceId);
               type := item_type item;
               pattern := pattern;
               originalPattern := originalPattern;
               color := item_color item;
               row := row;
               col := col;
               rotation := currentRotation |} in
          let without :=
            filter (λ p, truthyId pieceId ≠ Some (id p)) (Grid.pieces prev) in
          PiecePlaced
            {| pieces := without ++ [newPiece];
               walls := walls prev;
               markedCells := markedCells prev;
               cellMinis := cellMinis prev |}
        else Ignored
    end
  | _, _ => Ignored
  end.

(** [removePiece(id)]: [setPieces(prev => prev.filter(p => p.id !== id))]. *)
Definition removePiece (pid : string) (prev : GridState) : GridState :=
  {| pieces := filter (λ p, id p ≠ pid) (pieces prev);
     walls := walls prev;
     markedCells := markedCells prev;
     cellMinis := cellMinis prev |}.

(** [rotatePiece(id)]: every piece with that id gets the rotated pattern and
    [(p.rotation + 90) % 360]; [None] when [rotatePattern] fails on one of
    them. *)
Definition rotatePiece (pid : string) (prev : GridState) : option GridState :=
  rotatedPieces ← mapM (λ p,
    if decide (id p = pid) then
      rotatedPattern ← rotatePattern (pattern p);
      Some {| id := id p; type := type p;
              pattern := rotatedPattern;
              originalPattern := originalPattern p;
              color := color p; row := row p; col := col p;
              rotation := Z.rem (rotation p + 90) 360 |}
    else Some p) (pieces prev);
  Some {| pieces := rotatedPieces;
          walls := walls prev;
          markedCells := markedCells prev;
          cellMinis := cellMinis prev |}.

(** [toggleWall(wallId)]. *)
Definition toggleWall (wallId : string) (prev : GridState) : GridState :=
  {| pieces := pieces prev;
     walls := if decide (wallId ∈ walls prev)
              then walls prev ∖ {[wallId]} else walls prev ∪ {[wallId]};
     markedCells := markedCells prev;
     cellMinis := cellMinis prev |}.

(** [clearGrid()]. *)
Definition clearGrid (prev : GridState) : GridState :=
  {| pieces := []; walls := ∅; markedCells := ∅; cellMinis := ∅ |}.

(** [toggleMarkedCell(cellId)].  [seenMinis] is the map [cellMinis] of the
    render whose click handler runs (line 191); the updaters act on [prev]. *)
Definition toggleMarkedCell (seenMinis : gmap string Mini) (cellId : string)
    (prev : GridState) : GridState :=
  if decide (is_Some (seenMinis !! cellId)) then
    {| pieces := pieces prev;
       walls := walls prev;
       markedCells := markedCells prev;
       cellMinis := delete cellId (cellMinis prev) |}
  else
    {| pieces := pieces prev;
       walls := walls prev;
       markedCells := if decide (cellId ∈ markedCells prev)
                      then markedCells prev ∖ {[cellId]}
                      else markedCells prev ∪ {[cellId]};
       cellMinis := cellMinis prev |}.

(** Lines 235-249 of [getHoverCells]: the same computation as in
    [handleDrop], written out a second time in the source. *)
Definition hoverOrigin (props : GridProps) (rect : DOMRect) (pattern : Pattern)
    (row0 : list Z) (pointerOffset : option Point) (dragClientOffset : Point)
  : Z * Z :=
  let padding := containerPadding props in
  let pointerOffset := default {| x := 0; y := 0 |} pointerOffset in
  let patternCols := Z.of_nat (length row0) in
  let patternRows := Z.of_nat (length pattern) in
  let blockIndexX := Math_floor (x pointerOffset / (cellSize props + gapSize props)) in
  let blockIndexY := Math_floor (y pointerOffset / (cellSize props + gapSize props)) in
  let blockIndexX := if (blockIndexX <? 0)%Z then 0%Z else blockIndexX in
  let blockIndexY := if (blockIndexY <? 0)%Z then 0%Z else blockIndexY in
  let blockIndexX :=
    if (blockIndexX >=? patternCols)%Z then (patternCols - 1)%Z else blockIndexX in
  let blockIndexY :=
    if (blockIndexY >=? patternRows)%Z then (patternRows - 1)%Z else blockIndexY in
  let xInGrid := (x dragClientOffset - rect_left rect - padding)%Q in
  let yInGrid := (y dragClientOffset - rect_top rect - padding)%Q in
  let col := (Math_round (xInGrid / (cellSize props + gapSize props)) - blockIndexX)%Z in
  let row := (Math_round (yInGrid / (cellSize props + gapSize props)) - blockIndexY)%Z in
  (row, col).

(** [getHoverCells()], over what [useDragLayer] collected. *)
Definition getHoverCells (props : GridProps) (containerRef : option DOMRect)
    (isDragging : bool) (dragItem : option DragItem)
    (dragClientOffset : option Point) : gset string :=
  if negb isDragging then ∅ else
  match dragItem, dragClientOffset, containerRef with
  | Some dragItem, Some dragClientOffset, Some rect =>
    if editionMode props then ∅ else
    match item_pattern dragItem with
    | None | Some [] => ∅
    | Some ((row0 :: _) as pattern) =>
      let '(row, col) :=
        hoverOrigin props rect pattern row0
          (item_pointerOffset dragItem) dragClientOffset in
      foldl (λ (hoverCells : gset string) '(i, j, v),
        if truthy v then
          let targetRow := (row + Z.of_nat i)%Z in
          let targetCol := (col + Z.of_nat j)%Z in
          if ((targetRow >=? 0)%Z && (targetRow <? rows props)%Z
              && (targetCol >=? 0)%Z && (targetCol <? cols props)%Z)
          then hoverCells ∪ {[cellId targetRow targetCol]}
          else hoverCells
        else hoverCells) ∅ (entries pattern)
    end
  | _, _, _ => ∅
  end.

(** The test of the two inner loops of [getCellColor]: some truthy cell of
    the piece lies on [(r, c)]. *)
Definition covers (piece : PlacedPiece) (r c : Z) : bool :=
  existsb (λ '(i, j, v),
    truthy v && (row piece + Z.of_nat i =? r)%Z
             && (col piece + Z.of_nat j =? c)%Z) (entries (pattern piece)).

(** [getCellColor(row, col)]: the outer loop runs from the last piece to the
    first and returns at the first hit; [None] is [null]. *)
Definition getCellColor (pieces : list PlacedPiece) (r c : Z) : option string :=
  color <$> List.find (λ piece, covers piece r c) (reverse pieces).

Definition gridCellColor : string := "#2d3748".

(** [backgroundColor: cellColor || gridCellColor] of the cell's style. *)
Definition backgroundColor (pieces : list PlacedPiece) (r c : Z) : string :=
  match getCellColor pieces r c with
  | Some cellColor => if decide (cellColor = "") then gridCellColor else cellColor
  | None => gridCellColor
  end.

(** ** A drag session of a placed piece *)

(** The item that [PieceOverlay]'s [useDrag] hands out. *)
Definition overlayItem (piece : PlacedPiece) (dragStartOffset : Point) : DragItem :=
  {| item_type := type piece;
     item_pattern := Some (pattern piece);
     item_pieceId := Some (id piece);
     item_color := color piece;
     item_pointerOffset := Some dragStartOffset |}.

(** Where the pointer is released: over the grid container, the only drop
    target of the application (react-dnd then runs its [drop] handler), or
    anywhere else. *)
Inductive Release :=
  | OverGrid (clientOffset : option Point)
  | Elsewhere.

(** The two terminal operations of the spec. *)
Inductive Terminal := Place | Remove.

(** What a session leaves behind: the terminal operations that ran, in
    order, and the state. *)
Definition firedBy (r : DropResult) : list Terminal :=
  match r with PiecePlaced _ => [Place] | _ => [] end.

(** The end of a drag that started on [piece]'s overlay.  On the grid the
    [drop] handler (lines 336-340) calls [handleDrop] and answers
    [{ dropped: true }] whatever [handleDrop] did, so [monitor.didDrop()] is
    [true]; the [end] handler (lines 652-656) calls [onRemove] only when
    [didDrop()] is [false]. *)
Definition dragSession (props : GridProps) (containerRef : option DOMRect)
    (seenPieces : list PlacedPiece) (fresh : string)
    (piece : PlacedPiece) (dragStartOffset : Point)
    (release : Release) (prev : GridState) : list Terminal * GridState :=
  let item := overlayItem piece dragStartOffset in
  let '(fired, didDrop, next) :=
    match release with
    | OverGrid clientOffset =>
      let r := handleDrop props containerRef seenPieces fresh item clientOffset prev in
      (firedBy r, true, commit prev r)
    | Elsewhere => ([], false, prev)
    end in
  if negb didDrop then (fired ++ [Remove], removePiece (id piece) next)
  else (fired, next).

(** ** The mounted component *)

(** [useDrop(() => ({ ..., drop }), [editionMode, rows, cols, cellSize])]
    (lines 334-344): react-dnd memoises the spec on the dependency list, as
    [useMemo] does, so the [drop] function, and with it the [handleDrop]
    closure and the [pieces] array that closure reads, are those of the
    render in which one of the listed values last changed.  [dropPieces] is
    that array.  Click handlers and [useDrag]'s [onRemove] are rebuilt on
    every render and read the current state. *)
Record Component := mkComponent {
  props : GridProps;
  state : GridState;
  dropPieces : list PlacedPiece }.

Definition mount (p : GridProps) : Component :=
  {| props := p; state := initialState; dropPieces := [] |}.

Inductive Event :=
  | ToggleEditionMode
  | Drop (rect : option DOMRect) (item : DragItem)
         (clientOffset : option Point) (fresh : string)
  | DragOut (pieceId : string)
  | ClickPiece (pieceId : string)
  | ClickEdge (wallId : string)
  | ClickCell (cellId : string)
  | ClickClear.

Definition withState (c : Component) (s : GridState) : Component :=
  {| props := props c; state := s; dropPieces := dropPieces c |}.

(** One event of the component; [None] when the element that would receive
    it is not rendered in the current mode, or the handler fails. *)
Definition step (c : Component) (e : Event) : option Component :=
  match e with
  | ToggleEditionMode =>
    Some {| props := {| rows := rows (props c); cols := cols (props c);
                        editionMode := negb (editionMode (props c));
                        gridCellSize := gridCellSize (props c);
                        gridPaddingSize := gridPaddingSize (props c) |};
            state := state c;
            dropPieces := pieces (state c) |}
  | Drop rect item clientOffset fresh =>
    Some (withState c
      (commit (state c)
         (handleDrop (props c) rect (dropPieces c) fresh item clientOffset (state c))))
  | DragOut pid =>
    if editionMode (props c) then None
    else Some (withState c (removePiece pid (state c)))
  | ClickPiece pid =>
    if editionMode (props c) then None
    else withState c <$> rotatePiece pid (state c)
  | ClickEdge wallId =>
    if editionMode (props c) then Some (withState c (toggleWall wallId (state c)))
    else None
  | ClickCell cellId =>
    if editionMode (props c)
    then Some (withState c (toggleMarkedCell (cellMinis (state c)) cellId (state c)))
    else None
  | ClickClear => Some (withState c (clearGrid (state c)))
  end.

(** [getEditionHoverCellId()] (lines 269-282); [hoveredCell] is the
    mouse-hover state of the component. *)
Definition getEditionHoverCellId (props : GridProps) (containerRef : option DOMRect)
    (isDragging : bool) (dragClientOffset : option Point)
    (hoveredCell : option string) : option string :=
  if negb (editionMode props) then None else
  match containerRef with
  | None => None
  | Some rect =>
    match isDragging, dragClientOffset with
    | true, Some dragClientOffset =>
      let xInGrid := (x dragClientOffset - rect_left rect - containerPadding props)%Q in
      let yInGrid := (y dragClientOffset - rect_top rect - containerPadding props)%Q in
      let colCell := Math_round (xInGrid / (cellSize props + gapSize props)) in
      let rowCell := Math_round (yInGrid / (cellSize props + gapSize props)) in
      if ((colCell <? 0)%Z || (colCell >=? cols props)%Z
          || (rowCell <? 0)%Z || (rowCell >=? rows props)%Z)
      then None
      else Some (cellId rowCell colCell)
    | _, _ => hoveredCell
    end
  end.

(** The identity [handleDrop] generates for a piece that comes without one
    is new: [Date.now()] and [Math.random()] are not modelled further. *)
Definition freshFor (c : Component) (e : Event) : Prop :=
  match e with
  | Drop _ item _ fresh =>
    truthyId (item_pieceId item) = None → fresh ∉ (id <$> pieces (state c))
  | _ => True
  end.

(** The grid pitch [cellSize + gapSize] is not zero, so that the divisions
    are the ones the embedding computes. *)
Definition pitch_ok (props : GridProps) : Prop :=
  ¬ (cellSize props + gapSize props == 0)%Q.

(** The states of a component mounted with props [p]. *)
Inductive reachable (p : GridProps) : Component → Prop :=
  | reach_mount : pitch_ok p → reachable p (mount p)
  | reach_step c e c' :
      reachable p c → freshFor c e → step c e = Some c' → reachable p c'.

(** A run of events. *)
Fixpoint run (c : Component) (events : list Event) : option Component :=
  match events with
  | [] => Some c
  | e :: events => c' ← step c e; run c' events
  end.

(** [freshFor] at every event of a run. *)
Fixpoint freshRun (c : Component) (events : list Event) : Prop :=
  match events with
  | [] => True
  | e :: events =>
    freshFor c e ∧
    match step c e with Some c' => freshRun c' events | None => True end
  end.

End Grid.

(** * The shape editor (ShapeCreator.tsx) *)

Module ShapeCreator.

Record CustomPiece := mkCustomPiece {
  id : string;
  pattern : Pattern;
  color : string;
  createdAt : Z }.

(** The [useState] values of the dialog. *)
Record Editor := mkEditor {
  isOpen : bool;
  selectedColor : string;
  gridSize : Z;
  editorPattern : Pattern;
  editingShape : option CustomPiece }.

(** [Array(6).fill(null).map(() => Array(6).fill(0))] *)
Definition blankPattern : Pattern := replicate 6 (replicate 6 0%Z).

(** [toggleCell(row, col)]: the pattern is copied row by row and the cell is
    set to [0] when it was truthy, to [1] otherwise.  A missing row throws;
    a column just past the end of the row appends the [1]; a column further
    out would leave holes in the row. *)
Definition toggleCell (pattern : Pattern) (row col : nat) : option Pattern :=
  cells ← pattern !! row;
  match cells !! col with
  | Some v => Some (<[row := <[col := if truthy v then 0%Z else 1%Z]> cells]> pattern)
  | None =>
    if decide (col = length cells)
    then Some (<[row := cells ++ [1%Z]]> pattern) else None
  end.

(** [resetForm()] *)
Definition resetForm (e : Editor) : Editor :=
  {| isOpen := isOpen e;
     selectedColor := "#F5BE02";
     gridSize := 6;
     editorPattern := blankPattern;
     editingShape := None |}.

(** [handleSaveShape()]: the shape handed to [onSaveShape], and the dialog
    afterwards.  [now] is [Date.now()]; [fresh] stands for
    [`shape-${Date.now()}-${Math.random().toString(36).substr(2, 9)}`]. *)
Definition handleSaveShape (now : Z) (fresh : string) (e : Editor)
  : option (CustomPiece * Editor) :=
  trimmedPattern ← trimPattern (editorPattern e);
  let newShape :=
    {| id := match editingShape e with
             | Some s => if decide (id s = "") then fresh else id s
             | None => fresh
             end;
       pattern := trimmedPattern;
       color := selectedColor e;
       createdAt := match editingShape e with
                    | Some s => if decide (createdAt s = 0%Z) then now else createdAt s
                    | None => now
                    end |} in
  let e' := resetForm e in
  Some (newShape,
        {| isOpen := false; selectedColor := selectedColor e';
           gridSize := gridSize e'; editorPattern := editorPattern e';
           editingShape := editingShape e' |}).

(** [handleEditShape(shape)];
    [Math.max(shape.pattern.length, shape.pattern[0]?.length || 1) + 1]. *)
Definition handleEditShape (shape : CustomPiece) (e : Editor) : Editor :=
  {| isOpen := true;
     selectedColor := color shape;
     gridSize :=
       (Z.max (Z.of_nat (length (pattern shape)))
              (match pattern shape !! 0%nat with
               | Some row0 => if decide (length row0 = 0%nat) then 1
                              else Z.of_nat (length row0)
               | None => 1
               end) + 1)%Z;
     editorPattern := pattern shape;
     editingShape := Some shape |}.

End ShapeCreator.

(** * The catalogue of custom shapes (App.tsx) *)

Module App.

(** [handleSaveShape(shape)]: the first shape with the same id is replaced
    in place; without one the shape is appended. *)
Definition handleSaveShape (shape : ShapeCreator.CustomPiece)
    (prev : list ShapeCreator.CustomPiece) : list ShapeCreator.CustomPiece :=
  match list_find (λ s, ShapeCreator.id s = ShapeCreator.id shape) prev with
  | Some (existing, _) => <[existing := shape]> prev
  | None => prev ++ [shape]
  end.

(** [handleDeleteShape(id)] *)
Definition handleDeleteShape (sid : string)
    (prev : list ShapeCreator.CustomPiece) : list ShapeCreator.CustomPiece :=
  filter (λ s, ShapeCreator.id s ≠ sid) prev.

End App.

(** * A shape of the palette (PaletteShape.tsx) *)

Module PaletteShape.

(** [handleRotate()]: [setPattern(prev => rotatePattern(prev))], with the
    component's own copy of [rotatePattern]. *)
Definition handleRotate (prev : Pattern) : option Pattern := rotatePattern prev.

(** The pattern after [n] clicks. *)
Fixpoint clicks (n : nat) (pattern : Pattern) : option Pattern :=
  match n with
  | O => Some pattern
  | S n => rotated ← handleRotate pattern; clicks n rotated
  end.

End PaletteShape.

(** * Vocabulary of the statements *)

Import Grid.

(** ** Matrices *)

(** An [R]-by-[C] matrix: [R] rows, every one of length [C]. *)
Definition rect (R C : nat) (p : Pattern) : Prop :=
  length p = R ∧ Forall (λ row, length row = C) p.

(** A cell that is present and truthy. *)
Definition is_set (p : Pattern) (i j : nat) : Prop :=
  ∃ v, cellAt p i j = Some v ∧ truthy v = true.

(** Coordinates of a visited cell, and the start of the scan of
    [trimPattern]. *)
Definition rowOf (e : nat * nat * Z) : Z := Z.of_nat e.1.1.
Definition colOf (e : nat * nat * Z) : Z := Z.of_nat e.1.2.

(** Some truthy cell of [l] has coordinate [z] along [f]. *)
Definition attains (l : list (nat * nat * Z)) (f : nat * nat * Z → Z) (z : Z)
  : Prop :=
  ∃ e, e ∈ l ∧ truthy e.2 = true ∧ f e = z.

Definition box0 (R0 C0 : Z) : Box :=
  {| minRow := R0; maxRow := -1; minCol := C0; maxCol := -1 |}.

(** ** Geometry, in the words of the spec *)

(** Section 4.2:
    [blockIndexAxis = floor(grabOffsetAxis / (S+G))], clamped to
    [[0, patternExtentAxis - 1]], and
    [cell = round((pointerAxis - containerOriginAxis - P) / (S+G)) - blockIndexAxis]. *)
Definition clamped (lo hi v : Z) : Z := Z.min hi (Z.max lo v).

Definition spec_blockIndex (S G grabOffsetAxis : Q) (patternExtentAxis : Z) : Z :=
  clamped 0 (patternExtentAxis - 1) (Qfloor (grabOffsetAxis / (S + G))).

Definition spec_originCell (S G P pointerAxis containerOriginAxis : Q)
    (blockIndexAxis : Z) : Z :=
  (Math_round ((pointerAxis - containerOriginAxis - P) / (S + G))
   - blockIndexAxis)%Z.

(** [(r, c)] lies in [[0,rows) x [0,cols)]. *)
Definition inside (props : GridProps) (r c : Z) : Prop :=
  (0 ≤ r < rows props)%Z ∧ (0 ≤ c < cols props)%Z.

(** [(r, c)] is a set cell of the piece's pattern shifted by its origin. *)
Definition footprint (piece : PlacedPiece) (r c : Z) : Prop :=
  ∃ i j, is_set (pattern piece) i j ∧
         r = (row piece + Z.of_nat i)%Z ∧ c = (col piece + Z.of_nat j)%Z.

(** ** Parts of the handlers, named *)

(** The piece that an accepted drop appends (lines 134-147). *)
Definition newPieceOf (seenPieces : list PlacedPiece) (fresh : string)
    (item : DragItem) (pattern : Pattern) (row col : Z) : PlacedPiece :=
  let existingPiece :=
    pid ← item_pieceId item; List.find (λ p, bool_decide (id p = pid)) seenPieces in
  {| id := default fresh (truthyId (item_pieceId item));
     type := item_type item;
     pattern := pattern;
     originalPattern := from_option originalPattern pattern existingPiece;
     color := item_color item;
     row := row;
     col := col;
     rotation := from_option rotation 0%Z existingPiece |}.

(** The body of the two loops of [getHoverCells] (lines 254-260). *)
Definition hoverStep (props : GridProps) (row col : Z)
    (hoverCells : gset string) (e : nat * nat * Z) : gset string :=
  let '(i, j, v) := e in
  if truthy v then
    let targetRow := (row + Z.of_nat i)%Z in
    let targetCol := (col + Z.of_nat j)%Z in
    if ((targetRow >=? 0)%Z && (targetRow <? rows props)%Z
        && (targetCol >=? 0)%Z && (targetCol <? cols props)%Z)
    then hoverCells ∪ {[cellId targetRow targetCol]}
    else hoverCells
  else hoverCells.

(** No character of [s] is the separator of [cellId]. *)
Fixpoint no_dash (s : string) : Prop :=
  match s with
  | EmptyString => True
  | String a s => a ≠ "-"%char ∧ no_dash s
  end.

(** ** The spec's wording *)

(** The condition under which the spec has a drop rejected: the pattern is
    missing or empty, or a set cell lands outside the grid. *)
Definition badDrop (props : GridProps) (rect : DOMRect) (item : DragItem)
    (pt : Point) : Prop :=
  item_pattern item = None ∨ item_pattern item = Some [] ∨
  ∃ row0 rest i j,
    item_pattern item = Some (row0 :: rest) ∧ is_set (row0 :: rest) i j ∧
    let o := dropOrigin props rect (row0 :: rest) row0 (item_pointerOffset item) pt in
    ¬ inside props (o.1 + Z.of_nat i) (o.2 + Z.of_nat j).

(** Section 5: a session ends with exactly one of [place] and [remove]. *)
Definition spec_one_terminal (props : GridProps) (containerRef : option DOMRect)
    (seenPieces : list PlacedPiece) (fresh : string) (piece : PlacedPiece)
    (dragStartOffset : Point) (release : Release) (prev : GridState) : Prop :=
  let fired :=
    (dragSession props containerRef seenPieces fresh piece dragStartOffset
       release prev).1 in
  fired = [Place] ∨ fired = [Remove].

(** ** Example data *)

(** A 5-by-5 grid with the default metrics: cell 30, gap 5, padding 8. *)
Definition props55 : GridProps :=
  {| rows := 5; cols := 5; editionMode := false;
     gridCellSize := None; gridPaddingSize := None |}.

Definition rect0 : DOMRect := {| rect_left := 100; rect_top := 200 |}.

(** The client position whose offset inside the padded grid is [(gx, gy)]. *)
Definition gridRelative (gx gy : Q) : Point :=
  {| x := rect_left rect0 + containerPadding props55 + gx;
     y := rect_top rect0 + containerPadding props55 + gy |}.

(** The client position over the middle of cell [(r, c)]. *)
Definition overCell (r c : Z) : Point :=
  gridRelative (inject_Z (35 * c)) (inject_Z (35 * r)).

Definition paletteItem (type color : string) (pattern : Pattern)
    (pointerOffset : option Point) : DragItem :=
  {| item_pattern := Some pattern; item_type := type; item_color := color;
     item_pieceId := None; item_pointerOffset := pointerOffset |}.

Definition shapeL : Pattern := [[1; 0]; [1; 0]; [1; 1]]%Z.

(** A drop from the palette, and the move of the piece once it has been
    rotated. *)
Definition dropL : Event :=
  Drop (Some rect0) (paletteItem "L" "#ff8800" shapeL None)
       (Some (overCell 0 0)) "piece-1".

Definition rotatedL : PlacedPiece :=
  {| id := "piece-1"; type := "L"; pattern := [[1; 1; 1]; [1; 0; 0]]%Z;
     originalPattern := shapeL; color := "#ff8800";
     row := 0; col := 0; rotation := 90 |}.

Definition moveL : Event :=
  Drop (Some rect0) (overlayItem rotatedL {| x := 10; y := 10 |})
       (Some (overCell 1 1)) "piece-2".

(** The piece as the code puts it back, and the component before and after
    the move. *)
Definition movedL : PlacedPiece :=
  {| id := "piece-1"; type := "L"; pattern := [[1; 1; 1]; [1; 0; 0]]%Z;
     originalPattern := [[1; 1; 1]; [1; 0; 0]]%Z; color := "#ff8800";
     row := 1; col := 1; rotation := 0 |}.

Definition afterRotate : Component :=
  {| props := props55;
     state := {| pieces := [rotatedL]; walls := ∅; markedCells := ∅;
                 cellMinis := ∅ |};
     dropPieces := [] |}.

Definition afterMove : Component :=
  {| props := props55;
     state := {| pieces := [movedL]; walls := ∅; markedCells := ∅;
                 cellMinis := ∅ |};
     dropPieces := [] |}.

Definition squareAt (pid colour : string) (r c : Z) : PlacedPiece :=
  {| id := pid; type := "O"; pattern := [[1; 1]; [1; 1]]%Z;
     originalPattern := [[1; 1]; [1; 1]]%Z; color := colour;
     row := r; col := c; rotation := 0 |}.

Definition withPieces (l : list PlacedPiece) : GridState :=
  {| pieces := l; walls := ∅; markedCells := ∅; cellMinis := ∅ |}.

(** ** Further vocabulary *)

(** A rotation angle the code can reach from 0 in steps of 90 mod 360. *)
Definition quarterTurn (r : Z) : Prop :=
  (r = 0 ∨ r = 90 ∨ r = 180 ∨ r = 270)%Z.

(** What [rotatePiece] makes of a piece whose pattern rotates to [Q]. *)
Definition turnedPiece (p : PlacedPiece) (Q : Pattern) : PlacedPiece :=
  {| id := id p; type := type p; pattern := Q;
     originalPattern := originalPattern p;
     color := color p; row := row p; col := col p;
     rotation := Z.rem (rotation p + 90) 360 |}.

(** The pieces with identity [pid] have rectangular patterns with a row and
    a column, and rotations that are quarter turns. *)
Definition turnable (pid : string) (l : list PlacedPiece) : Prop :=
  Forall (λ p, id p = pid →
    quarterTurn (rotation p) ∧
    ∃ R C, 0 < R ∧ 0 < C ∧ rect R C (pattern p)) l.

(** Inputs of the examples: a freshly placed piece, a mini dropped on cell
    [(1, 2)] in edition mode and the component after it, and the 5x5 grid
    in edition mode. *)
Definition plainPiece (pid : string) (pattern : Pattern) (r c : Z) : PlacedPiece :=
  {| id := pid; type := "custom"; pattern := pattern; originalPattern := pattern;
     color := "#F5BE02"; row := r; col := c; rotation := 0 |}.

Definition dropMini : Event :=
  Drop (Some rect0) (paletteItem "L" "#ff8800" shapeL None)
       (Some (overCell 1 2)) "piece-1".

Definition afterMini : Component :=
  {| props := {| rows := 5; cols := 5; editionMode := true;
                 gridCellSize := None; gridPaddingSize := None |};
     state := {| pieces := []; walls := ∅; markedCells := ∅;
                 cellMinis := <["1-2" := {| mini_pattern := shapeL;
                                           mini_color := "#ff8800" |}]> ∅ |};
     dropPieces := [] |}.

(** The grid pitch: the distance between the corners of neighbouring cells. *)
Definition pitch (props : GridProps) : Q := (cellSize props + gapSize props)%Q.

Definition editing55 : GridProps :=
  {| rows := 5; cols := 5; editionMode := true;
     gridCellSize := None; gridPaddingSize := None |}.

(** A horizontal domino from the palette, and the pointer over the corner
    of the first cell of the last row of a grid whose container sits at the
    client origin. *)
Definition domino : DragItem :=
  {| item_pattern := Some [[1; 1]]%Z; item_type := "I2"; item_color := "#F5BE02";
     item_pieceId := None; item_pointerOffset := None |}.

Definition lastRowCorner (props : GridProps) : Point :=
  {| x := containerPadding props;
     y := (containerPadding props + inject_Z (rows props - 1) * pitch props)%Q |}.

(** Evaluate the [step] that the goal is stuck on. *)
Ltac eval_step :=
  match goal with
  | |- context [step ?c ?e] =>
    let r := eval vm_compute in (step c e) in change (step c e) with r
  end.

(** Linear arithmetic over [Q] with the integers that occur taken as
    atoms. *)
Ltac atoms_lra :=
  change (inject_Z 1) with 1%Q in *;
  repeat match goal with
         | |- context [inject_Z ?z] =>
           let a := fresh "a" in
           set (a := inject_Z z) in *; clearbody a
         | H : context [inject_Z ?z] |- _ =>
           let a := fresh "a" in
           set (a := inject_Z z) in *; clearbody a
         end;
  lra.

(** * Properties *)

(** ** Loop invariants *)

Lemma for_upto_inv {S : Type} (I : nat → S → Prop) n body (s : S) :
  I 0 s →
  (∀ k t, k < n → I k t → ∃ t', body k t = Some t' ∧ I (Datatypes.S k) t') →
  ∃ t, for_upto n body s = Some t ∧ I n t.
Proof.
  intros H0 Hstep. induction n as [|n IH]; simpl.
  - eauto.
  - destruct IH as (t & -> & Ht); [intros; apply Hstep; [lia|done]|].
    simpl. apply Hstep; [lia|done].
Qed.

(** A loop over one state simulates the same loop over another. *)
Lemma for_upto_sim {S T : Type} (Rel : S → T → Prop) n
    (f : nat → S → option S) (g : nat → T → option T) s t s' :
  Rel s t →
  (∀ k s t s', k < n → Rel s t → f k s = Some s' →
     ∃ t', g k t = Some t' ∧ Rel s' t') →
  for_upto n f s = Some s' →
  ∃ t', for_upto n g t = Some t' ∧ Rel s' t'.
Proof.
  intros H0 Hstep. revert s'. induction n as [|n IH]; intros s' Hrun; simpl in *.
  - injection Hrun as <-. eauto.
  - destruct (for_upto n f s) as [s1|] eqn:Hs1; [|done]. simpl in Hrun.
    destruct (IH ltac:(intros; eapply Hstep; [lia|done..]) s1 eq_refl)
      as (t1 & -> & H1).
    simpl. eapply Hstep; [lia|done..].
Qed.

(** ** Matrices *)

Section matrices.
Implicit Types (m p : Pattern) (i j k : nat) (v : Z).

Lemma rect_row R C p i row : rect R C p → p !! i = Some row → length row = C.
Proof.
  intros [_ H] Hi. rewrite Forall_forall in H. apply H.
  by eapply list_elem_of_lookup_2.
Qed.

Lemma rect_cellAt R C p i j :
  rect R C p → i < R → j < C → is_Some (cellAt p i j).
Proof.
  intros Hr Hi Hj. unfold cellAt.
  destruct (lookup_lt_is_Some_2 p i) as [row Hrow]; [destruct Hr; lia|].
  rewrite Hrow. simpl. apply lookup_lt_is_Some_2.
  by rewrite (rect_row _ _ _ _ _ Hr Hrow).
Qed.

Lemma cellAt_Some_lt R C p i j v :
  rect R C p → cellAt p i j = Some v → i < R ∧ j < C.
Proof.
  intros Hr. unfold cellAt. destruct (p !! i) as [row|] eqn:Hrow; [|done].
  simpl. intros Hj. split.
  - destruct Hr as [<- _]. by eapply lookup_lt_Some.
  - rewrite <- (rect_row _ _ _ _ _ Hr Hrow). by eapply lookup_lt_Some.
Qed.

(** Two matrices of the same shape with the same cells are equal. *)
Lemma rect_ext R C p q :
  rect R C p → rect R C q →
  (∀ i j, i < R → j < C → cellAt p i j = cellAt q i j) → p = q.
Proof.
  intros Hp Hq Hcells. apply list_eq. intros i.
  destruct (decide (i < R)) as [Hi|Hi].
  - destruct (lookup_lt_is_Some_2 p i) as [rp Hrp]; [destruct Hp; lia|].
    destruct (lookup_lt_is_Some_2 q i) as [rq Hrq]; [destruct Hq; lia|].
    rewrite Hrp, Hrq. f_equal. apply list_eq. intros j.
    destruct (decide (j < C)) as [Hj|Hj].
    + specialize (Hcells i j Hi Hj). unfold cellAt in Hcells.
      by rewrite Hrp, Hrq in Hcells.
    + rewrite !lookup_ge_None_2; [done| |].
      * rewrite (rect_row _ _ _ _ _ Hq Hrq). lia.
      * rewrite (rect_row _ _ _ _ _ Hp Hrp). lia.
  - rewrite !lookup_ge_None_2; [done|destruct Hq; lia|destruct Hp; lia].
Qed.

Lemma store_rect R C m j k v :
  rect R C m → j < R → k < C →
  ∃ m', store m j k v = Some m' ∧ rect R C m' ∧
    ∀ j' k', cellAt m' j' k' =
             if decide (j' = j ∧ k' = k) then Some v else cellAt m j' k'.
Proof.
  intros Hm Hj Hk. unfold store.
  destruct (lookup_lt_is_Some_2 m j) as [row Hrow]; [destruct Hm; lia|].
  pose proof (rect_row _ _ _ _ _ Hm Hrow) as Hlen.
  rewrite Hrow. simpl. rewrite decide_True by lia.
  eexists. split; [done|]. split.
  - destruct Hm as [HR HC]. split; [by rewrite length_insert|].
    apply Forall_insert; [done|]. by rewrite length_insert.
  - intros j' k'. unfold cellAt. destruct (decide (j' = j)) as [->|Hne].
    + rewrite list_lookup_insert_eq by (destruct Hm; lia). simpl.
      destruct (decide (k' = k)) as [->|Hne'].
      * rewrite decide_True by done. apply list_lookup_insert_eq. lia.
      * rewrite decide_False by tauto. rewrite list_lookup_insert_ne by done.
        by rewrite Hrow.
    + rewrite decide_False by tauto. by rewrite list_lookup_insert_ne.
Qed.

Lemma rect_replicate R C v : rect R C (replicate R (replicate C v)).
Proof.
  split; [by rewrite length_replicate|].
  apply Forall_replicate. by rewrite length_replicate.
Qed.

End matrices.

(** ** Rotation *)

Section rotation.
Implicit Types (P Q : Pattern).

(** What [rotatePattern] computes on an [R]-by-[C] matrix with a first row. *)
Lemma rotatePattern_rect R C P :
  rect R C P → 0 < R →
  ∃ Q, rotatePattern P = Some Q ∧ rect C R Q ∧
    ∀ i j, i < R → j < C → cellAt Q j (R - 1 - i) = cellAt P i j.
Proof.
  intros HP HR. unfold rotatePattern.
  destruct (lookup_lt_is_Some_2 P 0) as [row0 Hrow0]; [destruct HP; lia|].
  rewrite Hrow0. simpl.
  rewrite (rect_row _ _ _ _ _ HP Hrow0). destruct HP as [HlenP HrowsP].
  rewrite HlenP.
  pose proof (conj HlenP HrowsP : rect R C P) as HP.
  apply (for_upto_inv (λ i m, rect C R m ∧
           ∀ i' j, i' < i → j < C → cellAt m j (R - 1 - i') = cellAt P i' j)).
  { split; [apply rect_replicate|]. intros; lia. }
  intros i m Hi [Hm Hdone].
  destruct (for_upto_inv (λ j m', rect C R m' ∧
      (∀ i' j', i' < i → j' < C → cellAt m' j' (R - 1 - i') = cellAt P i' j') ∧
      (∀ j', j' < j → cellAt m' j' (R - 1 - i) = cellAt P i j'))
      C (λ j rotated, v ← cellAt P i j; store rotated j (R - 1 - i) v) m)
    as (m' & Hrun & Hm' & Hold & Hnew).
  { split; [done|]. split; [done|]. intros; lia. }
  { intros j t Hj (Ht & Hold & Hnew).
    destruct (rect_cellAt _ _ _ i j HP Hi Hj) as [v Hv]. rewrite Hv. simpl.
    destruct (store_rect C R t j (R - 1 - i) v Ht Hj) as (t' & -> & Ht' & Hget);
      [lia|].
    eexists; split; [done|]. split; [done|]. split.
    - intros i' j' Hi' Hj'. rewrite Hget, decide_False by lia. by apply Hold.
    - intros j' Hj'. rewrite Hget. case_decide as Heq.
      + destruct Heq as [-> _]. done.
      + apply Hnew. lia. }
  exists m'. split; [done|]. split; [done|].
  intros i' j Hi' Hj. destruct (decide (i' = i)) as [->|Hne].
  - by apply Hnew.
  - apply Hold; lia.
Qed.

End rotation.

Section rotation_cycle.
Implicit Types (P Q : Pattern).

(** The same law read from the side of the result. *)
Lemma rotatePattern_cells R C P :
  rect R C P → 0 < R →
  ∃ Q, rotatePattern P = Some Q ∧ rect C R Q ∧
    ∀ j k, j < C → k < R → cellAt Q j k = cellAt P (R - 1 - k) j.
Proof.
  intros HP HR. destruct (rotatePattern_rect R C P HP HR) as (Q & HQ & Hrect & Hlaw).
  exists Q. split; [done|]. split; [done|]. intros j k Hj Hk.
  rewrite <- Hlaw by lia. f_equal. lia.
Qed.

End rotation_cycle.

(** ** Cells in loop order *)

Section entries.
Implicit Types (p : Pattern) (i j : nat) (v : Z).

Lemma elem_of_entries p i j v : (i, j, v) ∈ entries p ↔ cellAt p i j = Some v.
Proof.
  unfold entries, cellAt. rewrite list_elem_of_join. split.
  - intros (l & Hin & Hl). apply elem_of_lookup_imap in Hl as (i' & row & -> & Hrow).
    apply elem_of_lookup_imap in Hin as (j' & v' & [= -> -> ->] & Hv).
    by rewrite Hrow.
  - destruct (p !! i) as [row|] eqn:Hrow; [|done]. simpl. intros Hv.
    exists (imap (λ j v, (i, j, v)) row). split.
    + apply elem_of_lookup_imap. eauto.
    + apply elem_of_lookup_imap. eauto.
Qed.

End entries.

(** ** Trimming *)

Section bounding_box.
Local Open Scope Z_scope.
Implicit Types (l : list (nat * nat * Z)) (b : Box) (e : nat * nat * Z).

Lemma attains_app l e f z : attains l f z → attains (l ++ [e]) f z.
Proof. intros (e' & ? & ? & ?). exists e'. rewrite elem_of_app. auto. Qed.

Lemma attains_last l e f : truthy e.2 = true → attains (l ++ [e]) f (f e).
Proof.
  intros He. exists e. rewrite elem_of_app, list_elem_of_singleton. auto.
Qed.

(** The state of the scanning loops after the cells [l]. *)
Lemma foldl_grow_inv R0 C0 l :
  (∀ e, e ∈ l → rowOf e < R0 ∧ colOf e < C0) →
  let b := foldl grow (box0 R0 C0) l in
  (∀ e, e ∈ l → truthy e.2 = true →
     minRow b ≤ rowOf e ≤ maxRow b ∧ minCol b ≤ colOf e ≤ maxCol b) ∧
  ((b = box0 R0 C0 ∧ ∀ e, e ∈ l → truthy e.2 = false) ∨
   (attains l rowOf (minRow b) ∧ attains l rowOf (maxRow b) ∧
    attains l colOf (minCol b) ∧ attains l colOf (maxCol b))).
Proof.
  induction l as [|e l IH] using rev_ind; intros Hlt; simpl.
  { split; [intros e He; by apply elem_of_nil in He|].
    left. split; [done|]. intros e He. by apply elem_of_nil in He. }
  rewrite foldl_snoc.
  destruct IH as [Hin Hatt].
  { intros e' He'. apply Hlt. rewrite elem_of_app. auto. }
  set (b := foldl grow (box0 R0 C0) l) in *.
  assert (rowOf e < R0 ∧ colOf e < C0) as [HeR HeC].
  { apply Hlt. rewrite elem_of_app, list_elem_of_singleton. auto. }
  assert (0 ≤ rowOf e ∧ 0 ≤ colOf e) as [HeR0 HeC0]
    by (unfold rowOf, colOf; lia).
  destruct e as [[i j] v]. unfold grow.
  destruct (truthy v) eqn:Hv.
  - simpl. split.
    + intros e'. rewrite elem_of_app, list_elem_of_singleton.
      intros [He'| ->] Hset; simpl.
      * specialize (Hin e' He' Hset). lia.
      * unfold rowOf, colOf. simpl. lia.
    + right.
      pose proof (attains_last l (i, j, v) rowOf Hv) as Hrow.
      pose proof (attains_last l (i, j, v) colOf Hv) as Hcol.
      unfold rowOf at 2 in Hrow. unfold colOf at 2 in Hcol. simpl in Hrow, Hcol.
      unfold rowOf, colOf in HeR, HeC; simpl in HeR, HeC.
      destruct Hatt as [[Hb _]|(A1 & A2 & A3 & A4)].
      * rewrite Hb. simpl.
        rewrite (Z.min_r R0) by lia. rewrite (Z.max_r (-1)) by lia.
        rewrite (Z.min_r C0) by lia. rewrite (Z.max_r (-1)) by lia. done.
      * repeat split.
        -- destruct (Z.min_spec (minRow b) (Z.of_nat i)) as [[_ ->]|[_ ->]];
             [by apply attains_app|done].
        -- destruct (Z.max_spec (maxRow b) (Z.of_nat i)) as [[_ ->]|[_ ->]];
             [done|by apply attains_app].
        -- destruct (Z.min_spec (minCol b) (Z.of_nat j)) as [[_ ->]|[_ ->]];
             [by apply attains_app|done].
        -- destruct (Z.max_spec (maxCol b) (Z.of_nat j)) as [[_ ->]|[_ ->]];
             [done|by apply attains_app].
  - split.
    + intros e'. rewrite elem_of_app, list_elem_of_singleton.
      intros [He'| ->] Hset; [by apply Hin|]. simpl in Hset. congruence.
    + destruct Hatt as [[Hb Hnone]|(A1 & A2 & A3 & A4)].
      * left. split; [done|]. intros e'.
        rewrite elem_of_app, list_elem_of_singleton. intros [?| ->]; auto.
      * right. repeat split; by apply attains_app.
Qed.

End bounding_box.

Section trimming.
Implicit Types (P T : Pattern) (i j : nat).

Lemma slice_inside {A : Type} (l : list A) (c0 c1 : nat) :
  c0 ≤ c1 < length l →
  slice (Z.of_nat c0) (Z.of_nat c1 + 1) l = take (c1 + 1 - c0) (drop c0 l).
Proof.
  intros H. unfold slice, slice_index.
  destruct (Z.ltb_spec (Z.of_nat c0) 0) as [|_]; [lia|].
  destruct (Z.ltb_spec (Z.of_nat c1 + 1) 0) as [|_]; [lia|].
  rewrite !Z.min_l by lia. f_equal; [lia|]. f_equal. lia.
Qed.

Lemma push_rows {A B : Type} (f : A → B) (l : list A) (r0 n : nat) :
  r0 + n ≤ length l →
  for_upto n (λ k trimmed, row ← l !! (r0 + k); Some (trimmed ++ [f row])) []
  = Some (f <$> take n (drop r0 l)).
Proof.
  induction n as [|n IH]; intros Hn; simpl.
  - done.
  - rewrite IH by lia. simpl.
    destruct (lookup_lt_is_Some_2 l (r0 + n)) as [row Hrow]; [lia|].
    rewrite Hrow. simpl. f_equal.
    rewrite (take_S_r _ _ row) by (by rewrite lookup_drop).
    by rewrite fmap_snoc.
Qed.

Lemma is_set_lt R C P i j : rect R C P → is_set P i j → i < R ∧ j < C.
Proof. intros HP (v & Hv & _). by eapply cellAt_Some_lt. Qed.

Lemma trimPattern_empty R C P :
  rect R C P → 0 < R → (∀ i j, ¬ is_set P i j) → trimPattern P = Some [[1%Z]].
Proof.
  intros HP HR Hnone. unfold trimPattern.
  destruct (lookup_lt_is_Some_2 P 0) as [row0 Hrow0]; [destruct HP; lia|].
  rewrite Hrow0. simpl.
  destruct (foldl_grow_inv (Z.of_nat (length P)) (Z.of_nat (length row0)) (entries P))
    as [_ [[Hb _]|((e & He & Hset & _) & _)]].
  - intros [[i j] v] He. apply elem_of_entries in He.
    apply (cellAt_Some_lt _ _ _ _ _ _ HP) in He.
    rewrite (rect_row _ _ _ _ _ HP Hrow0). destruct HP as [-> _].
    unfold rowOf, colOf. simpl. lia.
  - unfold box0 in Hb. rewrite Hb. simpl.
    destruct (Z.gtb_spec (Z.of_nat (length P)) (-1)) as [|]; [done|lia].
  - destruct e as [[i j] v]. apply elem_of_entries in He.
    exfalso. apply (Hnone i j). by exists v.
Qed.

Lemma trimPattern_box R C P :
  rect R C P → 0 < R → (∃ i j, is_set P i j) →
  ∃ r0 r1 c0 c1 T,
    trimPattern P = Some T ∧ r0 ≤ r1 < R ∧ c0 ≤ c1 < C ∧
    rect (r1 - r0 + 1) (c1 - c0 + 1) T ∧
    (∀ i j, i ≤ r1 - r0 → j ≤ c1 - c0 →
       cellAt T i j = cellAt P (r0 + i) (c0 + j)) ∧
    (∀ i j, is_set P i j → r0 ≤ i ≤ r1 ∧ c0 ≤ j ≤ c1) ∧
    (∃ j, is_set P r0 j) ∧ (∃ j, is_set P r1 j) ∧
    (∃ i, is_set P i c0) ∧ (∃ i, is_set P i c1).
Proof.
  intros HP HR (i0 & j0 & v0 & Hv0 & Hset0). unfold trimPattern.
  destruct (lookup_lt_is_Some_2 P 0) as [row0 Hrow0]; [destruct HP; lia|].
  rewrite Hrow0. simpl.
  destruct (foldl_grow_inv (Z.of_nat (length P)) (Z.of_nat (length row0)) (entries P))
    as [Hin [[_ Hnone]|(A1 & A2 & A3 & A4)]].
  { intros [[i j] v] He. apply elem_of_entries in He.
    apply (cellAt_Some_lt _ _ _ _ _ _ HP) in He.
    rewrite (rect_row _ _ _ _ _ HP Hrow0). destruct HP as [-> _].
    unfold rowOf, colOf. simpl. lia. }
  { apply elem_of_entries in Hv0. specialize (Hnone _ Hv0). simpl in Hnone.
    congruence. }
  set (b := foldl grow _ (entries P)) in *.
  destruct A1 as ([[r0 ja] va] & Ea & Sa & Ha).
  destruct A2 as ([[r1 jb] vb] & Eb & Sb & Hb).
  destruct A3 as ([[ic c0] vc] & Ec & Sc & Hc).
  destruct A4 as ([[id c1] vd] & Ed & Sd & Hd).
  unfold rowOf, colOf in Ha, Hb, Hc, Hd. simpl in *.
  apply elem_of_entries in Ea, Eb, Ec, Ed.
  assert (∀ i j, is_set P i j →
            (minRow b ≤ Z.of_nat i ≤ maxRow b)%Z ∧
            (minCol b ≤ Z.of_nat j ≤ maxCol b)%Z) as Hbox.
  { intros i j (v & Hv & Hs). apply elem_of_entries in Hv.
    apply (Hin _ Hv Hs). }
  pose proof (Hbox _ _ (ex_intro _ va (conj Ea Sa))) as Ba.
  pose proof (Hbox _ _ (ex_intro _ vd (conj Ed Sd))) as Bd.
  pose proof (cellAt_Some_lt _ _ _ _ _ _ HP Eb) as [Lb _].
  pose proof (cellAt_Some_lt _ _ _ _ _ _ HP Ed) as [_ Ld].
  destruct (Z.gtb_spec (minRow b) (maxRow b)) as [|_]; [lia|].
  exists r0, r1, c0, c1. eexists.
  rewrite <- Ha, <- Hb, <- Hc, <- Hd in *.
  replace (Z.to_nat (Z.of_nat r1 - Z.of_nat r0 + 1)) with (r1 - r0 + 1) by lia.
  rewrite Nat2Z.id.
  split; [apply push_rows; destruct HP; lia|].
  split; [lia|]. split; [lia|].
  assert (∀ i, i ≤ r1 - r0 →
    (slice (Z.of_nat c0) (Z.of_nat c1 + 1) <$> take (r1 - r0 + 1) (drop r0 P)) !! i
    = (λ row, take (c1 + 1 - c0) (drop c0 row)) <$> P !! (r0 + i)) as Hrows.
  { intros i Hi. rewrite list_lookup_fmap, lookup_take_lt, lookup_drop by lia.
    destruct (P !! (r0 + i)) as [row|] eqn:Hrow; [|done]. simpl. f_equal.
    apply slice_inside. rewrite (rect_row _ _ _ _ _ HP Hrow). lia. }
  split; [|split; [|split; [|repeat split]]].
  - split.
    + rewrite length_fmap, length_take, length_drop. destruct HP. lia.
    + apply Forall_fmap, Forall_take, Forall_drop.
      destruct HP as [_ HC]. eapply Forall_impl; [exact HC|].
      intros row Hlen. simpl in Hlen |- *. rewrite slice_inside by lia.
      rewrite length_take, length_drop. lia.
  - intros i j Hi Hj. unfold cellAt. rewrite Hrows by done.
    destruct (P !! (r0 + i)) as [row|]; [|done]. simpl.
    by rewrite lookup_take_lt, lookup_drop by lia.
  - intros i j Hij. specialize (Hbox i j Hij). lia.
  - by exists ja, va.
  - by exists jb, vb.
  - by exists ic, vc.
  - by exists id, vd.
Qed.

End trimming.

Section trim_idempotent.
Implicit Types (P T : Pattern) (i j : nat).

Lemma is_set_dec P : (∃ i j, is_set P i j) ∨ (∀ i j, ¬ is_set P i j).
Proof.
  destruct (decide (Exists (λ e : nat * nat * Z, truthy e.2 = true) (entries P)))
    as [H|H].
  - left. apply Exists_exists in H as ([[i j] v] & He & Hs).
    exists i, j, v. by apply elem_of_entries in He.
  - right. intros i j (v & Hv & Hs). apply H, Exists_exists.
    exists (i, j, v). by rewrite elem_of_entries.
Qed.

Lemma trimPattern_total R C P : rect R C P → 0 < R → is_Some (trimPattern P).
Proof.
  intros HP HR. destruct (is_set_dec P) as [Hsome|Hnone].
  - destruct (trimPattern_box R C P HP HR Hsome) as (?&?&?&?&T&->&_). by eexists.
  - rewrite (trimPattern_empty R C P HP HR Hnone). by eexists.
Qed.

(** The border rows and columns of the trimmed matrix hold a set cell. *)
Lemma trimPattern_borders P T r0 r1 c0 c1 :
  r0 ≤ r1 → c0 ≤ c1 →
  (∀ i j, i ≤ r1 - r0 → j ≤ c1 - c0 →
     cellAt T i j = cellAt P (r0 + i) (c0 + j)) →
  (∀ i j, is_set P i j → r0 ≤ i ≤ r1 ∧ c0 ≤ j ≤ c1) →
  (∃ j, is_set P r0 j) → (∃ j, is_set P r1 j) →
  (∃ i, is_set P i c0) → (∃ i, is_set P i c1) →
  (∃ j, j ≤ c1 - c0 ∧ is_set T 0 j) ∧
  (∃ j, j ≤ c1 - c0 ∧ is_set T (r1 - r0) j) ∧
  (∃ i, i ≤ r1 - r0 ∧ is_set T i 0) ∧
  (∃ i, i ≤ r1 - r0 ∧ is_set T i (c1 - c0)).
Proof.
  intros Hr Hc Hcells Hbox [ja Sa] [jb Sb] [ic Sc] [id Sd].
  assert (∀ i j, r0 ≤ i ≤ r1 → c0 ≤ j ≤ c1 → is_set P i j →
            is_set T (i - r0) (j - c0)) as Hmove.
  { intros i j Hi Hj (v & Hv & Hs). exists v. split; [|done].
    rewrite Hcells by lia. rewrite <- Hv. f_equal; lia. }
  pose proof (Hbox _ _ Sa) as [_ Ba]. pose proof (Hbox _ _ Sb) as [_ Bb].
  pose proof (Hbox _ _ Sc) as [Bc _]. pose proof (Hbox _ _ Sd) as [Bd _].
  pose proof (Hmove r0 ja ltac:(lia) Ba Sa) as Ta.
  pose proof (Hmove r1 jb ltac:(lia) Bb Sb) as Tb.
  pose proof (Hmove ic c0 Bc ltac:(lia) Sc) as Tc.
  pose proof (Hmove id c1 Bd ltac:(lia) Sd) as Td.
  rewrite Nat.sub_diag in Ta, Tc.
  split; [exists (ja - c0); split; [lia|done]|].
  split; [exists (jb - c0); split; [lia|done]|].
  split; [exists (ic - r0); split; [lia|done]|].
  exists (id - r0). split; [lia|done].
Qed.

Lemma trimPattern_idem R C P T :
  rect R C P → 0 < R → trimPattern P = Some T → trimPattern T = Some T.
Proof.
  intros HP HR HT. destruct (is_set_dec P) as [Hsome|Hnone].
  2:{ rewrite (trimPattern_empty R C P HP HR Hnone) in HT.
      injection HT as <-. reflexivity. }
  destruct (trimPattern_box R C P HP HR Hsome)
    as (r0 & r1 & c0 & c1 & T0 & HT0 & Hr & Hc & HrT & Hcells & Hbox
        & Sa & Sb & Sc & Sd).
  rewrite HT in HT0. injection HT0 as <-.
  destruct (trimPattern_borders P T r0 r1 c0 c1) as
    ((ja & _ & Ta) & (jb & _ & Tb) & (ic & _ & Tc) & (id & _ & Td));
    [lia|lia|done..|].
  destruct (trimPattern_box _ _ T HrT ltac:(lia) (ex_intro _ _ (ex_intro _ _ Ta)))
    as (r0' & r1' & c0' & c1' & T' & -> & Hr' & Hc' & HrT' & Hcells' & Hbox' & _).
  pose proof (Hbox' _ _ Ta) as Ba. pose proof (Hbox' _ _ Tb) as Bb.
  pose proof (Hbox' _ _ Tc) as Bc. pose proof (Hbox' _ _ Td) as Bd.
  assert (r0' = 0) as -> by lia. assert (r1' = r1 - r0) as -> by lia.
  assert (c0' = 0) as -> by lia. assert (c1' = c1 - c0) as -> by lia.
  rewrite !Nat.sub_0_r in HrT'.
  f_equal. apply (rect_ext _ _ _ _ HrT' HrT).
  intros i j Hi Hj. rewrite Hcells' by lia. done.
Qed.

End trim_idempotent.


(** ** Patterns on the heap *)

Section heap_facts.
Import Heap.
Implicit Types (h : heap) (l r : loc) (a : array) (P Q : Pattern).

Lemma alloc_spec h a l h' :
  alloc h a = (l, h') → h !! l = None ∧ h' = <[l := a]> h.
Proof.
  unfold alloc. intros [= <- <-]. split; [|done].
  apply not_elem_of_dom, is_fresh.
Qed.

Lemma lengthOf_Rows h l refs :
  h !! l = Some (Rows refs) → lengthOf h l = Some (length refs).
Proof. unfold lengthOf. by intros ->. Qed.

Lemma lengthOf_Numbers h l cells :
  h !! l = Some (Numbers cells) → lengthOf h l = Some (length cells).
Proof. unfold lengthOf. by intros ->. Qed.

Lemma readRow_Rows h l refs i :
  h !! l = Some (Rows refs) → readRow h l i = refs !! i.
Proof. unfold readRow. by intros ->. Qed.

Lemma unchanged_refl h : unchanged h h.
Proof. by intros l a. Qed.

Lemma unchanged_trans h1 h2 h3 :
  unchanged h1 h2 → unchanged h2 h3 → unchanged h1 h3.
Proof. intros H12 H23 l a Hl. by apply H23, H12. Qed.

Lemma unchanged_insert h l a : h !! l = None → unchanged h (<[l := a]> h).
Proof.
  intros Hl l' a' Hl'. rewrite lookup_insert_ne; [done|]. intros ->. congruence.
Qed.

Lemma unchanged_None h h' l : unchanged h h' → h' !! l = None → h !! l = None.
Proof.
  intros Hu Hl. destruct (h !! l) as [a|] eqn:Ha; [|done].
  apply Hu in Ha. congruence.
Qed.

Lemma represents_unchanged h h' l P :
  represents h l P → unchanged h h' → represents h' l P.
Proof.
  intros (refs & Hl & Hrows) Hu. exists refs. split; [by apply Hu|].
  eapply Forall2_impl; [exact Hrows|]. intros r row Hr. by apply Hu.
Qed.

Lemma load_represents h l P : represents h l P → load h l = Some P.
Proof.
  intros (refs & Hl & Hrows). unfold load. rewrite Hl. apply mapM_Some.
  eapply Forall2_impl; [exact Hrows|]. intros r row Hr. simpl. by rewrite Hr.
Qed.

Lemma represents_cell h l P i j v :
  represents h l P → cellAt P i j = Some v →
  ∃ source, readRow h l i = Some source ∧ readCell h source j = Some v.
Proof.
  intros (refs & Hl & Hrows). unfold cellAt, readRow, readCell. rewrite Hl.
  destruct (P !! i) as [row|] eqn:Hrow; [|done]. simpl. intros Hv.
  destruct (Forall2_lookup_r _ _ _ _ _ Hrows Hrow) as (source & Hsource & Hs).
  exists source. by rewrite Hsource, Hs.
Qed.

End heap_facts.

Section heap_rotation.
Import Heap.
Implicit Types (h : heap) (l r : loc) (P Q m : Pattern).

(** The rows that [Array(cols).fill(null).map(() => Array(rows).fill(0))]
    makes are new and pairwise distinct objects. *)
Lemma alloc_zero_rows h rows cols :
  ∃ refs h1,
    for_upto cols (λ _ '(refs, h),
      let '(r, h) := alloc h (Numbers (replicate rows 0%Z)) in
      Some (refs ++ [r], h)) ([], h) = Some (refs, h1) ∧
    unchanged h h1 ∧ (∀ r, r ∈ refs → h !! r = None) ∧ NoDup refs ∧
    Forall2 (λ r row, h1 !! r = Some (Numbers row)) refs
            (replicate cols (replicate rows 0%Z)).
Proof.
  destruct (for_upto_inv (λ k '(refs, hc),
      unchanged h hc ∧ (∀ r, r ∈ refs → h !! r = None) ∧ NoDup refs ∧
      Forall2 (λ r row, hc !! r = Some (Numbers row)) refs
              (replicate k (replicate rows 0%Z)))
    cols (λ _ '(refs, h),
      let '(r, h) := alloc h (Numbers (replicate rows 0%Z)) in
      Some (refs ++ [r], h)) ([], h)) as ([refs h1] & Hrun & Hinv).
  - split; [apply unchanged_refl|]. split; [|split; [apply NoDup_nil_2|constructor]].
    intros r Hr. by apply elem_of_nil in Hr.
  - intros k [refs hc] _ (Hu & Hnew & Hnd & Hrows).
    destruct (alloc hc (Numbers (replicate rows 0%Z))) as [r h2] eqn:Halloc.
    apply alloc_spec in Halloc as [Hr ->].
    eexists. split; [done|]. split; [|split; [|split]].
    + eapply unchanged_trans; [exact Hu|]. by apply unchanged_insert.
    + intros r' Hr'. apply elem_of_app in Hr' as [Hr'|Hr']; [by apply Hnew|].
      apply list_elem_of_singleton in Hr' as ->. by eapply unchanged_None.
    + apply NoDup_app. split; [done|]. split; [|apply NoDup_singleton].
      intros r' Hr' Heq. apply list_elem_of_singleton in Heq as ->.
      apply list_elem_of_lookup in Hr' as [i Hi].
      destruct (Forall2_lookup_l _ _ _ _ _ Hrows Hi) as (row & _ & Hrow).
      congruence.
    + replace (Datatypes.S k) with (k + 1) by lia. rewrite replicate_add.
      apply Forall2_app.
      * eapply Forall2_impl; [exact Hrows|]. intros r' row Hr'. simpl.
        rewrite lookup_insert_ne; [done|]. intros ->. congruence.
      * constructor; [|constructor]. apply lookup_insert_eq.
  - by exists refs, h1.
Qed.

(** One assignment [rotated[j][k] = pattern[i][j]]. *)
Lemma rotate_assign h pattern P rotated refs hc m i j k m' :
  represents h pattern P →
  (∀ r, r ∈ refs → h !! r = None) → NoDup refs →
  unchanged h hc → hc !! rotated = Some (Rows refs) →
  Forall2 (λ r row, hc !! r = Some (Numbers row)) refs m →
  (v ← cellAt P i j; store m j k v) = Some m' →
  ∃ hc',
    (source ← readRow hc pattern i; v ← readCell hc source j;
     target ← readRow hc rotated j; writeCell hc target k v) = Some hc' ∧
    unchanged h hc' ∧ hc' !! rotated = Some (Rows refs) ∧
    Forall2 (λ r row, hc' !! r = Some (Numbers row)) refs m'.
Proof.
  intros HP Hnew Hnd Hu Hrefs Hrows Hpure.
  destruct (cellAt P i j) as [v|] eqn:Hv; [|done]. simpl in Hpure.
  unfold store in Hpure. destruct (m !! j) as [row|] eqn:Hrow; [|done].
  simpl in Hpure. destruct (decide (k < length row)) as [Hk|]; [|done].
  injection Hpure as <-.
  destruct (represents_cell hc pattern P i j v) as (source & -> & Hcell);
    [by eapply represents_unchanged|done|].
  simpl. rewrite Hcell. simpl.
  destruct (Forall2_lookup_r _ _ _ _ _ Hrows Hrow) as (target & Htarget & Ht).
  unfold readRow. rewrite Hrefs, Htarget. simpl.
  unfold writeCell. rewrite Ht, decide_True by done.
  assert (target ≠ rotated) as Hne by (intros ->; congruence).
  eexists. split; [done|]. split; [|split].
  - intros l a Hl. rewrite lookup_insert_ne; [by apply Hu|]. intros <-.
    rewrite Hnew in Hl; [done|]. by eapply list_elem_of_lookup_2.
  - by rewrite lookup_insert_ne.
  - apply Forall2_same_length_lookup. split.
    + rewrite length_insert. by eapply Forall2_length.
    + intros j' r' row' Hr' Hrow'. destruct (decide (j' = j)) as [->|Hj].
      * rewrite list_lookup_insert_eq in Hrow' by (by eapply lookup_lt_Some).
        injection Hrow' as <-. rewrite Htarget in Hr'. injection Hr' as <-.
        apply lookup_insert_eq.
      * rewrite list_lookup_insert_ne in Hrow' by done.
        pose proof (Forall2_lookup_lr _ _ _ _ _ _ Hrows Hr' Hrow') as Hold.
        simpl in Hold. rewrite lookup_insert_ne; [done|]. intros <-.
        by apply Hj, (NoDup_lookup _ _ _ _ Hnd Hr' Htarget).
Qed.

(** The reference-level [rotatePattern] computes what the value-level one
    computes, in new objects, and leaves every object of the heap as it
    was. *)
Lemma rotatePattern_heap R C P Q h pattern :
  rect R C P → PatternEngine.rotatePattern P = Some Q →
  represents h pattern P →
  ∃ rotated h',
    Heap.rotatePattern pattern h = Some (rotated, h') ∧
    h !! rotated = None ∧ represents h' rotated Q ∧ unchanged h h'.
Proof.
  intros HP HQ Hrep. unfold PatternEngine.rotatePattern in HQ.
  destruct (P !! 0) as [row0|] eqn:Hrow0; [|done]. simpl in HQ.
  pose proof (rect_row _ _ _ _ _ HP Hrow0) as Hcols.
  unfold Heap.rotatePattern.
  pose proof Hrep as (prefs & Hpat & Hprows).
  destruct (Forall2_lookup_r _ _ _ _ _ Hprows Hrow0) as (r0 & Hr0 & Hr0row).
  rewrite (lengthOf_Rows _ _ _ Hpat). cbn [mbind option_bind].
  rewrite (readRow_Rows _ _ _ _ Hpat), Hr0. cbn [mbind option_bind].
  rewrite (lengthOf_Numbers _ _ _ Hr0row). cbn [mbind option_bind].
  rewrite (Forall2_length _ _ _ Hprows).
  destruct (alloc_zero_rows h (length P) (length row0))
    as (refs & h1 & -> & Hu1 & Hnew & Hnd & Hzero).
  cbn [mbind option_bind].
  destruct (alloc h1 (Rows refs)) as [rotated h2] eqn:Halloc.
  apply alloc_spec in Halloc as [Hrot ->].
  assert (unchanged h (<[rotated := Rows refs]> h1)) as Hu2.
  { eapply unchanged_trans; [exact Hu1|]. by apply unchanged_insert. }
  set (Rel := λ (m : Pattern) (hc : heap),
         unchanged h hc ∧ hc !! rotated = Some (Rows refs) ∧
         Forall2 (λ r row, hc !! r = Some (Numbers row)) refs m).
  eapply (for_upto_sim Rel _ _
    (λ i h, for_upto (length row0) (λ j h,
        source ← readRow h pattern i; v ← readCell h source j;
        target ← readRow h rotated j;
        writeCell h target (length P - 1 - i) v) h)
    _ (<[rotated := Rows refs]> h1)) in HQ as (h' & -> & Hu & Hrefs & Hrows).
  - cbn [mbind option_bind]. exists rotated, h'. split; [done|].
    split; [exact (unchanged_None _ _ _ Hu1 Hrot)|]. split; [by exists refs|done].
  - split; [done|]. split; [apply lookup_insert_eq|].
    eapply Forall2_impl; [exact Hzero|]. intros r row Hr. simpl.
    rewrite lookup_insert_ne; [done|]. intros <-. congruence.
  - intros i m hc m' _ Hrel Hinner.
    eapply (for_upto_sim Rel _ _ _ _ _ _ Hrel); [|exact Hinner].
    intros j m1 hc1 m1' _ (Hu' & Hrefs' & Hrows') Hstep.
    by eapply (rotate_assign h pattern P rotated refs).
Qed.

End heap_rotation.

Section heap_trimming.
Import Heap.
Implicit Types (h : heap) (l r : loc) (P T t : Pattern).

(** One round of [trimmed.push(pat[i].slice(minCol, maxCol + 1))]. *)
Lemma trim_push h pat P trimmed hc t idx c0 c1 t' :
  represents h pat P → h !! trimmed = None →
  unchanged h hc →
  (∃ trefs, hc !! trimmed = Some (Rows trefs) ∧
            Forall2 (λ r row, hc !! r = Some (Numbers row)) trefs t) →
  (row ← P !! idx; Some (t ++ [slice c0 c1 row])) = Some t' →
  ∃ hc',
    (source ← readRow hc pat idx;
     cells ← (match hc !! source with
              | Some (Numbers cells) => Some cells | _ => None end);
     let '(r, h) := alloc hc (Numbers (slice c0 c1 cells)) in
     push h trimmed r) = Some hc' ∧
    unchanged h hc' ∧
    ∃ trefs, hc' !! trimmed = Some (Rows trefs) ∧
             Forall2 (λ r row, hc' !! r = Some (Numbers row)) trefs t'.
Proof.
  intros HP Htrim Hu (trefs & Htrefs & Hrows) Hpure.
  destruct (P !! idx) as [row|] eqn:Hrow; [|done]. injection Hpure as <-.
  destruct (represents_unchanged _ _ _ _ HP Hu) as (prefs & Hpat & Hprows).
  destruct (Forall2_lookup_r _ _ _ _ _ Hprows Hrow) as (source & Hsource & Hs).
  rewrite (readRow_Rows _ _ _ _ Hpat), Hsource. cbn [mbind option_bind].
  rewrite Hs. cbn [mbind option_bind].
  destruct (alloc hc (Numbers (slice c0 c1 row))) as [r h1] eqn:Halloc.
  apply alloc_spec in Halloc as [Hr ->].
  assert (r ≠ trimmed) as Hne by (intros ->; congruence).
  unfold push. rewrite lookup_insert_ne, Htrefs by done.
  eexists. split; [done|]. split.
  - intros l a Hl. rewrite !lookup_insert_ne; [by apply Hu| |].
    + intros <-. apply Hu in Hl. congruence.
    + intros <-. congruence.
  - exists (trefs ++ [r]). split; [apply lookup_insert_eq|].
    apply Forall2_app.
    + eapply Forall2_impl; [exact Hrows|]. intros r' row' Hr'. simpl.
      rewrite !lookup_insert_ne; [done| |]; intros <-; congruence.
    + constructor; [|constructor].
      rewrite lookup_insert_ne by done. apply lookup_insert_eq.
Qed.

(** The reference-level [trimPattern] computes what the value-level one
    computes, in new objects, and leaves every object of the heap as it
    was. *)
Lemma trimPattern_heap P T h pat :
  PatternEngine.trimPattern P = Some T →
  represents h pat P →
  ∃ trimmed h',
    Heap.trimPattern pat h = Some (trimmed, h') ∧
    h !! trimmed = None ∧ represents h' trimmed T ∧ unchanged h h'.
Proof.
  intros HT Hrep. unfold PatternEngine.trimPattern in HT.
  unfold Heap.trimPattern. rewrite (load_represents _ _ _ Hrep).
  cbn [mbind option_bind].
  destruct (P !! 0) as [row0|] eqn:Hrow0; [|done].
  cbn [mbind option_bind] in HT |- *.
  set (b := foldl grow _ (entries P)) in *.
  destruct (minRow b >? maxRow b)%Z.
  - injection HT as <-.
    destruct (alloc h (Numbers [1%Z])) as [r h1] eqn:Hr.
    apply alloc_spec in Hr as [Hr ->].
    destruct (alloc (<[r := Numbers [1%Z]]> h) (Rows [r])) as [t h2] eqn:Ht.
    apply alloc_spec in Ht as [Ht ->].
    assert (t ≠ r) as Hne by (intros ->; by rewrite lookup_insert_eq in Ht).
    exists t, (<[t := Rows [r]]> (<[r := Numbers [1%Z]]> h)).
    split; [done|]. split; [|split].
    + by rewrite lookup_insert_ne in Ht.
    + exists [r]. split; [apply lookup_insert_eq|].
      constructor; [|constructor].
      rewrite lookup_insert_ne by done. apply lookup_insert_eq.
    + eapply unchanged_trans; by apply unchanged_insert.
  - destruct (alloc h (Rows [])) as [trimmed h1] eqn:Ht.
    apply alloc_spec in Ht as [Ht ->].
    set (Rel := λ (t : Pattern) (hc : heap),
           unchanged h hc ∧
           ∃ trefs, hc !! trimmed = Some (Rows trefs) ∧
                    Forall2 (λ r row, hc !! r = Some (Numbers row)) trefs t).
    eapply (for_upto_sim Rel _ _
      (λ k h,
         source ← readRow h pat (Z.to_nat (minRow b) + k);
         cells ← (match h !! source with
                  | Some (Numbers cells) => Some cells | _ => None end);
         let '(r, h) := alloc h (Numbers (slice (minCol b) (maxCol b + 1) cells)) in
         push h trimmed r)
      _ (<[trimmed := Rows []]> h)) in HT as (h' & -> & Hu & Hrows).
    + cbn [mbind option_bind]. by exists trimmed, h'.
    + split; [by apply unchanged_insert|]. exists [].
      split; [apply lookup_insert_eq|constructor].
    + intros k t hc t' _ [Hu Hrows] Hstep.
      by eapply (trim_push h pat P trimmed).
Qed.

End heap_trimming.

(** ** The laws of the pattern engine *)

Section pattern_claims.

Example rotatePattern_L : rotatePattern shapeL = Some [[1; 1; 1]; [1; 0; 0]]%Z.
Proof. reflexivity. Qed.

Example trimPattern_inner :
  trimPattern [[0; 0; 0]; [0; 1; 1]; [0; 0; 1]; [0; 0; 0]]%Z
  = Some [[1; 1]; [0; 1]]%Z.
Proof. reflexivity. Qed.

(** C5.  For an [R]-by-[C] pattern [P], [rotatePattern] returns a
    [C]-by-[R] matrix [Q] with [Q[j][R-1-i] = P[i][j]].  Run on references,
    it builds [Q] in objects that were not in the heap and leaves every
    object that was there as it was, the input among them. *)
Theorem rotatePattern_law R C P :
  rect R C P → 0 < R →
  ∃ Q, rotatePattern P = Some Q ∧ rect C R Q ∧
    (∀ i j, i < R → j < C → cellAt Q j (R - 1 - i) = cellAt P i j) ∧
    ∀ h pattern, Heap.represents h pattern P →
      ∃ rotated h',
        Heap.rotatePattern pattern h = Some (rotated, h') ∧
        h !! rotated = None ∧ Heap.represents h' rotated Q ∧
        Heap.unchanged h h' ∧ Heap.represents h' pattern P.
Proof.
  intros HP HR. destruct (rotatePattern_rect R C P HP HR) as (Q & HQ & Hrect & Hlaw).
  exists Q. split; [done|]. split; [done|]. split; [done|].
  intros h pattern Hrep.
  destruct (rotatePattern_heap R C P Q h pattern HP HQ Hrep)
    as (rotated & h' & Hrun & Hnew & HrepQ & Hu).
  exists rotated, h'. split; [done|]. split; [done|]. split; [done|].
  split; [done|]. by eapply represents_unchanged.
Qed.

Lemma rotatePattern_law_example :
  rect 3 2 shapeL ∧
  ∃ Q, rotatePattern shapeL = Some Q ∧ rect 2 3 Q ∧
    (∀ i j, i < 3 → j < 2 → cellAt Q j (3 - 1 - i) = cellAt shapeL i j) ∧
    ∀ h pattern, Heap.represents h pattern shapeL →
      ∃ rotated h',
        Heap.rotatePattern pattern h = Some (rotated, h') ∧
        h !! rotated = None ∧ Heap.represents h' rotated Q ∧
        Heap.unchanged h h' ∧ Heap.represents h' pattern shapeL.
Proof.
  assert (rect 3 2 shapeL) as Hrect.
  { split; [reflexivity|]. repeat constructor. }
  split; [exact Hrect|]. apply (rotatePattern_law 3 2 shapeL Hrect). lia.
Defined.

(** C6.  Four rotations of a rectangular pattern with at least one row and
    one column give the pattern back. *)
Theorem rotatePattern_cycle R C P :
  rect R C P → 0 < R → 0 < C →
  (Q1 ← rotatePattern P; Q2 ← rotatePattern Q1; Q3 ← rotatePattern Q2;
   rotatePattern Q3) = Some P.
Proof.
  intros HP HR HC.
  destruct (rotatePattern_cells R C P HP HR) as (Q1 & -> & H1 & L1). simpl.
  destruct (rotatePattern_cells C R Q1 H1 HC) as (Q2 & -> & H2 & L2). simpl.
  destruct (rotatePattern_cells R C Q2 H2 HR) as (Q3 & -> & H3 & L3). simpl.
  destruct (rotatePattern_cells C R Q3 H3 HC) as (Q4 & -> & H4 & L4).
  f_equal. apply (rect_ext R C); [done..|].
  intros i j Hi Hj.
  rewrite L4, L3, L2, L1 by lia. f_equal; lia.
Qed.

Lemma rotatePattern_cycle_example :
  rect 3 2 shapeL ∧
  (Q1 ← rotatePattern shapeL; Q2 ← rotatePattern Q1; Q3 ← rotatePattern Q2;
   rotatePattern Q3) = Some shapeL.
Proof.
  assert (rect 3 2 shapeL) as Hrect.
  { split; [reflexivity|]. repeat constructor. }
  split; [exact Hrect|]. apply (rotatePattern_cycle 3 2 shapeL Hrect); lia.
Defined.

(** C7.  For a rectangular pattern [P] with at least one row,
    [trimPattern] returns [[[1]]] when no cell of [P] is set, and otherwise
    the part of [P] inside the smallest box that holds all set cells: the
    first and last row and the first and last column of the result each
    hold a set cell.  Trimming the result changes nothing.  Run on
    references, it builds the result in objects that were not in the heap
    and leaves every object that was there as it was. *)
Theorem trimPattern_correct R C P :
  rect R C P → 0 < R →
  ∃ T, trimPattern P = Some T ∧
    ((∀ i j, ¬ is_set P i j) → T = [[1%Z]]) ∧
    ((∃ i j, is_set P i j) →
     ∃ r0 r1 c0 c1,
       r0 ≤ r1 < R ∧ c0 ≤ c1 < C ∧
       rect (r1 - r0 + 1) (c1 - c0 + 1) T ∧
       (∀ i j, i ≤ r1 - r0 → j ≤ c1 - c0 →
          cellAt T i j = cellAt P (r0 + i) (c0 + j)) ∧
       (∀ i j, is_set P i j → r0 ≤ i ≤ r1 ∧ c0 ≤ j ≤ c1) ∧
       (∃ j, j ≤ c1 - c0 ∧ is_set T 0 j) ∧
       (∃ j, j ≤ c1 - c0 ∧ is_set T (r1 - r0) j) ∧
       (∃ i, i ≤ r1 - r0 ∧ is_set T i 0) ∧
       (∃ i, i ≤ r1 - r0 ∧ is_set T i (c1 - c0))) ∧
    trimPattern T = Some T ∧
    ∀ h pat, Heap.represents h pat P →
      ∃ trimmed h',
        Heap.trimPattern pat h = Some (trimmed, h') ∧
        h !! trimmed = None ∧ Heap.represents h' trimmed T ∧
        Heap.unchanged h h' ∧ Heap.represents h' pat P.
Proof.
  intros HP HR. destruct (trimPattern_total R C P HP HR) as [T HT].
  exists T. split; [done|]. split; [|split; [|split]].
  - intros Hnone. rewrite (trimPattern_empty R C P HP HR Hnone) in HT.
    by injection HT as <-.
  - intros Hsome.
    destruct (trimPattern_box R C P HP HR Hsome)
      as (r0 & r1 & c0 & c1 & T0 & HT0 & Hr & Hc & HrT & Hcells & Hbox
          & Sa & Sb & Sc & Sd).
    rewrite HT in HT0. injection HT0 as <-.
    exists r0, r1, c0, c1. split; [done|]. split; [done|]. split; [done|].
    split; [done|]. split; [done|].
    apply (trimPattern_borders P T r0 r1 c0 c1); [lia|lia|done..].
  - by apply (trimPattern_idem R C P).
  - intros h pat Hrep.
    destruct (trimPattern_heap P T h pat HT Hrep)
      as (trimmed & h' & Hrun & Hnew & HrepT & Hu).
    exists trimmed, h'. split; [done|]. split; [done|]. split; [done|].
    split; [done|]. by eapply represents_unchanged.
Qed.

Lemma trimPattern_correct_example :
  let P := [[0; 0; 0]; [0; 1; 1]; [0; 0; 1]; [0; 0; 0]]%Z in
  rect 4 3 P ∧
  ∃ T, trimPattern P = Some T ∧ T = [[1; 1]; [0; 1]]%Z ∧
       trimPattern T = Some T ∧
       trimPattern [[0; 0]; [0; 0]]%Z = Some [[1%Z]].
Proof.
  intros P.
  assert (rect 4 3 P) as Hrect.
  { split; [reflexivity|]. repeat constructor. }
  split; [exact Hrect|].
  destruct (trimPattern_correct 4 3 P Hrect ltac:(lia))
    as (T & HT & _ & _ & Hidem & _).
  exists T. split; [exact HT|]. split; [|split; [exact Hidem|reflexivity]].
  change (trimPattern P) with (Some [[1; 1]; [0; 1]]%Z) in HT.
  by injection HT as <-.
Defined.

End pattern_claims.

(** ** Drop geometry *)

Section geometry.
Local Open Scope Z_scope.

Lemma clamp_steps b extent :
  (let b1 := if b <? 0 then 0 else b in
   if b1 >=? extent then extent - 1 else b1) = clamped 0 (extent - 1) b.
Proof.
  unfold clamped. simpl.
  destruct (Z.ltb_spec b 0); [destruct (Z.geb_spec 0 extent)
                             |destruct (Z.geb_spec b extent)]; lia.
Qed.

Lemma dropOrigin_spec props rect pattern row0 pointerOffset clientOffset :
  let S := cellSize props in
  let G := gapSize props in
  let P := containerPadding props in
  let grab := default {| x := 0; y := 0 |} pointerOffset in
  dropOrigin props rect pattern row0 pointerOffset clientOffset =
    (spec_originCell S G P (y clientOffset) (rect_top rect)
       (spec_blockIndex S G (y grab) (Z.of_nat (length pattern))),
     spec_originCell S G P (x clientOffset) (rect_left rect)
       (spec_blockIndex S G (x grab) (Z.of_nat (length row0)))).
Proof.
  unfold dropOrigin, spec_originCell, spec_blockIndex, Math_floor. simpl.
  f_equal; f_equal; apply clamp_steps.
Qed.

Lemma hoverOrigin_dropOrigin props rect pattern row0 pointerOffset clientOffset :
  hoverOrigin props rect pattern row0 pointerOffset clientOffset =
  dropOrigin props rect pattern row0 pointerOffset clientOffset.
Proof. reflexivity. Qed.

End geometry.

(** ** The placement validator *)

Section validator.
Local Open Scope Z_scope.
Implicit Types (props : GridProps) (pattern : Pattern).

Lemma forallb_false_iff {A : Type} (f : A → bool) (l : list A) :
  forallb f l = false ↔ ∃ a, a ∈ l ∧ f a = false.
Proof.
  induction l as [|a l IH]; simpl.
  - split; [done|]. intros (a & Ha & _). by apply elem_of_nil in Ha.
  - rewrite andb_false_iff, IH. split.
    + intros [Ha|(b & Hb & Hf)].
      * exists a. split; [apply elem_of_cons; by left|done].
      * exists b. split; [apply elem_of_cons; by right|done].
    + intros (b & Hb & Hf). apply elem_of_cons in Hb as [->|Hb]; [by left|].
      right. by exists b.
Qed.

Lemma forallb_true_iff {A : Type} (f : A → bool) (l : list A) :
  forallb f l = true ↔ ∀ a, a ∈ l → f a = true.
Proof.
  rewrite forallb_forall. by setoid_rewrite list_elem_of_In.
Qed.

Lemma cell_check props row col i j :
  negb ((row + Z.of_nat i >=? rows props) || (col + Z.of_nat j >=? cols props)
        || (row + Z.of_nat i <? 0) || (col + Z.of_nat j <? 0)) = true
  ↔ inside props (row + Z.of_nat i) (col + Z.of_nat j).
Proof.
  unfold inside.
  destruct (Z.geb_spec (row + Z.of_nat i) (rows props));
    destruct (Z.geb_spec (col + Z.of_nat j) (cols props));
    destruct (Z.ltb_spec (row + Z.of_nat i) 0);
    destruct (Z.ltb_spec (col + Z.of_nat j) 0); simpl; split; try done; lia.
Qed.

Lemma fits_true props pattern row col :
  fits props pattern row col = true ↔
  ∀ i j, is_set pattern i j → inside props (row + Z.of_nat i) (col + Z.of_nat j).
Proof.
  unfold fits. rewrite forallb_true_iff. split.
  - intros H i j (v & Hv & Hs). apply elem_of_entries in Hv.
    specialize (H _ Hv). simpl in H. rewrite Hs in H. by apply cell_check.
  - intros H [[i j] v] He. apply elem_of_entries in He.
    destruct (truthy v) eqn:Hs; [|done]. apply cell_check, H. by exists v.
Qed.

Lemma fits_false props pattern row col :
  fits props pattern row col = false ↔
  ∃ i j, is_set pattern i j ∧
         ¬ inside props (row + Z.of_nat i) (col + Z.of_nat j).
Proof.
  unfold fits. rewrite forallb_false_iff. split.
  - intros ([[i j] v] & He & Hf). apply elem_of_entries in He.
    destruct (truthy v) eqn:Hs; [|done]. exists i, j. split; [by exists v|].
    rewrite <- cell_check. by rewrite Hf.
  - intros (i & j & (v & Hv & Hs) & Hout). exists (i, j, v).
    split; [by apply elem_of_entries|]. rewrite Hs.
    rewrite <- cell_check in Hout. by destruct (negb _).
Qed.

(** [handleDrop] outside edition mode, on a pattern with a first row and
    with both the pointer and the container at hand. *)
Lemma handleDrop_placement props rect seenPieces fresh item pt prev row0 rest :
  editionMode props = false →
  item_pattern item = Some (row0 :: rest) →
  handleDrop props (Some rect) seenPieces fresh item (Some pt) prev =
    let o := dropOrigin props rect (row0 :: rest) row0 (item_pointerOffset item) pt in
    if fits props (row0 :: rest) o.1 o.2 then
      PiecePlaced
        {| pieces :=
             filter (λ p, truthyId (item_pieceId item) ≠ Some (id p)) (pieces prev)
             ++ [newPieceOf seenPieces fresh item (row0 :: rest) o.1 o.2];
           walls := walls prev;
           markedCells := markedCells prev;
           cellMinis := cellMinis prev |}
    else Ignored.
Proof.
  intros Hmode Hpat. unfold handleDrop. rewrite Hpat, Hmode.
  destruct (dropOrigin _ _ _ _ _ _) as [row col]. reflexivity.
Qed.

End validator.

Section drop_theorems.
Local Open Scope Z_scope.

(** C1.  In placement mode the block index of the grab is
    [floor(grabOffset / (S+G))] clamped to [[0, extent - 1]] on each axis, the
    origin cell is [round((pointer - containerOrigin - P) / (S+G))] minus
    that block index, and a drop that is accepted puts the piece at exactly
    that origin. *)
Theorem handleDrop_free_placement props rect seenPieces fresh item pt prev row0 rest :
  pitch_ok props →
  editionMode props = false →
  item_pattern item = Some (row0 :: rest) →
  let S := cellSize props in
  let G := gapSize props in
  let P := containerPadding props in
  let grab := default {| x := 0; y := 0 |} (item_pointerOffset item) in
  let blockIndexX := spec_blockIndex S G (x grab) (Z.of_nat (length row0)) in
  let blockIndexY := spec_blockIndex S G (y grab) (Z.of_nat (length (row0 :: rest))) in
  let originRow := spec_originCell S G P (y pt) (rect_top rect) blockIndexY in
  let originCol := spec_originCell S G P (x pt) (rect_left rect) blockIndexX in
  dropOrigin props rect (row0 :: rest) row0 (item_pointerOffset item) pt
    = (originRow, originCol) ∧
  (fits props (row0 :: rest) originRow originCol = true →
   ∃ older placed,
     handleDrop props (Some rect) seenPieces fresh item (Some pt) prev
       = PiecePlaced {| pieces := older ++ [placed]; walls := walls prev;
                        markedCells := markedCells prev;
                        cellMinis := cellMinis prev |} ∧
     row placed = originRow ∧ col placed = originCol) ∧
  (fits props (row0 :: rest) originRow originCol = false →
   handleDrop props (Some rect) seenPieces fresh item (Some pt) prev = Ignored).
Proof.
  intros _ Hmode Hpat. cbv zeta.
  pose proof (dropOrigin_spec props rect (row0 :: rest) row0
                (item_pointerOffset item) pt) as Ho.
  cbv zeta in Ho. split; [exact Ho|].
  rewrite (handleDrop_placement _ _ _ _ _ _ _ _ _ Hmode Hpat). cbv zeta.
  rewrite Ho. cbn [fst snd]. split; intros ->; [|done].
  eexists _, _. split; [reflexivity|]. done.
Qed.

(** The grab-offset example of the spec: S=30, G=5, P=8, a vertical 2x1
    piece grabbed at (10,40), released at grid-relative (50,90). *)
Lemma handleDrop_free_placement_example :
  (cellSize props55 == 30)%Q ∧ (gapSize props55 == 5)%Q ∧
  (containerPadding props55 == 8)%Q ∧
  ∃ older placed,
    handleDrop props55 (Some rect0) [] "piece-0"
      (paletteItem "I2" "#F5BE02" [[1]; [1]] (Some {| x := 10; y := 40 |}))
      (Some (gridRelative 50 90)) initialState
    = PiecePlaced {| pieces := older ++ [placed]; walls := ∅;
                     markedCells := ∅; cellMinis := ∅ |} ∧
    row placed = 2 ∧ col placed = 1.
Proof.
  split; [reflexivity|]. split; [reflexivity|]. split; [reflexivity|].
  destruct (handleDrop_free_placement props55 rect0 [] "piece-0"
              (paletteItem "I2" "#F5BE02" [[1]; [1]] (Some {| x := 10; y := 40 |}))
              (gridRelative 50 90) initialState [1] [[1]])
    as (_ & Hplaced & _).
  - intros H. vm_compute in H. discriminate H.
  - reflexivity.
  - reflexivity.
  - destruct Hplaced as (older & placed & Hdrop & Hrow & Hcol); [reflexivity|].
    exists older, placed. split; [exact Hdrop|]. split; [exact Hrow|exact Hcol].
Defined.

End drop_theorems.

Section rejection.
Local Open Scope Z_scope.

Lemma handleDrop_Ignored_iff props rect seenPieces fresh item pt prev :
  editionMode props = false →
  handleDrop props (Some rect) seenPieces fresh item (Some pt) prev = Ignored
  ↔ badDrop props rect item pt.
Proof.
  intros Hmode. unfold badDrop.
  destruct (item_pattern item) as [[|row0 rest]|] eqn:Hpat.
  - unfold handleDrop. rewrite Hpat. split; [auto|done].
  - rewrite (handleDrop_placement _ _ _ _ _ _ _ _ _ Hmode Hpat). cbv zeta.
    destruct (fits _ _ _ _) eqn:Hfits.
    + split; [done|]. intros [?|[?|(r0 & rs & i & j & [= <- <-] & Hs & Hout)]];
        [done..|].
      exfalso. apply Hout. by apply (proj1 (fits_true _ _ _ _) Hfits).
    + split; [|done]. intros _. right. right.
      apply fits_false in Hfits as (i & j & Hs & Hout).
      by exists row0, rest, i, j.
  - unfold handleDrop. rewrite Hpat. split; [auto|done].
Qed.

Lemma handleDrop_not_Ignored props rect seenPieces fresh item pt prev :
  editionMode props = false →
  handleDrop props (Some rect) seenPieces fresh item (Some pt) prev ≠ Ignored →
  ∃ placed,
    handleDrop props (Some rect) seenPieces fresh item (Some pt) prev
    = PiecePlaced
        {| pieces :=
             filter (λ p, truthyId (item_pieceId item) ≠ Some (id p)) (pieces prev)
             ++ [placed];
           walls := walls prev;
           markedCells := markedCells prev;
           cellMinis := cellMinis prev |}.
Proof.
  intros Hmode Hr.
  destruct (item_pattern item) as [[|row0 rest]|] eqn:Hpat.
  - exfalso. apply Hr. unfold handleDrop. by rewrite Hpat.
  - revert Hr. rewrite (handleDrop_placement _ _ _ _ _ _ _ _ _ Hmode Hpat).
    cbv zeta. destruct (fits _ _ _ _); [|done]. intros _. by eexists.
  - exfalso. apply Hr. unfold handleDrop. by rewrite Hpat.
Qed.

(** C3.  In placement mode, with a pointer position and the
    container at hand, [handleDrop] returns before any state update exactly
    when the pattern is missing or empty or some set cell of the pattern
    falls outside the grid; which pieces are already placed plays no role.
    A drop that is not rejected appends the piece after removing the one
    with the dragged identity, and leaves walls, markers and minis alone. *)
Theorem handleDrop_rejected_iff props rect seenPieces fresh item pt prev :
  pitch_ok props →
  editionMode props = false →
  let r := handleDrop props (Some rect) seenPieces fresh item (Some pt) prev in
  (r = Ignored ↔ badDrop props rect item pt) ∧
  (r = Ignored → commit prev r = prev) ∧
  (∀ seenPieces' fresh' prev',
     handleDrop props (Some rect) seenPieces' fresh' item (Some pt) prev' = Ignored
     ↔ r = Ignored) ∧
  (r ≠ Ignored →
   ∃ placed,
     r = PiecePlaced
           {| pieces :=
                filter (λ p, truthyId (item_pieceId item) ≠ Some (id p)) (pieces prev)
                ++ [placed];
              walls := walls prev;
              markedCells := markedCells prev;
              cellMinis := cellMinis prev |}).
Proof.
  intros _ Hmode r. subst r.
  split; [by apply handleDrop_Ignored_iff|]. split; [by intros ->|].
  split; [intros; by rewrite !handleDrop_Ignored_iff|].
  by apply handleDrop_not_Ignored.
Qed.

(** The bounds example of the spec: a horizontal 1x2 pattern on the 5x5
    grid is rejected at origin (0,4) and accepted at origin (0,3), also
    when a piece already lies there. *)
Lemma handleDrop_rejected_iff_example :
  let item := paletteItem "I2" "#F5BE02" [[1; 1]] None in
  let below :=
    {| pieces := [ {| id := "piece-0"; type := "O"; pattern := [[1; 1]; [1; 1]];
                      originalPattern := [[1; 1]; [1; 1]]; color := "#0000ff";
                      row := 0; col := 3; rotation := 0 |} ];
       walls := ∅; markedCells := ∅; cellMinis := ∅ |} in
  dropOrigin props55 rect0 [[1; 1]] [1; 1] None (overCell 0 4) = (0, 4) ∧
  handleDrop props55 (Some rect0) [] "piece-1" item (Some (overCell 0 4)) below
    = Ignored ∧
  dropOrigin props55 rect0 [[1; 1]] [1; 1] None (overCell 0 3) = (0, 3) ∧
  ∃ placed,
    handleDrop props55 (Some rect0) [] "piece-1" item (Some (overCell 0 3)) below
      = PiecePlaced {| pieces := pieces below ++ [placed]; walls := ∅;
                       markedCells := ∅; cellMinis := ∅ |} ∧
    row placed = 0 ∧ col placed = 3.
Proof.
  intros item below.
  split; [reflexivity|]. split.
  - destruct (handleDrop_rejected_iff props55 rect0 [] "piece-1" item
                (overCell 0 4) below) as [Hiff _].
    + intros H. vm_compute in H. discriminate H.
    + reflexivity.
    + apply Hiff. right. right. exists [1; 1], [], 0%nat, 1%nat.
      split; [reflexivity|]. split; [by exists 1|].
      vm_compute. intros [_ [_ H]]. discriminate H.
  - split; [reflexivity|]. eexists. split; [reflexivity|]. split; reflexivity.
Defined.

End rejection.

Section sessions.
Local Open Scope Z_scope.

(** C2, amended.  A drag session of a placed piece never runs both terminal
    operations.  Released away from the grid it runs [remove] alone.
    Released over the grid it runs [place] alone when [handleDrop] accepts
    the drop; when [handleDrop] returns early (in placement mode: a missing
    or empty pattern, or a set cell outside the grid), or drops a mini in
    edition mode, neither runs: the drop handler has answered
    [dropped: true], the [end] handler does nothing, and the piece stays
    where it was. *)
Theorem dragSession_terminals props containerRef seenPieces fresh piece
    dragStartOffset release prev :
  let item := overlayItem piece dragStartOffset in
  let out := dragSession props containerRef seenPieces fresh piece
               dragStartOffset release prev in
  (length out.1 ≤ 1)%nat ∧
  match release with
  | Elsewhere => out = ([Remove], removePiece (id piece) prev)
  | OverGrid clientOffset =>
    match handleDrop props containerRef seenPieces fresh item clientOffset prev with
    | PiecePlaced next => out = ([Place], next)
    | MiniDropped next => out = ([], next)
    | Ignored => out = ([], prev)
    end
  end ∧
  (∀ rect pt,
     editionMode props = false → containerRef = Some rect →
     release = OverGrid (Some pt) →
     (badDrop props rect item pt → out = ([], prev)) ∧
     (¬ badDrop props rect item pt → out.1 = [Place])).
Proof.
  unfold dragSession. split; [|split].
  - destruct release as [clientOffset|]; simpl; [|lia].
    destruct (handleDrop _ _ _ _ _ _ _); simpl; lia.
  - destruct release as [clientOffset|]; simpl; [|done].
    by destruct (handleDrop _ _ _ _ _ _ _).
  - intros rect pt Hmode -> ->. cbv beta iota zeta delta [negb fst].
    pose proof (handleDrop_Ignored_iff props rect seenPieces fresh
                  (overlayItem piece dragStartOffset) pt prev Hmode) as Hiff.
    split.
    + intros Hbad. apply Hiff in Hbad. by rewrite Hbad.
    + intros Hok.
      destruct (handleDrop_not_Ignored props rect seenPieces fresh
                  (overlayItem piece dragStartOffset) pt prev Hmode)
        as [placed ->]; [|done].
      intros Hr. by apply Hok, Hiff.
Qed.

(** A domino released over the grid where it does not fit, and released
    off the grid. *)
Lemma dragSession_terminals_example :
  let p := {| id := "piece-0"; type := "I2"; pattern := [[1; 1]];
              originalPattern := [[1; 1]]; color := "#F5BE02";
              row := 2; col := 2; rotation := 0 |} in
  let prev := {| pieces := [p]; walls := ∅; markedCells := ∅; cellMinis := ∅ |} in
  dragSession props55 (Some rect0) [p] "piece-1" p {| x := 10; y := 10 |}
    (OverGrid (Some (overCell 4 4))) prev = ([], prev) ∧
  dragSession props55 (Some rect0) [p] "piece-1" p {| x := 10; y := 10 |}
    Elsewhere prev
  = ([Remove], {| pieces := []; walls := ∅; markedCells := ∅; cellMinis := ∅ |}).
Proof.
  intros p prev. split.
  - destruct (dragSession_terminals props55 (Some rect0) [p] "piece-1" p
                {| x := 10; y := 10 |} (OverGrid (Some (overCell 4 4))) prev)
      as (_ & _ & H).
    destruct (H rect0 (overCell 4 4)) as [Hbad _]; [reflexivity..|].
    apply Hbad. right. right. exists [1; 1], [], 0%nat, 1%nat.
    split; [reflexivity|]. split; [by exists 1|].
    vm_compute. intros [_ [_ Hlt]]. discriminate Hlt.
  - reflexivity.
Defined.

(** C2 as worded fails: a placed domino released over the grid where it
    does not fit is neither placed nor removed. *)
Lemma dragSession_neither_fires :
  let p := {| id := "piece-0"; type := "I2"; pattern := [[1; 1]];
              originalPattern := [[1; 1]]; color := "#F5BE02";
              row := 0; col := 0; rotation := 0 |} in
  let prev := {| pieces := [p]; walls := ∅; markedCells := ∅; cellMinis := ∅ |} in
  dragSession props55 (Some rect0) [p] "piece-1" p {| x := 10; y := 10 |}
    (OverGrid (Some (overCell 0 4))) prev = ([], prev) ∧
  ¬ spec_one_terminal props55 (Some rect0) [p] "piece-1" p {| x := 10; y := 10 |}
      (OverGrid (Some (overCell 0 4))) prev.
Proof.
  intros p prev. split; [reflexivity|]. intros [H|H]; discriminate H.
Qed.

End sessions.

(** ** Piece identities *)

Section identities.
Local Open Scope Z_scope.
Implicit Types (l : list PlacedPiece) (c : Component).

(** What any call of [handleDrop] does to the piece collection. *)
Lemma handleDrop_pieces props containerRef seenPieces fresh item clientOffset prev :
  let r := handleDrop props containerRef seenPieces fresh item clientOffset prev in
  pieces (commit prev r) = pieces prev ∨
  ∃ pattern row col,
    pieces (commit prev r) =
      filter (λ p, truthyId (item_pieceId item) ≠ Some (id p)) (pieces prev)
      ++ [newPieceOf seenPieces fresh item pattern row col].
Proof.
  unfold handleDrop.
  destruct clientOffset as [pt|]; [|by left].
  destruct containerRef as [rect|]; [|by left].
  destruct (item_pattern item) as [[|row0 rest]|]; [by left| |by left].
  destruct (editionMode props).
  - left. by destruct (_ || _).
  - destruct (dropOrigin _ _ _ _ _ _) as [row col].
    destruct (fits _ _ _ _); [|by left]. right. by eexists _, _, _.
Qed.

Lemma handleDrop_other_collections props containerRef seenPieces fresh item
    clientOffset prev :
  editionMode props = false →
  let r := handleDrop props containerRef seenPieces fresh item clientOffset prev in
  walls (commit prev r) = walls prev ∧
  markedCells (commit prev r) = markedCells prev ∧
  cellMinis (commit prev r) = cellMinis prev.
Proof.
  intros Hmode. unfold handleDrop. rewrite Hmode.
  destruct clientOffset as [pt|]; [|done].
  destruct containerRef as [rect|]; [|done].
  destruct (item_pattern item) as [[|row0 rest]|]; [done| |done].
  destruct (dropOrigin _ _ _ _ _ _) as [row col].
  by destruct (fits _ _ _ _).
Qed.

Lemma filter_other_ids_NoDup (pieceId : option string) l :
  NoDup (id <$> l) →
  NoDup (id <$> filter (λ p, pieceId ≠ Some (id p)) l).
Proof.
  intros Hnd. eapply sublist_NoDup; [exact Hnd|].
  apply fmap_sublist, sublist_filter.
Qed.

Lemma place_ids_NoDup (pieceId : option string) fresh l placed :
  NoDup (id <$> l) →
  (truthyId pieceId = None → fresh ∉ id <$> l) →
  id placed = default fresh (truthyId pieceId) →
  NoDup (id <$> (filter (λ p, truthyId pieceId ≠ Some (id p)) l ++ [placed])).
Proof.
  intros Hnd Hfresh Hid. rewrite fmap_app. apply NoDup_app.
  split; [by apply filter_other_ids_NoDup|]. split; [|apply NoDup_singleton].
  intros s Hs. simpl. rewrite list_elem_of_singleton. intros ->.
  apply list_elem_of_fmap in Hs as (p & Hp & Hin).
  apply list_elem_of_filter in Hin as [Hne Hin].
  destruct (truthyId pieceId) as [pid|] eqn:Ht; simpl in Hid.
  - apply Hne. by rewrite <- Hp, Hid.
  - apply Hfresh; [done|]. rewrite <- Hid, Hp. by apply list_elem_of_fmap_2.
Qed.

Lemma rotatePiece_ids pid prev next :
  rotatePiece pid prev = Some next →
  id <$> pieces next = id <$> pieces prev.
Proof.
  unfold rotatePiece. intros H.
  destruct (mapM _ (pieces prev)) as [rotated|] eqn:Hm; [|done].
  injection H as <-. simpl. apply mapM_Some in Hm.
  induction Hm as [|p q l k Hpq _ IH]; [done|]. rewrite !fmap_cons, IH. f_equal.
  destruct (decide (id p = pid)); [|by injection Hpq as <-].
  destruct (rotatePattern (pattern p)); [|done]. by injection Hpq as <-.
Qed.

Lemma rotatePiece_other_collections pid prev next :
  rotatePiece pid prev = Some next →
  walls next = walls prev ∧ markedCells next = markedCells prev ∧
  cellMinis next = cellMinis prev.
Proof.
  unfold rotatePiece. intros H.
  destruct (mapM _ (pieces prev)); [|done]. by injection H as <-.
Qed.

(** Every identity occurs at most once, in every state the component
    reaches. *)
Lemma reachable_ids_NoDup props c :
  reachable props c → NoDup (id <$> pieces (state c)).
Proof.
  induction 1 as [|c e c' _ IH Hfresh Hstep]; [apply NoDup_nil_2|].
  destruct e as [|rect item clientOffset fresh|pid|pid|wallId|cellId|];
    simpl in Hstep.
  - by injection Hstep as <-.
  - injection Hstep as <-. simpl.
    destruct (handleDrop_pieces (Grid.props c) rect (dropPieces c) fresh item
                clientOffset (state c)) as [->|(pattern & row & col & ->)];
      [done|].
    by apply (place_ids_NoDup _ fresh).
  - destruct (editionMode _); [done|]. injection Hstep as <-. simpl.
    eapply sublist_NoDup; [exact IH|]. apply fmap_sublist, sublist_filter.
  - destruct (editionMode _); [done|].
    destruct (rotatePiece pid (state c)) as [next|] eqn:Hrot; [|done].
    injection Hstep as <-. simpl. by rewrite (rotatePiece_ids _ _ _ Hrot).
  - destruct (editionMode _); [|done]. by injection Hstep as <-.
  - destruct (editionMode _); [|done]. injection Hstep as <-. simpl.
    unfold toggleMarkedCell. by destruct (decide _).
  - injection Hstep as <-. apply NoDup_nil_2.
Qed.

(** Moving a piece: after an accepted drop of an item that carries the
    identity [pid], exactly one piece has that identity. *)
Lemma place_exactly_one (pieceId : option string) pid l placed :
  truthyId pieceId = Some pid → id placed = pid →
  filter (λ p, id p = pid)
         (filter (λ p, truthyId pieceId ≠ Some (id p)) l ++ [placed])
  = [placed].
Proof.
  intros Ht Hid. rewrite filter_app.
  rewrite (filter_cons_True _ placed) by done. rewrite filter_nil.
  replace (filter _ (filter _ l)) with (@nil PlacedPiece); [done|].
  symmetry. induction l as [|p l IH]; [done|].
  rewrite (filter_cons _ p). destruct (decide _) as [Hne|_]; [|done].
  rewrite filter_cons_False; [done|]. intros Heq. apply Hne. by rewrite Ht, Heq.
Qed.

(** When the closure of [handleDrop] sees a piece with the dragged
    identity, the piece it appends carries that piece's original pattern
    and rotation. *)
Lemma newPieceOf_seen seenPieces fresh item pattern row col pid e :
  item_pieceId item = Some pid →
  List.find (λ p, bool_decide (id p = pid)) seenPieces = Some e →
  originalPattern (newPieceOf seenPieces fresh item pattern row col)
    = originalPattern e ∧
  rotation (newPieceOf seenPieces fresh item pattern row col) = rotation e.
Proof. intros Hpid Hfind. unfold newPieceOf. rewrite Hpid. simpl. by rewrite Hfind. Qed.

(** When it sees none, the piece starts over: rotation 0 and the dragged
    pattern as the original one. *)
Lemma newPieceOf_unseen seenPieces fresh item pattern row col pid :
  item_pieceId item = Some pid →
  List.find (λ p, bool_decide (id p = pid)) seenPieces = None →
  originalPattern (newPieceOf seenPieces fresh item pattern row col) = pattern ∧
  rotation (newPieceOf seenPieces fresh item pattern row col) = 0.
Proof. intros Hpid Hfind. unfold newPieceOf. rewrite Hpid. simpl. by rewrite Hfind. Qed.

(** A move, seen from [handleDrop]: the identity of the dragged piece
    occurs exactly once afterwards, and the piece keeps the original
    pattern and the rotation of the piece that the closure sees under that
    identity. *)
Lemma handleDrop_move props rect seenPieces fresh item pt prev next pid :
  editionMode props = false →
  item_pieceId item = Some pid → pid ≠ "" →
  handleDrop props (Some rect) seenPieces fresh item (Some pt) prev
    = PiecePlaced next →
  ∃ placed,
    filter (λ p, id p = pid) (pieces next) = [placed] ∧
    ∀ e, List.find (λ p, bool_decide (id p = pid)) seenPieces = Some e →
         originalPattern placed = originalPattern e ∧
         rotation placed = rotation e.
Proof.
  intros Hmode Hpid Hne Hdrop.
  assert (truthyId (item_pieceId item) = Some pid) as Ht.
  { rewrite Hpid. simpl. by rewrite decide_False. }
  destruct (item_pattern item) as [[|row0 rest]|] eqn:Hpat;
    [by unfold handleDrop in Hdrop; rewrite Hpat in Hdrop| |
     by unfold handleDrop in Hdrop; rewrite Hpat in Hdrop].
  rewrite (handleDrop_placement _ _ _ _ _ _ _ _ _ Hmode Hpat) in Hdrop.
  cbv zeta in Hdrop. destruct (fits _ _ _ _); [|done].
  injection Hdrop as <-. eexists. split.
  - simpl. apply (place_exactly_one _ pid); [done|].
    unfold newPieceOf. simpl. by rewrite Ht.
  - intros e He. by apply (newPieceOf_seen _ _ _ _ _ _ pid).
Qed.

End identities.

Section stale_pieces.
Local Open Scope Z_scope.

Lemma pitch_ok_props55 : pitch_ok props55.
Proof. intros H. vm_compute in H. discriminate H. Qed.

Lemma reachable_run props c events c' :
  reachable props c → freshRun c events → run c events = Some c' →
  reachable props c'.
Proof.
  revert c. induction events as [|e events IH]; intros c Hc Hfresh Hrun.
  - by injection Hrun as <-.
  - simpl in Hrun, Hfresh. destruct Hfresh as [He Hrest].
    destruct (step c e) as [c1|] eqn:Hstep; [|done].
    apply (IH c1); [|done..]. by eapply reach_step.
Qed.

(** C4, at the input where the code departs from it.  A piece is dropped
    from the palette, rotated by a click, and then moved.  The [drop]
    handler still holds the [pieces] array of the mounting render, which is
    empty, so [pieces.find] does not see the piece: the piece that is put
    back has rotation 0 instead of 90, and the rotated pattern as its
    original pattern.  Its identity is kept and occurs once. *)
Theorem move_after_rotate_resets_piece :
  run (mount props55) [dropL; ClickPiece "piece-1"] = Some afterRotate ∧
  pieces (state afterRotate) = [rotatedL] ∧ dropPieces afterRotate = [] ∧
  step afterRotate moveL = Some afterMove ∧
  reachable props55 afterMove ∧
  pieces (state afterMove) = [movedL] ∧
  id movedL = id rotatedL ∧ pattern movedL = pattern rotatedL ∧
  row movedL = 1 ∧ col movedL = 1 ∧
  originalPattern rotatedL = shapeL ∧
  originalPattern movedL = [[1; 1; 1]; [1; 0; 0]] ∧
  rotation rotatedL = 90 ∧ rotation movedL = 0.
Proof.
  split; [vm_compute; reflexivity|]. split; [reflexivity|].
  split; [reflexivity|]. split; [vm_compute; reflexivity|]. split.
  - apply (reachable_run props55 (mount props55)
             [dropL; ClickPiece "piece-1"; moveL]).
    + apply reach_mount, pitch_ok_props55.
    + cbv [freshRun]. split; [simpl; intros _; apply not_elem_of_nil|].
      eval_step. split; [exact I|]. eval_step.
      split; [|exact I]. simpl. intros H. discriminate H.
    + vm_compute. reflexivity.
  - repeat split.
Qed.

(** The same move once the [drop] handler has been rebuilt (edition mode
    switched on and off again, which changes a listed dependency): now
    [pieces.find] sees the piece, and rotation and original pattern are
    kept. *)
Example move_after_rebuild_keeps_piece :
  run (mount props55)
      [dropL; ClickPiece "piece-1"; ToggleEditionMode; ToggleEditionMode; moveL]
  = Some {| props := props55;
            state := withPieces
              [ {| id := "piece-1"; type := "L"; pattern := pattern rotatedL;
                   originalPattern := shapeL; color := "#ff8800";
                   row := 1; col := 1; rotation := 90 |} ];
            dropPieces := [rotatedL] |}.
Proof. vm_compute. reflexivity. Qed.

End stale_pieces.

(** ** Markers and minis *)

Section markers.
Local Open Scope Z_scope.
Implicit Types (c : Component) (st prev next : GridState) (cell : string).

(** The edition-mode branch of [handleDrop], read backwards. *)
Lemma handleDrop_MiniDropped props containerRef seenPieces fresh item
    clientOffset prev next :
  handleDrop props containerRef seenPieces fresh item clientOffset prev
    = MiniDropped next →
  ∃ rect pt pattern,
    containerRef = Some rect ∧ clientOffset = Some pt ∧
    editionMode props = true ∧ item_pattern item = Some pattern ∧
    let rowCell := Math_round ((y pt - rect_top rect - containerPadding props)
                               / (cellSize props + gapSize props)) in
    let colCell := Math_round ((x pt - rect_left rect - containerPadding props)
                               / (cellSize props + gapSize props)) in
    inside props rowCell colCell ∧
    next = {| pieces := pieces prev;
              walls := walls prev;
              markedCells :=
                if decide (cellId rowCell colCell ∈ markedCells prev)
                then markedCells prev ∖ {[cellId rowCell colCell]}
                else markedCells prev;
              cellMinis :=
                <[cellId rowCell colCell :=
                    {| mini_pattern := pattern; mini_color := item_color item |}]>
                  (cellMinis prev) |}.
Proof.
  unfold handleDrop.
  destruct clientOffset as [pt|]; [|done].
  destruct containerRef as [rect|]; [|done].
  destruct (item_pattern item) as [[|row0 rest]|] eqn:Hpat; [done| |done].
  destruct (editionMode props) eqn:Hmode.
  2:{ destruct (dropOrigin _ _ _ _ _ _). by destruct (fits _ _ _ _). }
  destruct (_ || _) eqn:Hout; [done|]. intros [= <-].
  exists rect, pt, (row0 :: rest). repeat split; try done.
  all: apply orb_false_elim in Hout as [Hout H4];
       apply orb_false_elim in Hout as [Hout H3];
       apply orb_false_elim in Hout as [H1 H2]; lia.
Qed.

(** Markers after a mini was dropped on [target]. *)
Lemma markers_after_mini (marked : gset string) target cell :
  cell ∈ (if decide (target ∈ marked) then marked ∖ {[target]} else marked)
  ↔ cell ∈ marked ∧ cell ≠ target.
Proof.
  destruct (decide (target ∈ marked)) as [Hin|Hout].
  - by rewrite elem_of_difference, elem_of_singleton.
  - split; [|by intros [? _]]. intros Hcell. split; [done|]. by intros ->.
Qed.

(** No cell of a reachable state carries both a marker and a mini. *)
Lemma reachable_exclusive props c cell :
  reachable props c →
  cell ∈ markedCells (state c) → cellMinis (state c) !! cell = None.
Proof.
  intros Hreach. revert cell.
  induction Hreach as [|c e c' _ IH _ Hstep]; intros cell.
  { simpl. intros Hin. by apply not_elem_of_empty in Hin. }
  destruct e as [|rect item clientOffset fresh|pid|pid|wallId|target|];
    simpl in Hstep.
  - injection Hstep as <-. apply IH.
  - injection Hstep as <-. simpl.
    destruct (handleDrop (Grid.props c) rect (dropPieces c) fresh item
                clientOffset (state c)) as [|next|next] eqn:Hdrop; simpl.
    + apply IH.
    + apply handleDrop_MiniDropped in Hdrop
        as (r & pt & pattern & _ & _ & _ & _ & _ & ->). simpl.
      rewrite markers_after_mini. intros [Hin Hne].
      rewrite lookup_insert_ne by done. by apply IH.
    + revert Hdrop. unfold handleDrop.
      destruct clientOffset as [pt|]; [|done].
      destruct rect as [rect|]; [|done].
      destruct (item_pattern item) as [[|row0 rest]|]; [done| |done].
      destruct (editionMode _); [by destruct (_ || _)|].
      destruct (dropOrigin _ _ _ _ _ _). destruct (fits _ _ _ _); [|done].
      intros [= <-]. apply IH.
  - destruct (editionMode _); [done|]. injection Hstep as <-. apply IH.
  - destruct (editionMode _); [done|].
    destruct (rotatePiece pid (state c)) as [next|] eqn:Hrot; [|done].
    injection Hstep as <-. simpl.
    destruct (rotatePiece_other_collections _ _ _ Hrot) as (_ & -> & ->).
    apply IH.
  - destruct (editionMode _); [|done]. injection Hstep as <-. apply IH.
  - destruct (editionMode _); [|done]. injection Hstep as <-. simpl.
    unfold toggleMarkedCell.
    destruct (decide (is_Some (cellMinis (state c) !! target))) as [Hmini|Hnone];
      simpl.
    + intros Hin. destruct (decide (cell = target)) as [->|Hne].
      * apply lookup_delete_eq.
      * rewrite lookup_delete_ne by done. by apply IH.
    + apply eq_None_not_Some in Hnone.
      destruct (decide (target ∈ markedCells (state c))).
      * intros Hin. apply IH. by apply elem_of_difference in Hin as [Hin _].
      * intros Hin. apply elem_of_union in Hin as [Hin|Hin]; [by apply IH|].
        by apply elem_of_singleton in Hin as ->.
  - injection Hstep as <-. simpl. intros Hin. by apply not_elem_of_empty in Hin.
Qed.

End markers.

Section marker_theorem.
Local Open Scope Z_scope.

(** C9.  In every reachable state no cell carries both a marker and a mini.
    A click on a cell that holds a mini removes the mini and sets no marker,
    and a second click then sets the marker; a click on a cell without a
    mini flips the marker of that cell only; dropping a mini on a cell
    writes the mini there and clears the marker of that cell only. *)
Theorem marker_mini_exclusion props c cell :
  reachable props c →
  let st := state c in
  let clicked := toggleMarkedCell (cellMinis st) cell st in
  ¬ (cell ∈ markedCells st ∧ is_Some (cellMinis st !! cell)) ∧
  step c (ClickCell cell)
    = (if editionMode (Grid.props c) then Some (withState c clicked) else None) ∧
  (is_Some (cellMinis st !! cell) →
     cellMinis clicked = delete cell (cellMinis st) ∧
     markedCells clicked = markedCells st ∧
     (cell ∉ markedCells clicked) ∧
     let again := toggleMarkedCell (cellMinis clicked) cell clicked in
     cell ∈ markedCells again ∧ cellMinis again !! cell = None) ∧
  (cellMinis st !! cell = None →
     cellMinis clicked = cellMinis st ∧
     (cell ∈ markedCells clicked ↔ cell ∉ markedCells st) ∧
     (∀ other, other ≠ cell →
        (other ∈ markedCells clicked ↔ other ∈ markedCells st))) ∧
  (∀ rect fresh item clientOffset next,
     handleDrop (Grid.props c) rect (dropPieces c) fresh item clientOffset st
       = MiniDropped next →
     ∃ rowCell colCell pattern,
       inside (Grid.props c) rowCell colCell ∧
       item_pattern item = Some pattern ∧
       cellMinis next =
         <[cellId rowCell colCell :=
             {| mini_pattern := pattern; mini_color := item_color item |}]>
           (cellMinis st) ∧
       (cellId rowCell colCell ∉ markedCells next) ∧
       (∀ other, other ≠ cellId rowCell colCell →
          (other ∈ markedCells next ↔ other ∈ markedCells st)) ∧
       pieces next = pieces st ∧ walls next = walls st).
Proof.
  intros Hreach st clicked.
  assert (∀ k, k ∈ markedCells st → cellMinis st !! k = None) as Hinv
    by (intros k; by apply (reachable_exclusive props)).
  split; [|split; [|split; [|split]]].
  - intros [Hin [m Hm]]. rewrite (Hinv _ Hin) in Hm. discriminate Hm.
  - reflexivity.
  - intros Hmini.
    assert (clicked = {| pieces := pieces st; walls := walls st;
                         markedCells := markedCells st;
                         cellMinis := delete cell (cellMinis st) |}) as ->.
    { subst clicked. unfold toggleMarkedCell. by rewrite decide_True. }
    assert (cell ∉ markedCells st) as Hout.
    { intros Hin. rewrite (Hinv _ Hin) in Hmini. by destruct Hmini. }
    simpl. split; [done|]. split; [done|]. split; [done|].
    unfold toggleMarkedCell. simpl. rewrite lookup_delete_eq.
    rewrite decide_False by (by intros []). simpl.
    rewrite decide_False by done.
    split; [apply elem_of_union_r; by apply elem_of_singleton|].
    apply lookup_delete_eq.
  - intros Hnone. subst clicked. unfold toggleMarkedCell.
    rewrite decide_False by (rewrite Hnone; by intros []). simpl.
    split; [done|]. destruct (decide (cell ∈ markedCells st)) as [Hin|Hout].
    + split.
      * rewrite elem_of_difference, elem_of_singleton. split; [by intros [_ ?]|done].
      * intros other Hne. rewrite elem_of_difference, elem_of_singleton.
        split; [by intros [? _]|done].
    + split.
      * split; [done|]. intros _. apply elem_of_union_r. by apply elem_of_singleton.
      * intros other Hne. rewrite elem_of_union, elem_of_singleton.
        split; [by intros [?|?]|by left].
  - intros rect fresh item clientOffset next Hdrop.
    apply handleDrop_MiniDropped in Hdrop
      as (r & pt & pattern & _ & _ & _ & Hpat & Hin & ->).
    eexists _, _, pattern. split; [exact Hin|]. split; [done|]. simpl.
    split; [done|]. split; [|split; [|done]].
    + rewrite markers_after_mini. by intros [_ ?].
    + intros other Hne. rewrite markers_after_mini. split; [by intros [? _]|done].
Qed.

(** A mini and then two clicks on cell (1,2) of the 5x5 grid. *)
Lemma marker_mini_exclusion_example :
  ∃ c1 c2 c3,
    run (mount props55)
        [ToggleEditionMode;
         Drop (Some rect0) (paletteItem "L" "#ff8800" shapeL None)
              (Some (overCell 1 2)) "piece-1"] = Some c1 ∧
    is_Some (cellMinis (state c1) !! "1-2") ∧
    ("1-2" ∉ markedCells (state c1)) ∧
    step c1 (ClickCell "1-2") = Some c2 ∧
    cellMinis (state c2) !! "1-2" = None ∧ ("1-2" ∉ markedCells (state c2)) ∧
    step c2 (ClickCell "1-2") = Some c3 ∧
    "1-2" ∈ markedCells (state c3) ∧ cellMinis (state c3) !! "1-2" = None.
Proof.
  eexists _, _, _. split; [reflexivity|].
  match goal with
  | |- is_Some (cellMinis (state ?c) !! _) ∧ _ =>
    assert (reachable props55 c) as Hreach
  end.
  { apply (reachable_run props55 (mount props55)
             [ToggleEditionMode;
              Drop (Some rect0) (paletteItem "L" "#ff8800" shapeL None)
                   (Some (overCell 1 2)) "piece-1"]).
    - apply reach_mount, pitch_ok_props55.
    - cbv [freshRun]. split; [exact I|]. eval_step.
      split; [|exact I]. simpl. intros _. apply not_elem_of_nil.
    - reflexivity. }
  destruct (marker_mini_exclusion props55 _ "1-2" Hreach)
    as (Hexcl & Hstep & Hmini & _).
  assert (is_Some (cellMinis (state
    {| props := {| rows := 5; cols := 5; editionMode := true;
                   gridCellSize := None; gridPaddingSize := None |};
       state := {| pieces := []; walls := ∅; markedCells := ∅;
                   cellMinis := <["1-2" := {| mini_pattern := shapeL;
                                             mini_color := "#ff8800" |}]> ∅ |};
       dropPieces := [] |}) !! "1-2")) as Hhas.
  { simpl. rewrite lookup_insert_eq. by eexists. }
  destruct (Hmini Hhas) as (_ & _ & Hout & Hin & Hnone).
  split; [exact Hhas|]. split; [exact Hout|]. split; [reflexivity|].
  split; [apply lookup_delete_eq|]. split; [exact Hout|].
  split; [reflexivity|]. split; [exact Hin|exact Hnone].
Defined.

End marker_theorem.

(** ** Cell colours *)

Section colours.
Local Open Scope Z_scope.
Implicit Types (piece p q : PlacedPiece) (l older newer : list PlacedPiece).

Lemma covers_footprint piece r c : covers piece r c = true ↔ footprint piece r c.
Proof.
  unfold covers, footprint. rewrite existsb_exists. split.
  - intros ([[i j] v] & He & Hc). apply list_elem_of_In, elem_of_entries in He.
    apply andb_prop in Hc as [Hc Hcol]. apply andb_prop in Hc as [Hs Hrow].
    exists i, j. split; [by exists v|]. lia.
  - intros (i & j & (v & Hv & Hs) & -> & ->). exists (i, j, v).
    split; [by apply list_elem_of_In, elem_of_entries|].
    by rewrite Hs, !Z.eqb_refl.
Qed.

Lemma covers_not_footprint piece r c :
  covers piece r c = false ↔ ¬ footprint piece r c.
Proof.
  rewrite <- covers_footprint. by destruct (covers piece r c).
Qed.

Lemma find_after_misses {A : Type} (f : A → bool) (misses : list A) a rest :
  (∀ b, b ∈ misses → f b = false) → f a = true →
  List.find f (misses ++ a :: rest) = Some a.
Proof.
  intros Hmiss Ha. induction misses as [|b misses IH]; simpl.
  - by rewrite Ha.
  - rewrite (Hmiss b) by (apply elem_of_cons; by left).
    apply IH. intros b' Hb'. apply Hmiss, elem_of_cons. by right.
Qed.

Lemma find_all_miss {A : Type} (f : A → bool) (l : list A) :
  (∀ b, b ∈ l → f b = false) → List.find f l = None.
Proof.
  intros Hmiss. induction l as [|b l IH]; [done|]. simpl.
  rewrite (Hmiss b) by (apply elem_of_cons; by left).
  apply IH. intros b' Hb'. apply Hmiss, elem_of_cons. by right.
Qed.

Lemma getCellColor_last older p newer r c :
  footprint p r c → (∀ q, q ∈ newer → ¬ footprint q r c) →
  getCellColor (older ++ p :: newer) r c = Some (color p).
Proof.
  intros Hp Hnewer. unfold getCellColor.
  rewrite reverse_app, reverse_cons, <- app_assoc. simpl.
  rewrite (find_after_misses _ (reverse newer) p); [done| |].
  - intros q Hq. rewrite elem_of_reverse in Hq. simpl.
    apply covers_not_footprint. by apply Hnewer.
  - by apply covers_footprint.
Qed.

Lemma getCellColor_none l r c :
  (∀ q, q ∈ l → ¬ footprint q r c) → getCellColor l r c = None.
Proof.
  intros Hnone. unfold getCellColor. rewrite find_all_miss; [done|].
  intros q Hq. rewrite elem_of_reverse in Hq. simpl.
  apply covers_not_footprint. by apply Hnone.
Qed.

(** Either some piece covers the cell, and then there is a last one, or
    none does. *)
Lemma last_cover l r c :
  (∃ older p newer, l = older ++ p :: newer ∧ footprint p r c ∧
                    ∀ q, q ∈ newer → ¬ footprint q r c) ∨
  (∀ q, q ∈ l → ¬ footprint q r c).
Proof.
  induction l as [|a l IH].
  - right. intros q Hq. by apply elem_of_nil in Hq.
  - destruct IH as [(older & p & newer & -> & Hp & Hnewer)|Hnone].
    + left. by exists (a :: older), p, newer.
    + destruct (covers a r c) eqn:Ha.
      * left. exists [], a, l. split; [done|]. split; [by apply covers_footprint|done].
      * right. intros q Hq. apply elem_of_cons in Hq as [->|Hq]; [|by apply Hnone].
        by apply covers_not_footprint.
Qed.

(** C8.  The colour of a cell is the colour of the last piece of the
    collection whose footprint covers the cell; the pieces are scanned from
    the last placed to the first and the first hit wins.  When no piece
    covers the cell, [getCellColor] gives [null] and the cell is drawn in
    the background colour. *)
Theorem getCellColor_topmost pieces r c :
  (∀ older p newer,
     pieces = older ++ p :: newer → footprint p r c →
     (∀ q, q ∈ newer → ¬ footprint q r c) →
     getCellColor pieces r c = Some (color p) ∧
     (color p ≠ "" → backgroundColor pieces r c = color p)) ∧
  ((∀ q, q ∈ pieces → ¬ footprint q r c) →
     getCellColor pieces r c = None ∧
     backgroundColor pieces r c = gridCellColor) ∧
  ((∃ older p newer, pieces = older ++ p :: newer ∧ footprint p r c ∧
                     ∀ q, q ∈ newer → ¬ footprint q r c) ∨
   (∀ q, q ∈ pieces → ¬ footprint q r c)).
Proof.
  split; [|split; [|apply last_cover]].
  - intros older p newer -> Hp Hnewer.
    pose proof (getCellColor_last older p newer r c Hp Hnewer) as Hc.
    split; [done|]. intros Hcol. unfold backgroundColor. rewrite Hc.
    by rewrite decide_False.
  - intros Hnone. pose proof (getCellColor_none pieces r c Hnone) as Hc.
    split; [done|]. unfold backgroundColor. by rewrite Hc.
Qed.

(** The overlap example of the spec: B dropped right on top of A. *)
Lemma getCellColor_topmost_example :
  let a := squareAt "piece-A" "#0000ff" 1 1 in
  let b := squareAt "piece-B" "#ff0000" 1 1 in
  handleDrop props55 (Some rect0) [] "piece-A"
    (paletteItem "O" "#0000ff" [[1; 1]; [1; 1]] None)
    (Some (overCell 1 1)) initialState = PiecePlaced (withPieces [a]) ∧
  handleDrop props55 (Some rect0) [] "piece-B"
    (paletteItem "O" "#ff0000" [[1; 1]; [1; 1]] None)
    (Some (overCell 1 1)) (withPieces [a]) = PiecePlaced (withPieces [a; b]) ∧
  getCellColor [a; b] 2 2 = Some "#ff0000" ∧
  backgroundColor [a; b] 2 2 = "#ff0000" ∧
  backgroundColor [a; b] 0 0 = gridCellColor.
Proof.
  intros a b. split; [reflexivity|]. split; [reflexivity|].
  destruct (getCellColor_topmost [a; b] 2 2) as (Htop & _).
  destruct (getCellColor_topmost [a; b] 0 0) as (_ & Hnone & _).
  destruct (Htop [a] b []) as [Hc Hbg]; [reflexivity| | |].
  - exists 1%nat, 1%nat. split; [by exists 1|]. by split.
  - intros q Hq. by apply elem_of_nil in Hq.
  - split; [exact Hc|]. split; [by apply Hbg|].
    apply Hnone. intros q Hq (i & j & _ & Hr & Hco).
    apply elem_of_cons in Hq as [->|Hq];
      [|apply list_elem_of_singleton in Hq as ->]; simpl in Hr; lia.
Defined.

End colours.

(** ** Cell identifiers *)

Section cell_ids.
Local Open Scope Z_scope.

Lemma pretty_N_char_no_dash (n : N) : pretty_N_char n ≠ "-"%char.
Proof.
  destruct n as [|p]; [discriminate|].
  do 4 (try destruct p as [p|p|]); discriminate.
Qed.

Lemma pretty_N_go_no_dash (n : N) s : no_dash s → no_dash (pretty_N_go n s).
Proof.
  revert s. induction (N.lt_wf_0 n) as [n _ IH]; intros s Hs.
  destruct (decide (n = 0)%N) as [->|Hn]; [by rewrite pretty_N_go_0|].
  rewrite pretty_N_go_step by lia. apply IH.
  - apply N.div_lt; lia.
  - split; [apply pretty_N_char_no_dash|done].
Qed.

Lemma pretty_Z_no_dash (z : Z) : 0 ≤ z → no_dash (pretty z).
Proof.
  destruct z as [|p|p]; intros Hz; [by split| |lia].
  change (pretty (Z.pos p)) with (pretty (N.pos p)). unfold pretty, pretty_N.
  rewrite decide_False by done. by apply pretty_N_go_no_dash.
Qed.

Lemma split_at_dash (d1 d2 e1 e2 : string) :
  no_dash d1 → no_dash d2 →
  d1 +:+ String "-" e1 = d2 +:+ String "-" e2 → d1 = d2 ∧ e1 = e2.
Proof.
  revert d2. induction d1 as [|a d1 IH]; intros [|b d2]; simpl.
  - intros _ _ [= ->]. done.
  - intros _ [Hb _] [= <- _]. done.
  - intros [Ha _] _ [= -> _]. done.
  - intros [_ H1] [_ H2] [= -> Heq]. by destruct (IH d2 H1 H2 Heq) as [-> ->].
Qed.

(** Inside the grid, cell identifiers stand for cells one to one. *)
Lemma cellId_inj r c r' c' :
  0 ≤ r → 0 ≤ r' → cellId r c = cellId r' c' → r = r' ∧ c = c'.
Proof.
  intros Hr Hr' Heq. unfold cellId in Heq.
  apply split_at_dash in Heq as [Hrow Hcol]; [|by apply pretty_Z_no_dash..].
  split; by apply (inj pretty).
Qed.

End cell_ids.

(** ** Hover preview *)

Section hover.
Local Open Scope Z_scope.

Lemma hover_check props r c :
  (r >=? 0) && (r <? rows props) && (c >=? 0) && (c <? cols props) = true
  ↔ inside props r c.
Proof.
  unfold inside.
  destruct (Z.geb_spec r 0); destruct (Z.ltb_spec r (rows props));
    destruct (Z.geb_spec c 0); destruct (Z.ltb_spec c (cols props));
    simpl; split; try done; lia.
Qed.

Lemma elem_of_hover_fold props row col (l : list (nat * nat * Z)) acc s :
  s ∈ foldl (hoverStep props row col) acc l ↔
  s ∈ acc ∨
  ∃ i j v, (i, j, v) ∈ l ∧ truthy v = true ∧
           inside props (row + Z.of_nat i) (col + Z.of_nat j) ∧
           s = cellId (row + Z.of_nat i) (col + Z.of_nat j).
Proof.
  revert acc. induction l as [|[[i j] v] l IH]; intros acc; simpl.
  - split; [by left|]. intros [?|(i & j & v & Hin & _)]; [done|].
    by apply elem_of_nil in Hin.
  - rewrite IH. clear IH. split.
    + intros [Hacc|(i' & j' & v' & Hin & Hrest)].
      * destruct (truthy v) eqn:Hv; [|by left].
        destruct (_ && _) eqn:Hc; [|by left].
        apply elem_of_union in Hacc as [Hacc|Hnew]; [by left|].
        apply elem_of_singleton in Hnew. right. exists i, j, v.
        split; [apply elem_of_cons; by left|]. split; [done|].
        split; [by apply hover_check|done].
      * right. exists i', j', v'. split; [apply elem_of_cons; by right|done].
    + intros [Hacc|(i' & j' & v' & Hin & Hv' & Hinside & ->)].
      * left. destruct (truthy v); [|done]. destruct (_ && _); [|done].
        apply elem_of_union. by left.
      * apply elem_of_cons in Hin as [[= -> -> ->]|Hin].
        -- left. rewrite Hv'. apply hover_check in Hinside. rewrite Hinside.
           apply elem_of_union_r. by apply elem_of_singleton.
        -- right. by exists i', j', v'.
Qed.

Lemma getHoverCells_placement props rect item pt row0 rest :
  editionMode props = false →
  item_pattern item = Some (row0 :: rest) →
  getHoverCells props (Some rect) true (Some item) (Some pt) =
    let o := dropOrigin props rect (row0 :: rest) row0 (item_pointerOffset item) pt in
    foldl (hoverStep props o.1 o.2) ∅ (entries (row0 :: rest)).
Proof.
  intros Hmode Hpat. unfold getHoverCells. rewrite Hmode, Hpat. simpl negb.
  cbv iota. rewrite hoverOrigin_dropOrigin.
  destruct (dropOrigin _ _ _ _ _ _) as [row col]. reflexivity.
Qed.

(** C10.  While a drag is in progress in placement mode, the hover set is
    the set of cell identifiers of those set cells of the dragged pattern,
    shifted to the origin that the drop path computes, that lie inside the
    grid; cells outside are left out.  The set is empty in edition mode,
    when nothing is dragged, and when the item has no pattern or an empty
    one.  The function takes none of the state collections and returns
    only the set. *)
Theorem getHoverCells_clipped props containerRef isDragging dragItem
    dragClientOffset :
  pitch_ok props →
  (editionMode props = true ∨ isDragging = false ∨ dragItem = None ∨
   (∃ item, dragItem = Some item ∧
            (item_pattern item = None ∨ item_pattern item = Some [])) →
   getHoverCells props containerRef isDragging dragItem dragClientOffset = ∅) ∧
  (∀ rect item pt row0 rest,
     editionMode props = false → isDragging = true →
     containerRef = Some rect → dragItem = Some item →
     dragClientOffset = Some pt → item_pattern item = Some (row0 :: rest) →
     let o := dropOrigin props rect (row0 :: rest) row0 (item_pointerOffset item) pt in
     (∀ s, s ∈ getHoverCells props containerRef isDragging dragItem dragClientOffset
           ↔ ∃ i j, is_set (row0 :: rest) i j ∧
                    inside props (o.1 + Z.of_nat i) (o.2 + Z.of_nat j) ∧
                    s = cellId (o.1 + Z.of_nat i) (o.2 + Z.of_nat j)) ∧
     (∀ r c, inside props r c →
        (cellId r c
           ∈ getHoverCells props containerRef isDragging dragItem dragClientOffset
         ↔ ∃ i j, is_set (row0 :: rest) i j ∧
                  r = o.1 + Z.of_nat i ∧ c = o.2 + Z.of_nat j))).
Proof.
  intros _. split.
  - unfold getHoverCells. intros [Hmode|[->|[->|(item & -> & Hpat)]]].
    + destruct isDragging; [|done]. simpl.
      destruct dragItem, dragClientOffset, containerRef; try done.
      by rewrite Hmode.
    + done.
    + by destruct isDragging.
    + destruct isDragging; [|done]. simpl.
      destruct dragClientOffset, containerRef; try done.
      destruct (editionMode props); [done|]. by destruct Hpat as [->| ->].
  - intros rect item pt row0 rest Hmode -> -> -> -> Hpat o.
    assert (∀ s, s ∈ getHoverCells props (Some rect) true (Some item) (Some pt)
              ↔ ∃ i j, is_set (row0 :: rest) i j ∧
                       inside props (o.1 + Z.of_nat i) (o.2 + Z.of_nat j) ∧
                       s = cellId (o.1 + Z.of_nat i) (o.2 + Z.of_nat j)) as Hids.
    { intros s.
      rewrite (getHoverCells_placement _ _ _ _ _ _ Hmode Hpat). cbv zeta. fold o.
      rewrite elem_of_hover_fold. split.
      - intros [Hin|(i & j & v & Hin & Hv & Hinside & ->)].
        + by apply not_elem_of_empty in Hin.
        + apply elem_of_entries in Hin. exists i, j. split; [by exists v|done].
      - intros (i & j & (v & Hv & Hs) & Hinside & ->). right.
        exists i, j, v. by rewrite elem_of_entries. }
    split; [exact Hids|]. intros r c Hrc. rewrite Hids. split.
    + intros (i & j & Hs & Hinside & Heq). exists i, j. split; [done|].
      apply cellId_inj in Heq; [done|by destruct Hrc as [[? _] _]
                                    |by destruct Hinside as [[? _] _]].
    + intros (i & j & Hs & -> & ->). by exists i, j.
Qed.

(** A domino dragged half over the right edge of the 5x5 grid: the drop
    would be rejected, the preview still shows the cell that is inside. *)
Lemma getHoverCells_clipped_example :
  let item := paletteItem "I2" "#F5BE02" [[1; 1]] None in
  "0-4" ∈ getHoverCells props55 (Some rect0) true (Some item) (Some (overCell 0 4)) ∧
  handleDrop props55 (Some rect0) [] "piece-0" item (Some (overCell 0 4)) initialState
    = Ignored ∧
  getHoverCells props55 (Some rect0) true (Some item) None = ∅ ∧
  getHoverCells props55 (Some rect0) false (Some item) (Some (overCell 0 4)) = ∅.
Proof.
  intros item.
  destruct (getHoverCells_clipped props55 (Some rect0) true (Some item)
              (Some (overCell 0 4)) pitch_ok_props55) as [_ Hin].
  split; [|split; [reflexivity|split; reflexivity]].
  apply (Hin rect0 item (overCell 0 4) [1; 1] [] eq_refl eq_refl eq_refl
           eq_refl eq_refl eq_refl).
  exists 0%nat, 0%nat. split; [by exists 1|]. split; [|reflexivity].
  vm_compute. repeat split; discriminate.
Defined.

End hover.

(** * Further properties of the code *)

(** ** Walls, removal and rotation of pieces *)

Section state_operations.
Local Open Scope Z_scope.
Implicit Types (st prev next : GridState) (p q : PlacedPiece).

Lemma GridState_eq st st' :
  pieces st = pieces st' → walls st = walls st' →
  markedCells st = markedCells st' → cellMinis st = cellMinis st' → st = st'.
Proof. destruct st, st'. simpl. by intros -> -> -> ->. Qed.

Lemma elem_of_toggleWall wallId st w :
  w ∈ walls (toggleWall wallId st)
  ↔ (w ∈ walls st ∧ w ≠ wallId) ∨ (w = wallId ∧ wallId ∉ walls st).
Proof.
  unfold toggleWall. simpl.
  destruct (decide (wallId ∈ walls st)) as [Hin|Hout].
  - rewrite elem_of_difference, elem_of_singleton. split; [by left|].
    intros [?|[_ ?]]; done.
  - rewrite elem_of_union, elem_of_singleton. split.
    + intros [Hx| ->]; [left|by right]. split; [done|]. by intros ->.
    + intros [[? _]|[-> _]]; [by left|by right].
Qed.

(** X1.  [toggleWall] is its own inverse, and a toggle changes the
    membership of the toggled wall only; pieces, markers and minis are
    left alone. *)
Theorem toggleWall_twice wallId st :
  toggleWall wallId (toggleWall wallId st) = st ∧
  (wallId ∈ walls (toggleWall wallId st) ↔ wallId ∉ walls st) ∧
  (∀ other, other ≠ wallId →
     (other ∈ walls (toggleWall wallId st) ↔ other ∈ walls st)) ∧
  pieces (toggleWall wallId st) = pieces st ∧
  markedCells (toggleWall wallId st) = markedCells st ∧
  cellMinis (toggleWall wallId st) = cellMinis st.
Proof.
  split; [|split; [|split; [|done]]].
  - apply GridState_eq; try done. apply set_eq. intros w.
    rewrite !elem_of_toggleWall.
    destruct (decide (w = wallId)) as [->|Hne];
      destruct (decide (wallId ∈ walls st)); tauto.
  - rewrite elem_of_toggleWall. split; [by intros [[_ ?]|[_ ?]]|]. intros ?. by right.
  - intros other Hne. rewrite elem_of_toggleWall. split; [by intros [[? _]|[? _]]|].
    intros ?. by left.
Qed.


(** The callback of [rotatePiece], piece by piece. *)
Lemma rotatePiece_inv pid prev next :
  rotatePiece pid prev = Some next ↔
  Forall2 (λ p q,
    if decide (id p = pid)
    then ∃ Q, rotatePattern (pattern p) = Some Q ∧ q = turnedPiece p Q
    else q = p) (pieces prev) (pieces next) ∧
  walls next = walls prev ∧ markedCells next = markedCells prev ∧
  cellMinis next = cellMinis prev.
Proof.
  unfold rotatePiece. split.
  - intros H. destruct (mapM _ (pieces prev)) as [rotated|] eqn:Hm; [|done].
    injection H as <-. simpl. split; [|done]. apply mapM_Some in Hm.
    induction Hm as [|p q l k Hpq _ IH]; constructor; [|done].
    destruct (decide (id p = pid)); [|by injection Hpq as <-].
    destruct (rotatePattern (pattern p)) as [Q|]; [|done].
    injection Hpq as <-. by exists Q.
  - intros (Hall & Hw & Hm & Hc).
    assert (mapM (λ p, if decide (id p = pid) then
        rotatedPattern ← rotatePattern (pattern p);
        Some {| id := id p; type := type p;
                pattern := rotatedPattern;
                originalPattern := originalPattern p;
                color := color p; row := row p; col := col p;
                rotation := Z.rem (rotation p + 90) 360 |}
      else Some p) (pieces prev) = Some (pieces next)) as ->.
    { apply mapM_Some. induction Hall as [|p q l k Hpq _ IH]; constructor; [|done].
      destruct (decide (id p = pid)); [|by subst].
      destruct Hpq as (Q & -> & ->). done. }
    simpl. f_equal. by apply GridState_eq.
Qed.

(** X2.  [removePiece] leaves the state as it is exactly when no piece
    carries the identity; it removes every piece that carries it, keeps the
    others in their order, and a second call changes nothing. *)
Theorem removePiece_spec pid st :
  (removePiece pid st = st ↔ pid ∉ id <$> pieces st) ∧
  (pid ∉ id <$> pieces (removePiece pid st)) ∧
  pieces (removePiece pid st) `sublist_of` pieces st ∧
  (∀ p, p ∈ pieces st → id p ≠ pid → p ∈ pieces (removePiece pid st)) ∧
  removePiece pid (removePiece pid st) = removePiece pid st.
Proof.
  assert (∀ l : list PlacedPiece,
    filter (λ p, id p ≠ pid) l = l ↔ pid ∉ id <$> l) as Hfix.
  { induction l as [|p l IH]; [split; [intros _; apply not_elem_of_nil|done]|].
    rewrite fmap_cons, not_elem_of_cons, <- IH, filter_cons.
    destruct (decide (id p ≠ pid)) as [Hne|Heq].
    - split; [intros [= H]; by split|intros [_ ->]; done].
    - split; [|intros [? _]; by destruct Heq].
      intros H. pose proof (length_filter (λ p, id p ≠ pid) l) as Hlen.
      rewrite H in Hlen. simpl in Hlen. lia. }
  assert (pid ∉ id <$> pieces (removePiece pid st)) as Hgone.
  { simpl. intros Hin. apply list_elem_of_fmap in Hin as (p & Hp & Hin).
    apply list_elem_of_filter in Hin as [Hne _]. by apply Hne. }
  split; [|split; [done|split; [apply sublist_filter|split]]].
  - rewrite <- Hfix. split; [intros H; by rewrite <- H at 2|].
    intros H. by apply GridState_eq.
  - intros p Hin Hne. simpl. by apply list_elem_of_filter.
  - apply GridState_eq; try done. simpl. by apply Hfix.
Qed.

(** X3.  A click on a piece that is no longer in the state (its identity
    occurs nowhere) succeeds and changes nothing. *)
Theorem rotatePiece_absent pid st :
  pid ∉ id <$> pieces st → rotatePiece pid st = Some st.
Proof.
  intros Habs. apply rotatePiece_inv. split; [|done].
  induction (pieces st) as [|p l IH]; constructor.
  - rewrite decide_False; [done|]. intros Heq. apply Habs. rewrite <- Heq. left.
  - apply IH. intros Hin. apply Habs. by right.
Qed.

Lemma rotatePiece_absent_example :
  ("b" ∉ id <$> [plainPiece "a" shapeL 0 0]) ∧
  rotatePiece "b" (withPieces [plainPiece "a" shapeL 0 0])
  = Some (withPieces [plainPiece "a" shapeL 0 0]).
Proof.
  assert ("b" ∉ id <$> [plainPiece "a" shapeL 0 0]) as H.
  { simpl. intros Hin. apply list_elem_of_singleton in Hin. discriminate Hin. }
  split; [exact H|]. apply (rotatePiece_absent "b" (withPieces _)). exact H.
Defined.

(** X4.  A piece turns about the top-left corner of its bounding box: the
    rotated piece keeps its origin, its [R]-by-[C] pattern becomes
    [C]-by-[R], and the set cell [(i, j)] of the old pattern lies, after the
    turn, [j] rows and [R-1-i] columns from the origin.  The rotation angle
    advances by 90 modulo 360, and the pieces with another identity stay
    as they are. *)
Theorem rotatePiece_footprint pid prev next k p R C :
  rotatePiece pid prev = Some next →
  pieces prev !! k = Some p → id p = pid → rect R C (pattern p) →
  ∃ q, pieces next !! k = Some q ∧
    id q = id p ∧ color q = color p ∧ originalPattern q = originalPattern p ∧
    row q = row p ∧ col q = col p ∧
    rect C R (pattern q) ∧ rotation q = Z.rem (rotation p + 90) 360 ∧
    (∀ r c, footprint q r c ↔
       ∃ i j, is_set (pattern p) i j ∧
              r = row p + Z.of_nat j ∧ c = col p + Z.of_nat (R - 1 - i)) ∧
    ∀ k' p', pieces prev !! k' = Some p' → id p' ≠ pid →
             pieces next !! k' = Some p'.
Proof.
  intros Hrot Hk Hid Hrect. apply rotatePiece_inv in Hrot as [Hall _].
  destruct (Forall2_lookup_l _ _ _ _ _ Hall Hk) as (q & Hq & Hpq).
  rewrite decide_True in Hpq by done. destruct Hpq as (Q & HQ & ->).
  assert (0 < R)%nat as HR.
  { unfold rotatePattern in HQ. destruct (pattern p !! 0%nat) eqn:H0; [|done].
    apply lookup_lt_Some in H0. destruct Hrect. lia. }
  destruct (rotatePattern_rect R C _ Hrect HR) as (Q' & HQ' & HrQ & Hlaw).
  rewrite HQ in HQ'. injection HQ' as <-.
  exists (turnedPiece p Q). split; [done|]. do 7 (split; [done|]). split.
  - intros r c. unfold footprint. simpl. split.
    + intros (j & k0 & (v & Hv & Hset) & -> & ->).
      destruct (cellAt_Some_lt _ _ _ _ _ _ HrQ Hv) as [Hj Hk0].
      exists (R - 1 - k0)%nat, j. split.
      * exists v. split; [|done]. rewrite <- Hlaw by lia. rewrite <- Hv.
        f_equal. lia.
      * split; [done|]. f_equal. f_equal. lia.
    + intros (i & j & (v & Hv & Hset) & -> & ->).
      destruct (cellAt_Some_lt _ _ _ _ _ _ Hrect Hv) as [Hi Hj].
      exists j, (R - 1 - i)%nat. split; [|done].
      exists v. split; [|done]. by rewrite Hlaw.
  - intros k' p' Hk' Hne.
    destruct (Forall2_lookup_l _ _ _ _ _ Hall Hk') as (q' & Hq' & Hpq').
    rewrite decide_False in Hpq' by done. by subst.
Qed.

Lemma rotatePiece_footprint_example :
  ∃ next, rotatePiece "a" (withPieces [plainPiece "a" shapeL 2 1]) = Some next ∧
  ∃ q, pieces next !! 0%nat = Some q ∧
    id q = "a" ∧ color q = "#F5BE02" ∧ originalPattern q = shapeL ∧
    row q = 2 ∧ col q = 1 ∧
    rect 2 3 (pattern q) ∧ rotation q = Z.rem (0 + 90) 360 ∧
    (∀ r c, footprint q r c ↔
       ∃ i j, is_set shapeL i j ∧
              r = 2 + Z.of_nat j ∧ c = 1 + Z.of_nat (3 - 1 - i)) ∧
    ∀ k' p', [plainPiece "a" shapeL 2 1] !! k' = Some p' → id p' ≠ "a" →
             pieces next !! k' = Some p'.
Proof.
  eexists. split; [reflexivity|].
  apply (rotatePiece_footprint "a" (withPieces [plainPiece "a" shapeL 2 1]) _
           0 (plainPiece "a" shapeL 2 1) 3 2); [reflexivity..|].
  split; [reflexivity|]. repeat constructor.
Defined.


(** Four quarter turns of a pattern, undone. *)
Lemma rotatePattern_four R C P :
  rect R C P → (0 < R)%nat → (0 < C)%nat →
  ∃ Q1 Q2 Q3,
    rotatePattern P = Some Q1 ∧ rect C R Q1 ∧
    rotatePattern Q1 = Some Q2 ∧ rect R C Q2 ∧
    rotatePattern Q2 = Some Q3 ∧ rect C R Q3 ∧
    rotatePattern Q3 = Some P.
Proof.
  intros HP HR HC.
  destruct (rotatePattern_cells R C P HP HR) as (Q1 & E1 & H1 & L1).
  destruct (rotatePattern_cells C R Q1 H1 HC) as (Q2 & E2 & H2 & L2).
  destruct (rotatePattern_cells R C Q2 H2 HR) as (Q3 & E3 & H3 & L3).
  destruct (rotatePattern_cells C R Q3 H3 HC) as (Q4 & E4 & H4 & L4).
  exists Q1, Q2, Q3. do 6 (split; [done|]). rewrite E4. f_equal.
  apply (rect_ext R C); [done..|]. intros i j Hi Hj.
  rewrite L4, L3, L2, L1 by lia. f_equal; lia.
Qed.

Lemma Forall_filter_keeps {A : Type} (P Q : A → Prop) `{∀ a, Decision (Q a)}
    (l : list A) :
  Forall P l → Forall P (filter Q l).
Proof.
  rewrite !Forall_forall. intros Hall a Hin.
  apply list_elem_of_filter in Hin as [_ Hin]. by apply Hall.
Qed.

Lemma quarterTurn_next r : quarterTurn r → quarterTurn (Z.rem (r + 90) 360).
Proof.
  unfold quarterTurn. intros [-> | [-> | [-> | ->]]]; vm_compute; tauto.
Qed.

Lemma quarterTurn_four r :
  quarterTurn r →
  Z.rem (Z.rem (Z.rem (Z.rem (r + 90) 360 + 90) 360 + 90) 360 + 90) 360 = r.
Proof. unfold quarterTurn. by intros [-> | [-> | [-> | ->]]]. Qed.

Lemma mapM_four {A : Type} (f : A → option A) (l : list A) :
  Forall (λ a, ∃ a1 a2 a3,
    f a = Some a1 ∧ f a1 = Some a2 ∧ f a2 = Some a3 ∧ f a3 = Some a) l →
  ∃ l1 l2 l3,
    Forall2 (λ a b, f a = Some b) l l1 ∧ Forall2 (λ a b, f a = Some b) l1 l2 ∧
    Forall2 (λ a b, f a = Some b) l2 l3 ∧ Forall2 (λ a b, f a = Some b) l3 l.
Proof.
  induction 1 as [|a l (a1 & a2 & a3 & Ha & Ha1 & Ha2 & Ha3) _
                    (l1 & l2 & l3 & Hl & Hl1 & Hl2 & Hl3)].
  - exists [], [], []. repeat split; constructor.
  - exists (a1 :: l1), (a2 :: l2), (a3 :: l3).
    repeat split; by constructor.
Qed.

(** X5.  Four clicks on a piece bring the whole state back: each of the
    four calls of [rotatePiece] succeeds, and the last one returns the
    state before the first, pattern, rotation angle and all. *)
Theorem rotatePiece_four_clicks pid st :
  turnable pid (pieces st) →
  ∃ s1 s2 s3,
    rotatePiece pid st = Some s1 ∧ rotatePiece pid s1 = Some s2 ∧
    rotatePiece pid s2 = Some s3 ∧ rotatePiece pid s3 = Some st.
Proof.
  intros Hturn.
  set (f := λ p : PlacedPiece,
    if decide (id p = pid)
    then turnedPiece p <$> rotatePattern (pattern p) else Some p).
  assert (∀ s s', Forall2 (λ a b, f a = Some b) (pieces s) (pieces s') →
            walls s' = walls s → markedCells s' = markedCells s →
            cellMinis s' = cellMinis s → rotatePiece pid s = Some s') as Hstep.
  { intros s s' Hall Hw Hm Hc. apply rotatePiece_inv. split; [|done].
    eapply Forall2_impl; [exact Hall|]. intros p q Hpq. unfold f in Hpq.
    destruct (decide (id p = pid)); [|by injection Hpq as <-].
    destruct (rotatePattern (pattern p)) as [Q|]; [|done].
    injection Hpq as <-. by exists Q. }
  destruct (mapM_four f (pieces st)) as (l1 & l2 & l3 & F1 & F2 & F3 & F4).
  { eapply Forall_impl; [exact Hturn|]. intros p Hp. unfold f.
    destruct (decide (id p = pid)) as [Hid|Hne].
    - destruct (Hp Hid) as (Hq & R & C & HR & HC & Hrect).
      destruct (rotatePattern_four R C _ Hrect HR HC)
        as (Q1 & Q2 & Q3 & E1 & H1 & E2 & H2 & E3 & H3 & E4).
      exists (turnedPiece p Q1), (turnedPiece (turnedPiece p Q1) Q2),
        (turnedPiece (turnedPiece (turnedPiece p Q1) Q2) Q3).
      simpl. rewrite !decide_True by done. rewrite E1, E2, E3, E4. simpl.
      do 3 (split; [done|]). f_equal. unfold turnedPiece. simpl.
      rewrite (quarterTurn_four _ Hq). by destruct p.
    - exists p, p, p. by rewrite !decide_False by done. }
  exists {| pieces := l1; walls := walls st; markedCells := markedCells st;
            cellMinis := cellMinis st |},
         {| pieces := l2; walls := walls st; markedCells := markedCells st;
            cellMinis := cellMinis st |},
         {| pieces := l3; walls := walls st; markedCells := markedCells st;
            cellMinis := cellMinis st |}.
  repeat split; by apply Hstep.
Qed.

Lemma rotatePiece_four_clicks_example :
  turnable "a" [plainPiece "a" shapeL 2 1; plainPiece "b" [[1]] 0 0] ∧
  ∃ s1 s2 s3,
    rotatePiece "a"
      (withPieces [plainPiece "a" shapeL 2 1; plainPiece "b" [[1]] 0 0]) = Some s1 ∧
    rotatePiece "a" s1 = Some s2 ∧ rotatePiece "a" s2 = Some s3 ∧
    rotatePiece "a" s3
    = Some (withPieces [plainPiece "a" shapeL 2 1; plainPiece "b" [[1]] 0 0]).
Proof.
  assert (turnable "a" [plainPiece "a" shapeL 2 1; plainPiece "b" [[1]] 0 0]) as H.
  { apply Forall_cons. split; [|apply Forall_cons; split; [|apply Forall_nil_2]];
      intros _; (split; [by left|]).
    - exists 3%nat, 2%nat. split; [lia|]. split; [lia|]. split; [reflexivity|].
      repeat constructor.
    - exists 1%nat, 1%nat. split; [lia|]. split; [lia|]. split; [reflexivity|].
      repeat constructor. }
  split; [exact H|]. apply (rotatePiece_four_clicks "a" (withPieces _)). exact H.
Defined.

(** X6.  In every state the component reaches, and in the piece array its
    drop handler holds, the rotation angle of every piece is one of 0, 90,
    180 and 270. *)
Theorem reachable_quarterTurns props c :
  reachable props c →
  Forall (λ p, quarterTurn (rotation p)) (pieces (state c)) ∧
  Forall (λ p, quarterTurn (rotation p)) (dropPieces c).
Proof.
  induction 1 as [|c e c' _ [IHs IHd] Hfresh Hstep]; [by split|].
  destruct e as [|rect item clientOffset fresh|pid|pid|wallId|cellId|];
    simpl in Hstep.
  - by injection Hstep as <-.
  - injection Hstep as <-. simpl. split; [|done].
    destruct (handleDrop_pieces (Grid.props c) rect (dropPieces c) fresh item
                clientOffset (state c)) as [->|(pattern & row & col & ->)];
      [done|].
    apply Forall_app. split; [by apply Forall_filter_keeps|].
    constructor; [|done]. unfold newPieceOf. simpl.
    destruct (item_pieceId item) as [pid|]; simpl; [|by left].
    destruct (List.find _ (dropPieces c)) as [e|] eqn:Hfind; simpl; [|by left].
    apply find_some in Hfind as [Hin _]. apply list_elem_of_In in Hin.
    by apply (proj1 (Forall_forall _ _) IHd).
  - destruct (editionMode _); [done|]. injection Hstep as <-. simpl.
    split; [|done]. by apply Forall_filter_keeps.
  - destruct (editionMode _); [done|].
    destruct (rotatePiece pid (state c)) as [next|] eqn:Hrot; [|done].
    injection Hstep as <-. simpl. split; [|done].
    apply rotatePiece_inv in Hrot as [Hall _].
    apply Forall_lookup. intros k q Hq.
    destruct (Forall2_lookup_r _ _ _ _ _ Hall Hq) as (p & Hp & Hpq).
    pose proof (proj1 (Forall_lookup _ _) IHs _ _ Hp) as Hrp.
    destruct (decide (id p = pid)); [|by subst].
    destruct Hpq as (Q & _ & ->). simpl. by apply quarterTurn_next.
  - destruct (editionMode _); [|done]. by injection Hstep as <-.
  - destruct (editionMode _); [|done]. injection Hstep as <-. simpl.
    unfold toggleMarkedCell. by destruct (decide _).
  - injection Hstep as <-. by split.
Qed.

Lemma reachable_quarterTurns_example :
  reachable props55 afterRotate ∧
  Forall (λ p, quarterTurn (rotation p)) (pieces (state afterRotate)) ∧
  Forall (λ p, quarterTurn (rotation p)) (dropPieces afterRotate).
Proof.
  assert (reachable props55 afterRotate) as H.
  { apply (reachable_run props55 (mount props55)
             [dropL; ClickPiece "piece-1"]);
      [apply reach_mount, pitch_ok_props55| |reflexivity].
    simpl. split; [intros _; apply not_elem_of_nil|done]. }
  split; [exact H|]. exact (reachable_quarterTurns props55 afterRotate H).
Defined.

End state_operations.

(** ** Patterns without cells *)

Section degenerate.
Implicit Types (P Q : Pattern).

(** X7.  On a rectangular matrix [rotatePattern] fails only when there is no
    first row to take the width from.  Rows of width zero rotate to the
    matrix without rows, so a second rotation fails: without a column the
    four-rotation cycle does not go through. *)
Theorem rotatePattern_degenerate R C P :
  rect R C P →
  (rotatePattern P = None ↔ R = 0) ∧
  (0 < R → C = 0 →
     rotatePattern P = Some [] ∧
     (Q ← rotatePattern P; rotatePattern Q) = None).
Proof.
  intros HP. split.
  - split.
    + intros Hnone. destruct R as [|R]; [done|].
      destruct (rotatePattern_rect (S R) C P HP) as (Q & HQ & _); [lia|].
      by rewrite HQ in Hnone.
    + intros ->. destruct HP as [Hlen _]. by destruct P.
  - intros HR ->.
    destruct (rotatePattern_rect R 0 P HP HR) as (Q & -> & [Hlen _] & _).
    destruct Q; done.
Qed.

Lemma rotatePattern_degenerate_example :
  rect 2 0 [[]; []] ∧
  (rotatePattern [[]; []] = None ↔ 2 = 0) ∧
  (0 < 2 → 0 = 0 →
     rotatePattern [[]; []] = Some [] ∧
     (Q ← rotatePattern [[]; []]; rotatePattern Q) = None).
Proof.
  assert (rect 2 0 [[]; []]) as H.
  { split; [reflexivity|]. repeat constructor. }
  split; [exact H|]. exact (rotatePattern_degenerate 2 0 [[]; []] H).
Defined.

End degenerate.

(** ** The palette *)

Section palette.
Import PaletteShape.
Implicit Types (P Q : Pattern).

Lemma clicks_four R C P n :
  rect R C P → 0 < R → 0 < C → clicks (4 + n) P = clicks n P.
Proof.
  intros HP HR HC. cbn [clicks Nat.add]. unfold handleRotate.
  destruct (rotatePattern_cells R C P HP HR) as (Q1 & E1 & H1 & L1).
  destruct (rotatePattern_cells C R Q1 H1 HC) as (Q2 & E2 & H2 & L2).
  destruct (rotatePattern_cells R C Q2 H2 HR) as (Q3 & E3 & H3 & L3).
  destruct (rotatePattern_cells C R Q3 H3 HC) as (Q4 & E4 & H4 & L4).
  rewrite E1. cbn [mbind option_bind]. rewrite E2. cbn [mbind option_bind].
  rewrite E3. cbn [mbind option_bind]. rewrite E4. cbn [mbind option_bind].
  f_equal. apply (rect_ext R C); [done..|]. intros i j Hi Hj.
  rewrite L4, L3, L2, L1 by lia. f_equal; lia.
Qed.

(** X8.  A palette shape with a rectangular pattern that has a row and a
    column can be clicked any number of times: every click succeeds, the
    pattern is [R]-by-[C] after an even number of clicks and [C]-by-[R]
    after an odd one, and what is shown depends on the number of clicks
    modulo four only; after a multiple of four it is the initial pattern. *)
Theorem palette_clicks R C P n :
  rect R C P → 0 < R → 0 < C →
  (∃ Q, clicks n P = Some Q ∧
        if Nat.even n then rect R C Q else rect C R Q) ∧
  clicks (4 + n) P = clicks n P ∧
  clicks (4 * n) P = Some P.
Proof.
  intros HP HR HC. split; [|split].
  - revert R C P HP HR HC. induction (lt_wf n) as [n _ IH].
    intros R C P HP HR HC. destruct n as [|[|n]].
    + by exists P.
    + destruct (rotatePattern_rect R C P HP HR) as (Q & HQ & HrQ & _).
      exists Q. cbn [clicks]. unfold handleRotate. by rewrite HQ.
    + destruct (rotatePattern_rect R C P HP HR) as (Q1 & HQ1 & H1 & _).
      destruct (rotatePattern_rect C R Q1 H1 HC) as (Q2 & HQ2 & H2 & _).
      destruct (IH n ltac:(lia) R C Q2 H2 HR HC) as (Q & HQ & Hshape).
      exists Q. cbn [clicks]. unfold handleRotate.
      rewrite HQ1. cbn [mbind option_bind]. rewrite HQ2. done.
  - by apply (clicks_four R C).
  - induction n as [|n IH]; [done|].
    replace (4 * S n) with (4 + 4 * n) by lia.
    by rewrite (clicks_four R C).
Qed.

Lemma palette_clicks_example :
  rect 3 2 shapeL ∧
  (∃ Q, clicks 5 shapeL = Some Q ∧
        if Nat.even 5 then rect 3 2 Q else rect 2 3 Q) ∧
  clicks (4 + 5) shapeL = clicks 5 shapeL ∧
  clicks (4 * 5) shapeL = Some shapeL.
Proof.
  assert (rect 3 2 shapeL) as H.
  { split; [reflexivity|]. repeat constructor. }
  split; [exact H|]. apply (palette_clicks 3 2 shapeL 5 H); lia.
Defined.

End palette.

(** ** The two modes *)

Section modes.
Local Open Scope Z_scope.
Implicit Types (c : Component) (st prev next : GridState).

(** The three ways [handleDrop] can end, with the state each one builds. *)
Lemma handleDrop_shape props containerRef seenPieces fresh item clientOffset prev :
  let r := handleDrop props containerRef seenPieces fresh item clientOffset prev in
  r = Ignored ∨
  (editionMode props = true ∧
   ∃ rowCell colCell mini,
     inside props rowCell colCell ∧
     r = MiniDropped
           {| pieces := pieces prev;
              walls := walls prev;
              markedCells :=
                if decide (cellId rowCell colCell ∈ markedCells prev)
                then markedCells prev ∖ {[cellId rowCell colCell]}
                else markedCells prev;
              cellMinis := <[cellId rowCell colCell := mini]> (cellMinis prev) |}) ∨
  (editionMode props = false ∧
   ∃ placed,
     r = PiecePlaced
           {| pieces :=
                filter (λ p, truthyId (item_pieceId item) ≠ Some (id p)) (pieces prev)
                ++ [placed];
              walls := walls prev;
              markedCells := markedCells prev;
              cellMinis := cellMinis prev |}).
Proof.
  unfold handleDrop.
  destruct clientOffset as [pt|]; [|by left].
  destruct containerRef as [rect|]; [|by left].
  destruct (item_pattern item) as [[|row0 rest]|]; [by left| |by left].
  destruct (editionMode props).
  - destruct (_ || _) eqn:Hout; [by left|]. right. left. split; [done|].
    eexists _, _, _. split; [|reflexivity].
    apply orb_false_elim in Hout as [Hout H4].
    apply orb_false_elim in Hout as [Hout H3].
    apply orb_false_elim in Hout as [H1 H2]. unfold inside. lia.
  - destruct (dropOrigin _ _ _ _ _ _) as [row col].
    destruct (fits _ _ _ _); [|by left]. right. right. split; [done|].
    by eexists.
Qed.

(** X9.  The modes keep to their own collections.  In edition mode no
    event changes the pieces, and in placement mode no event changes the
    walls, the markers or the minis, [Clear Grid] apart; the walls change
    by a click on an edge only. *)
Theorem mode_separation c e c' :
  step c e = Some c' → e ≠ ClickClear →
  (editionMode (props c) = true → pieces (state c') = pieces (state c)) ∧
  (editionMode (props c) = false →
     walls (state c') = walls (state c) ∧
     markedCells (state c') = markedCells (state c) ∧
     cellMinis (state c') = cellMinis (state c)) ∧
  ((∀ wallId, e ≠ ClickEdge wallId) → walls (state c') = walls (state c)).
Proof.
  intros Hstep Hclear.
  destruct e as [|rect item clientOffset fresh|pid|pid|wallId|cellId|];
    simpl in Hstep; [| | | | | |done].
  - by injection Hstep as <-.
  - injection Hstep as <-. simpl.
    destruct (handleDrop_shape (props c) rect (dropPieces c) fresh item
                clientOffset (state c))
      as [->|[(Hmode & r & tc & mini & _ & ->)|(Hmode & placed & ->)]];
      simpl; [done| |].
    + rewrite Hmode. done.
    + rewrite Hmode. done.
  - destruct (editionMode _); [done|]. by injection Hstep as <-.
  - destruct (editionMode _); [done|].
    destruct (rotatePiece pid (state c)) as [next|] eqn:Hrot; [|done].
    injection Hstep as <-. simpl.
    destruct (rotatePiece_other_collections _ _ _ Hrot) as (-> & -> & ->). done.
  - destruct (editionMode _); [|done]. injection Hstep as <-. simpl.
    split; [done|]. split; [done|]. intros H. by destruct (H wallId).
  - destruct (editionMode _); [|done]. injection Hstep as <-. simpl.
    unfold toggleMarkedCell. by destruct (decide _).
Qed.

Lemma mode_separation_example :
  (editionMode (props afterRotate) = true →
     pieces (state afterMove) = pieces (state afterRotate)) ∧
  (editionMode (props afterRotate) = false →
     walls (state afterMove) = walls (state afterRotate) ∧
     markedCells (state afterMove) = markedCells (state afterRotate) ∧
     cellMinis (state afterMove) = cellMinis (state afterRotate)) ∧
  ((∀ wallId, moveL ≠ ClickEdge wallId) →
     walls (state afterMove) = walls (state afterRotate)).
Proof.
  apply (mode_separation afterRotate moveL afterMove);
    [vm_compute; reflexivity|discriminate].
Defined.

Lemma reachable_grid_size p c :
  reachable p c → rows (props c) = rows p ∧ cols (props c) = cols p.
Proof.
  induction 1 as [|c e c' _ IH _ Hstep]; [done|].
  destruct e; simpl in Hstep.
  - by injection Hstep as <-.
  - by injection Hstep as <-.
  - destruct (editionMode _); [done|]. by injection Hstep as <-.
  - destruct (editionMode _); [done|].
    destruct (rotatePiece _ _); [|done]. by injection Hstep as <-.
  - destruct (editionMode _); [|done]. by injection Hstep as <-.
  - destruct (editionMode _); [|done]. by injection Hstep as <-.
  - by injection Hstep as <-.
Qed.

(** X10.  In every state the component reaches, every mini sits on a cell
    of the grid: the keys of [cellMinis] are identifiers of cells inside
    the grid. *)
Theorem reachable_minis_inside p c key :
  reachable p c → is_Some (cellMinis (state c) !! key) →
  ∃ r tc, inside p r tc ∧ key = cellId r tc.
Proof.
  intros Hreach. revert key.
  induction Hreach as [|c e c' Hc IH _ Hstep]; intros key.
  { simpl. rewrite lookup_empty. by intros [? ?]. }
  pose proof (reachable_grid_size _ _ Hc) as [Hrows Hcols].
  destruct e as [|rect item clientOffset fresh|pid|pid|wallId|target|];
    simpl in Hstep.
  - injection Hstep as <-. apply IH.
  - injection Hstep as <-. simpl.
    destruct (handleDrop_shape (props c) rect (dropPieces c) fresh item
                clientOffset (state c))
      as [->|[(Hmode & r & tc & mini & Hin & ->)|(Hmode & placed & ->)]];
      simpl; [apply IH| |apply IH].
    destruct (decide (key = cellId r tc)) as [->|Hne].
    + intros _. exists r, tc. split; [|done]. unfold inside in *.
      by rewrite <- Hrows, <- Hcols.
    + rewrite lookup_insert_ne by done. apply IH.
  - destruct (editionMode _); [done|]. injection Hstep as <-. apply IH.
  - destruct (editionMode _); [done|].
    destruct (rotatePiece pid (state c)) as [next|] eqn:Hrot; [|done].
    injection Hstep as <-. simpl.
    destruct (rotatePiece_other_collections _ _ _ Hrot) as (_ & _ & ->).
    apply IH.
  - destruct (editionMode _); [|done]. injection Hstep as <-. apply IH.
  - destruct (editionMode _); [|done]. injection Hstep as <-. simpl.
    unfold toggleMarkedCell. destruct (decide _); simpl; [|apply IH].
    destruct (decide (key = target)) as [->|Hne].
    + rewrite lookup_delete_eq. by intros [? ?].
    + rewrite lookup_delete_ne by done. apply IH.
  - injection Hstep as <-. simpl. rewrite lookup_empty. by intros [? ?].
Qed.


Lemma reachable_minis_inside_example :
  reachable props55 afterMini ∧
  ∃ r tc, inside props55 r tc ∧ "1-2" = cellId r tc.
Proof.
  assert (reachable props55 afterMini) as Hreach.
  { apply (reachable_run props55 (mount props55) [ToggleEditionMode; dropMini]).
    - apply reach_mount, pitch_ok_props55.
    - cbv [freshRun]. split; [exact I|]. eval_step.
      split; [|exact I]. simpl. intros _. apply not_elem_of_nil.
    - reflexivity. }
  split; [exact Hreach|].
  apply (reachable_minis_inside props55 afterMini "1-2" Hreach).
  simpl. rewrite lookup_insert_eq. by eexists.
Defined.

(** X11.  A click on a cell, as [toggleMarkedCell] handles it: when the
    handler sees a mini on the cell it removes the mini and leaves the
    markers alone; when it sees none it toggles the marker of that cell
    only, so that a second click undoes the first, and leaves the minis
    alone.  Pieces and walls are never touched. *)
Theorem toggleMarkedCell_spec (seenMinis : gmap string Mini) cell st :
  pieces (toggleMarkedCell seenMinis cell st) = pieces st ∧
  walls (toggleMarkedCell seenMinis cell st) = walls st ∧
  (is_Some (seenMinis !! cell) →
     cellMinis (toggleMarkedCell seenMinis cell st) = delete cell (cellMinis st) ∧
     markedCells (toggleMarkedCell seenMinis cell st) = markedCells st) ∧
  (seenMinis !! cell = None →
     cellMinis (toggleMarkedCell seenMinis cell st) = cellMinis st ∧
     (cell ∈ markedCells (toggleMarkedCell seenMinis cell st)
      ↔ cell ∉ markedCells st) ∧
     (∀ other, other ≠ cell →
        (other ∈ markedCells (toggleMarkedCell seenMinis cell st)
         ↔ other ∈ markedCells st)) ∧
     toggleMarkedCell seenMinis cell (toggleMarkedCell seenMinis cell st) = st).
Proof.
  unfold toggleMarkedCell.
  destruct (decide (is_Some (seenMinis !! cell))) as [Hmini|Hnone].
  - split; [done|]. split; [done|]. split; [done|]. intros Hn.
    rewrite Hn in Hmini. by destruct Hmini.
  - split; [done|]. split; [done|]. split; [done|]. intros _. simpl.
    split; [done|].
    assert (∀ w, w ∈ (if decide (cell ∈ markedCells st)
                      then markedCells st ∖ {[cell]}
                      else markedCells st ∪ {[cell]})
              ↔ (w ∈ markedCells st ∧ w ≠ cell)
                ∨ (w = cell ∧ cell ∉ markedCells st)) as Hmem.
    { intros w. destruct (decide (cell ∈ markedCells st)) as [Hin|Hout].
      - rewrite elem_of_difference, elem_of_singleton. split; [by left|].
        intros [?|[_ ?]]; done.
      - rewrite elem_of_union, elem_of_singleton. split.
        + intros [Hx| ->]; [left|by right]. split; [done|]. by intros ->.
        + intros [[? _]|[-> _]]; [by left|by right]. }
    split; [|split].
    + rewrite Hmem. split; [by intros [[_ ?]|[_ ?]]|]. intros ?. by right.
    + intros other Hne. rewrite Hmem. split; [by intros [[? _]|[? _]]|].
      intros ?. by left.
    + destruct st as [ps ws ms cm]. simpl in *. f_equal.
      apply set_eq. intros w.
      destruct (decide (cell ∈ ms)) as [Hin|Hout].
      * rewrite decide_False
          by (rewrite elem_of_difference, elem_of_singleton; tauto).
        rewrite elem_of_union, elem_of_difference, elem_of_singleton.
        destruct (decide (w = cell)) as [->|Hne]; tauto.
      * rewrite decide_True
          by (rewrite elem_of_union, elem_of_singleton; tauto).
        rewrite elem_of_difference, elem_of_union, elem_of_singleton.
        destruct (decide (w = cell)) as [->|Hne]; tauto.
Qed.

End modes.

(** ** Colours after a removal *)

Section removal.
Local Open Scope Z_scope.

Lemma find_filter_misses {A : Type} (f : A → bool) (P : A → Prop)
    `{∀ a, Decision (P a)} (l : list A) :
  (∀ a, a ∈ l → ¬ P a → f a = false) →
  List.find f (filter P l) = List.find f l.
Proof.
  induction l as [|a l IH]; intros Hmiss; [done|].
  rewrite filter_cons. simpl.
  assert (List.find f (filter P l) = List.find f l) as IH'.
  { apply IH. intros b Hb. apply Hmiss. by right. }
  destruct (decide (P a)) as [Hp|Hn]; simpl.
  - by rewrite IH'.
  - rewrite (Hmiss a) by (done || left). done.
Qed.

(** X12.  Removing a piece changes the colour of the cells it covered
    only: a cell that no piece with the removed identity covers is drawn
    as before, and a cell that the removed pieces alone covered goes back
    to the background. *)
Theorem getCellColor_removePiece pid st r c :
  (∀ p, p ∈ pieces st → id p = pid → ¬ footprint p r c) →
  getCellColor (pieces (removePiece pid st)) r c = getCellColor (pieces st) r c.
Proof.
  intros Hmiss. unfold getCellColor, removePiece. cbn [pieces].
  rewrite <- filter_reverse. rewrite find_filter_misses; [done|].
  intros p Hp Hid. rewrite elem_of_reverse in Hp.
  apply covers_not_footprint, Hmiss; [done|].
  by destruct (decide (id p = pid)).
Qed.

Lemma getCellColor_removePiece_example :
  let st := withPieces [squareAt "a" "red" 0 0; squareAt "b" "blue" 1 1] in
  getCellColor (pieces (removePiece "b" st)) 0 0 = getCellColor (pieces st) 0 0.
Proof.
  intros st. apply (getCellColor_removePiece "b" st 0 0).
  intros p Hp Hid. apply covers_not_footprint.
  apply elem_of_cons in Hp as [->|Hp]; [discriminate Hid|].
  apply list_elem_of_singleton in Hp as ->. reflexivity.
Defined.

End removal.

(** ** Accepted drops *)

Section accepted.
Local Open Scope Z_scope.

Lemma getCellColor_snoc_miss l p r c :
  ¬ footprint p r c → getCellColor (l ++ [p]) r c = getCellColor l r c.
Proof.
  intros Hmiss. unfold getCellColor. rewrite reverse_app. simpl.
  apply covers_not_footprint in Hmiss. by rewrite Hmiss.
Qed.

(** X13.  What an accepted drop leaves behind: the piece is appended last, it
    lies inside the grid with every set cell, its cells are drawn in the
    colour of the dragged item whatever lay there before, the other cells
    are drawn as the remaining pieces have them, and the cells that the
    preview showed for the same pointer position are exactly the cells of
    the piece. *)
Theorem handleDrop_accepted props rect seenPieces fresh item pt prev next :
  editionMode props = false →
  handleDrop props (Some rect) seenPieces fresh item (Some pt) prev
    = PiecePlaced next →
  ∃ placed,
    pieces next =
      filter (λ p, truthyId (item_pieceId item) ≠ Some (id p)) (pieces prev)
      ++ [placed] ∧
    item_pattern item = Some (pattern placed) ∧
    (∀ r c, footprint placed r c → inside props r c) ∧
    (∀ r c, footprint placed r c →
       getCellColor (pieces next) r c = Some (item_color item)) ∧
    (∀ r c, ¬ footprint placed r c →
       getCellColor (pieces next) r c =
       getCellColor
         (filter (λ p, truthyId (item_pieceId item) ≠ Some (id p)) (pieces prev))
         r c) ∧
    (∀ s, s ∈ getHoverCells props (Some rect) true (Some item) (Some pt)
          ↔ ∃ r c, footprint placed r c ∧ s = cellId r c).
Proof.
  intros Hmode Hdrop.
  destruct (item_pattern item) as [[|row0 rest]|] eqn:Hpat;
    [by unfold handleDrop in Hdrop; rewrite Hpat in Hdrop| |
     by unfold handleDrop in Hdrop; rewrite Hpat in Hdrop].
  rewrite (handleDrop_placement _ _ _ _ _ _ _ _ _ Hmode Hpat) in Hdrop.
  rewrite (getHoverCells_placement _ _ _ _ _ _ Hmode Hpat).
  cbv zeta in Hdrop |- *.
  destruct (dropOrigin _ _ _ _ _ _) as [row col]. cbn [fst snd] in Hdrop |- *.
  destruct (fits _ _ _ _) eqn:Hfits; [|done]. injection Hdrop as <-.
  pose proof (proj1 (fits_true _ _ _ _) Hfits) as Hin.
  eexists. split; [reflexivity|]. split; [reflexivity|].
  split; [|split; [|split]].
  - intros r c (i & j & Hs & -> & ->). by apply Hin.
  - intros r c Hfoot. cbn [pieces].
    by rewrite (getCellColor_last _ _ [] r c Hfoot)
      by (intros q Hq; by apply elem_of_nil in Hq).
  - intros r c Hmiss. cbn [pieces]. by apply getCellColor_snoc_miss.
  - intros s. rewrite elem_of_hover_fold. split.
    + intros [Hs|(i & j & v & He & Hv & _ & ->)];
        [by apply not_elem_of_empty in Hs|].
      apply elem_of_entries in He. eexists _, _. split; [|done].
      exists i, j. split; [by exists v|done].
    + intros (r & c & (i & j & Hs & -> & ->) & ->). right.
      destruct Hs as (v & Hv & Hs). exists i, j, v.
      split; [by apply elem_of_entries|]. split; [done|]. split; [|done].
      apply Hin. by exists v.
Qed.

Lemma handleDrop_accepted_example :
  ∃ next,
    handleDrop props55 (Some rect0) [] "piece-1"
      (paletteItem "L" "#ff8800" shapeL None) (Some (overCell 0 0)) initialState
    = PiecePlaced next ∧
  ∃ placed,
    pieces next = [] ++ [placed] ∧
    Some shapeL = Some (pattern placed) ∧
    (∀ r c, footprint placed r c → inside props55 r c) ∧
    (∀ r c, footprint placed r c →
       getCellColor (pieces next) r c = Some "#ff8800") ∧
    (∀ r c, ¬ footprint placed r c →
       getCellColor (pieces next) r c = getCellColor [] r c) ∧
    (∀ s, s ∈ getHoverCells props55 (Some rect0) true
                (Some (paletteItem "L" "#ff8800" shapeL None))
                (Some (overCell 0 0))
          ↔ ∃ r c, footprint placed r c ∧ s = cellId r c).
Proof.
  eexists. split; [vm_compute; reflexivity|].
  apply (handleDrop_accepted props55 rect0 [] "piece-1"
           (paletteItem "L" "#ff8800" shapeL None) (overCell 0 0) initialState);
    reflexivity.
Defined.

(** X14.  The bounds check looks at set cells only: a pattern with a first
    row and no set cell is accepted wherever the pointer is, on or off the
    grid.  The piece it adds covers no cell, so no cell changes colour and
    the preview is empty. *)
Theorem handleDrop_blank_pattern props rect seenPieces fresh item pt prev row0 rest :
  editionMode props = false →
  item_pattern item = Some (row0 :: rest) →
  (∀ i j, ¬ is_set (row0 :: rest) i j) →
  ∃ placed,
    handleDrop props (Some rect) seenPieces fresh item (Some pt) prev
    = PiecePlaced
        {| pieces :=
             filter (λ p, truthyId (item_pieceId item) ≠ Some (id p)) (pieces prev)
             ++ [placed];
           walls := walls prev;
           markedCells := markedCells prev;
           cellMinis := cellMinis prev |} ∧
    (∀ r c, ¬ footprint placed r c) ∧
    getHoverCells props (Some rect) true (Some item) (Some pt) = ∅.
Proof.
  intros Hmode Hpat Hblank.
  rewrite (handleDrop_placement _ _ _ _ _ _ _ _ _ Hmode Hpat).
  rewrite (getHoverCells_placement _ _ _ _ _ _ Hmode Hpat).
  cbv zeta. destruct (dropOrigin _ _ _ _ _ _) as [row col]. cbn [fst snd].
  rewrite (proj2 (fits_true _ _ _ _)) by (intros i j Hs; by destruct (Hblank i j)).
  eexists. split; [reflexivity|]. split.
  - intros r c (i & j & Hs & _). by apply (Hblank i j).
  - apply set_eq. intros s. rewrite elem_of_hover_fold. split.
    + intros [Hs|(i & j & v & He & Hv & _)]; [done|].
      apply elem_of_entries in He. destruct (Hblank i j). by exists v.
    + intros Hs. by apply not_elem_of_empty in Hs.
Qed.

Lemma handleDrop_blank_pattern_example :
  ∃ placed,
    handleDrop props55 (Some rect0) [] "piece-1"
      (paletteItem "blank" "#ff8800" [[0]] None) (Some (overCell 40 (-7)))
      initialState
    = PiecePlaced
        {| pieces := [] ++ [placed]; walls := ∅; markedCells := ∅;
           cellMinis := ∅ |} ∧
    (∀ r c, ¬ footprint placed r c) ∧
    getHoverCells props55 (Some rect0) true
      (Some (paletteItem "blank" "#ff8800" [[0]] None))
      (Some (overCell 40 (-7))) = ∅.
Proof.
  apply (handleDrop_blank_pattern props55 rect0 [] "piece-1"
           (paletteItem "blank" "#ff8800" [[0]] None) (overCell 40 (-7))
           initialState [0] []); [reflexivity..|].
  intros [|[|i]] [|[|j]] (v & Hv & Hs); simpl in Hv; try discriminate Hv.
  injection Hv as <-. discriminate Hs.
Defined.

End accepted.

(** ** The highlighted cell of edition mode *)

Section edition_hover.
Local Open Scope Z_scope.

Lemma outside_check props r c :
  (c <? 0) || (c >=? cols props) || (r <? 0) || (r >=? rows props) = false
  ↔ inside props r c.
Proof.
  unfold inside.
  destruct (Z.ltb_spec c 0); destruct (Z.geb_spec c (cols props));
    destruct (Z.ltb_spec r 0); destruct (Z.geb_spec r (rows props));
    simpl; split; try done; lia.
Qed.

(** X15.  In edition mode, while a pattern with a first row is dragged, the
    cell that [getEditionHoverCellId] highlights is the cell that a drop at
    the same pointer position uses: when a cell is highlighted it is a
    cell of the grid, and the drop puts the mini on that very cell, takes
    the marker off it, and leaves pieces and walls alone; when none is
    highlighted the drop is ignored.  The mouse-hover state plays no role
    during a drag. *)
Theorem edition_hover_is_drop_target props rect seenPieces fresh item pt prev
    hovered row0 rest :
  editionMode props = true →
  item_pattern item = Some (row0 :: rest) →
  getEditionHoverCellId props (Some rect) true (Some pt) hovered
    = getEditionHoverCellId props (Some rect) true (Some pt) None ∧
  match getEditionHoverCellId props (Some rect) true (Some pt) hovered with
  | Some cell =>
    (∃ r c, inside props r c ∧ cell = cellId r c) ∧
    ∃ next,
      handleDrop props (Some rect) seenPieces fresh item (Some pt) prev
        = MiniDropped next ∧
      cellMinis next =
        <[cell := {| mini_pattern := row0 :: rest;
                     mini_color := item_color item |}]> (cellMinis prev) ∧
      (cell ∉ markedCells next) ∧
      (∀ other, other ≠ cell →
         (other ∈ markedCells next ↔ other ∈ markedCells prev)) ∧
      pieces next = pieces prev ∧ walls next = walls prev
  | None =>
    handleDrop props (Some rect) seenPieces fresh item (Some pt) prev = Ignored
  end.
Proof.
  intros Hmode Hpat. split.
  { unfold getEditionHoverCellId. by rewrite Hmode. }
  unfold getEditionHoverCellId, handleDrop. rewrite Hmode, Hpat. simpl negb.
  cbv iota zeta.
  destruct (_ || _) eqn:Hout; [done|]. apply outside_check in Hout.
  split; [by eexists _, _|]. eexists. split; [reflexivity|]. simpl.
  split; [done|]. split; [|split; [|done]].
  - rewrite markers_after_mini. by intros [_ ?].
  - intros other Hne. rewrite markers_after_mini. split; [by intros [? _]|done].
Qed.

Lemma edition_hover_is_drop_target_example :
  getEditionHoverCellId editing55 (Some rect0) true (Some (overCell 1 2)) (Some "0-0")
    = Some "1-2" ∧
  getEditionHoverCellId editing55 (Some rect0) true (Some (overCell 1 2)) (Some "0-0")
    = getEditionHoverCellId editing55 (Some rect0) true (Some (overCell 1 2)) None ∧
  match getEditionHoverCellId editing55 (Some rect0) true (Some (overCell 1 2))
          (Some "0-0") with
  | Some cell =>
    (∃ r c, inside editing55 r c ∧ cell = cellId r c) ∧
    ∃ next,
      handleDrop editing55 (Some rect0) [] "piece-0"
        (paletteItem "L" "#ff8800" shapeL None) (Some (overCell 1 2)) initialState
        = MiniDropped next ∧
      cellMinis next =
        <[cell := {| mini_pattern := shapeL; mini_color := "#ff8800" |}]>
          (cellMinis initialState) ∧
      (cell ∉ markedCells next) ∧
      (∀ other, other ≠ cell →
         (other ∈ markedCells next ↔ other ∈ markedCells initialState)) ∧
      pieces next = pieces initialState ∧ walls next = walls initialState
  | None =>
    handleDrop editing55 (Some rect0) [] "piece-0"
      (paletteItem "L" "#ff8800" shapeL None) (Some (overCell 1 2)) initialState
    = Ignored
  end.
Proof.
  split; [reflexivity|].
  apply (edition_hover_is_drop_target editing55 rect0 [] "piece-0"
           (paletteItem "L" "#ff8800" shapeL None) (overCell 1 2) initialState
           (Some "0-0") [1; 0] [[1; 0]; [1; 1]]); reflexivity.
Defined.

End edition_hover.

(** ** A rotation off the grid *)

Section rounding.
Local Open Scope Q_scope.

Lemma Qfloor_iff q z : Qfloor q = z ↔ inject_Z z <= q ∧ q < inject_Z (z + 1).
Proof.
  split.
  - intros <-. split; [apply Qfloor_le|apply Qlt_floor].
  - intros [Hlo Hhi]. apply Z.le_antisymm.
    + apply Z.lt_succ_r. rewrite Zlt_Qlt. eapply Qle_lt_trans; [apply Qfloor_le|].
      exact Hhi.
    + rewrite <- (Qfloor_Z z). by apply Qfloor_resp_le.
Qed.

Lemma Math_round_comp q q' : q == q' → Math_round q = Math_round q'.
Proof. intros H. unfold Math_round. apply Qfloor_comp. by rewrite H. Qed.

Lemma Math_floor_comp q q' : q == q' → Math_floor q = Math_floor q'.
Proof. apply Qfloor_comp. Qed.

Lemma pitch_pos_ok props : 0 < pitch props → pitch_ok props.
Proof.
  unfold pitch_ok, pitch. intros Hp H0. rewrite H0 in Hp.
  by apply Qlt_irrefl in Hp.
Qed.

End rounding.

Section unchecked_rotation.
Local Open Scope Z_scope.

(** X19.  A rotation is not checked against the grid.  On every grid with at
    least one row and two columns the component reaches a state in which a
    piece has a set cell outside the grid: a horizontal domino dropped on
    the last row, then clicked once, stands on the last row and on the row
    below it. *)
Theorem rotatePiece_unchecked props :
  editionMode props = false → (0 < pitch props)%Q →
  1 ≤ rows props → 2 ≤ cols props →
  ∃ c p,
    run (mount props)
      [Drop (Some {| rect_left := 0; rect_top := 0 |}) domino
            (Some (lastRowCorner props)) "piece-1";
       ClickPiece "piece-1"] = Some c ∧
    reachable props c ∧
    pieces (state c) = [p] ∧
    footprint p (rows props) 0 ∧ ¬ inside props (rows props) 0.
Proof.
  intros Hmode Hp Hrows Hcols.
  assert (¬ (pitch props == 0)%Q) as Hne by exact (pitch_pos_ok _ Hp).
  set (rect := {| rect_left := 0%Q; rect_top := 0%Q |}).
  assert (dropOrigin props rect [[1; 1]] [1; 1] None (lastRowCorner props)
          = (rows props - 1, 0)) as Horigin.
  { unfold dropOrigin, lastRowCorner, rect.
    cbv beta iota zeta delta [from_option Datatypes.id].
    cbn [x y rect_left rect_top length]. fold (pitch props).
    assert (Math_floor (0 / pitch props) = 0) as ->.
    { rewrite (Math_floor_comp _ 0); [done|]. by field. }
    change (0 <? 0) with false. cbv iota.
    change (0 >=? Z.of_nat 1) with false. change (0 >=? Z.of_nat 2) with false.
    cbv iota.
    f_equal.
    - rewrite (Math_round_comp _ (inject_Z (rows props - 1))).
      + unfold Math_round.
        rewrite (proj2 (Qfloor_iff _ (rows props - 1))); [lia|].
        rewrite inject_Z_plus. split; atoms_lra.
      + by field.
    - rewrite (Math_round_comp _ 0); [done|]. by field. }
  assert (fits props [[1; 1]] (rows props - 1) 0 = true) as Hfits.
  { apply fits_true. intros i j (v & Hv & _).
    destruct i as [|i]; [|by destruct i]. unfold inside.
    destruct j as [|[|j]]; [| |by destruct j]; simpl; lia. }
  set (placed := {| id := "piece-1"; type := "I2"; pattern := [[1; 1]];
                    originalPattern := [[1; 1]]; color := "#F5BE02";
                    row := rows props - 1; col := 0; rotation := 0 |}).
  set (turned := {| id := "piece-1"; type := "I2"; pattern := [[1]; [1]];
                    originalPattern := [[1; 1]]; color := "#F5BE02";
                    row := rows props - 1; col := 0; rotation := 90 |}).
  assert (step (mount props)
            (Drop (Some rect) domino (Some (lastRowCorner props)) "piece-1")
          = Some (withState (mount props) (withPieces [placed]))) as Hdrop.
  { cbn [step mount Grid.props state dropPieces]. f_equal. f_equal.
    rewrite (handleDrop_placement props rect [] "piece-1" domino
               (lastRowCorner props) initialState [1; 1] [] Hmode eq_refl).
    cbv zeta. change (item_pointerOffset domino) with (@None Point).
    rewrite Horigin. cbn [fst snd]. rewrite Hfits. reflexivity. }
  assert (step (withState (mount props) (withPieces [placed]))
            (ClickPiece "piece-1")
          = Some (withState (mount props) (withPieces [turned]))) as Hclick.
  { cbn [step withState mount Grid.props state dropPieces]. rewrite Hmode.
    reflexivity. }
  exists (withState (mount props) (withPieces [turned])), turned.
  assert (run (mount props)
            [Drop (Some rect) domino (Some (lastRowCorner props)) "piece-1";
             ClickPiece "piece-1"]
          = Some (withState (mount props) (withPieces [turned]))) as Hrun.
  { cbn [run]. rewrite Hdrop. cbn [mbind option_bind]. rewrite Hclick. done. }
  split; [exact Hrun|]. split; [|split; [done|split]].
  - eapply (reachable_run props (mount props));
      [apply reach_mount, pitch_pos_ok, Hp| |exact Hrun].
    cbn [freshRun]. rewrite Hdrop, Hclick.
    split; [|done]. simpl. intros _. apply not_elem_of_nil.
  - exists 1%nat, 0%nat. split; [by exists 1|]. simpl. lia.
  - unfold inside. lia.
Qed.

Lemma rotatePiece_unchecked_example :
  ∃ c p,
    run (mount props55)
      [Drop (Some {| rect_left := 0; rect_top := 0 |}) domino
            (Some (lastRowCorner props55)) "piece-1";
       ClickPiece "piece-1"] = Some c ∧
    reachable props55 c ∧
    pieces (state c) = [p] ∧
    footprint p (rows props55) 0 ∧ ¬ inside props55 (rows props55) 0.
Proof.
  apply (rotatePiece_unchecked props55); [reflexivity|reflexivity|simpl; lia|simpl; lia].
Defined.

End unchecked_rotation.

(** ** The catalogue of custom shapes *)

Section catalogue.
Import ShapeCreator.
Implicit Types (shape s : CustomPiece) (prev next : list CustomPiece).

Lemma filter_insert_dropped {A : Type} (P : A → Prop) `{∀ a, Decision (P a)}
    (l : list A) k a b :
  l !! k = Some a → ¬ P a → ¬ P b → filter P (<[k := b]> l) = filter P l.
Proof.
  revert k. induction l as [|c l IH]; intros [|k] Hk Ha Hb; try done.
  - injection Hk as ->. simpl. by rewrite !filter_cons_False.
  - simpl in Hk |- *. rewrite !filter_cons. by rewrite (IH k).
Qed.

Lemma filter_all {A : Type} (P : A → Prop) `{∀ a, Decision (P a)} (l : list A) :
  Forall P l → filter P l = l.
Proof.
  induction 1 as [|a l Ha _ IH]; [done|]. by rewrite filter_cons_True, IH.
Qed.

(** X20.  [handleSaveShape] of the application is an upsert by identity: a
    lookup by the identity then finds the saved shape, the identities of
    the catalogue keep their order (the shape is appended only when its
    identity is new), every shape with another identity stays where it
    was, identities that were distinct stay distinct, and saving the same
    shape again changes nothing. *)
Theorem handleSaveShape_upsert shape prev :
  (∃ k, list_find (λ s, id s = id shape) (App.handleSaveShape shape prev)
        = Some (k, shape)) ∧
  id <$> App.handleSaveShape shape prev
    = (if decide (id shape ∈ id <$> prev) then id <$> prev
       else (id <$> prev) ++ [id shape]) ∧
  (∀ k s, prev !! k = Some s → id s ≠ id shape →
          App.handleSaveShape shape prev !! k = Some s) ∧
  (NoDup (id <$> prev) → NoDup (id <$> App.handleSaveShape shape prev)) ∧
  App.handleSaveShape shape (App.handleSaveShape shape prev)
    = App.handleSaveShape shape prev.
Proof.
  assert (∀ l k, list_find (λ s, id s = id shape) l = Some (k, shape) →
            App.handleSaveShape shape l = l) as Hagain.
  { intros l k Hfind. unfold App.handleSaveShape. rewrite Hfind.
    apply list_find_Some in Hfind as (Hk & _). by apply list_insert_id. }
  remember (App.handleSaveShape shape prev) as next eqn:Hnext.
  unfold App.handleSaveShape in Hnext.
  destruct (list_find _ prev) as [[k s]|] eqn:Hfind; subst next.
  - apply list_find_Some in Hfind as (Hk & Hid & Hfirst).
    assert (list_find (λ s, id s = id shape) (<[k := shape]> prev)
            = Some (k, shape)) as Hnew.
    { apply list_find_Some. split; [|split; [done|]].
      - apply list_lookup_insert_eq. by eapply lookup_lt_Some.
      - intros j y Hj Hlt. rewrite list_lookup_insert_ne in Hj by lia.
        by apply (Hfirst j). }
    assert (id <$> <[k := shape]> prev = id <$> prev) as Hids.
    { rewrite list_fmap_insert. apply list_insert_id.
      by rewrite list_lookup_fmap, Hk, <- Hid. }
    split; [by exists k|]. split; [|split; [|split]].
    + rewrite decide_True; [done|]. rewrite <- Hid.
      apply list_elem_of_fmap_2. by eapply list_elem_of_lookup_2.
    + intros j y Hj Hne. rewrite list_lookup_insert_ne; [done|].
      intros ->. rewrite Hk in Hj. injection Hj as ->. done.
    + by rewrite Hids.
    + by apply (Hagain _ k).
  - apply list_find_None in Hfind.
    assert (id shape ∉ id <$> prev) as Hnew.
    { intros Hin. apply list_elem_of_fmap in Hin as (s & Hs & Hin).
      by apply (proj1 (Forall_forall _ _) Hfind s). }
    assert (list_find (λ s, id s = id shape) (prev ++ [shape])
            = Some (length prev, shape)) as Hfound.
    { apply list_find_Some. split; [|split; [done|]].
      - by rewrite lookup_app_r, Nat.sub_diag.
      - intros j y Hj Hlt. rewrite lookup_app_l in Hj by done.
        apply (proj1 (Forall_forall _ _) Hfind y).
        by eapply list_elem_of_lookup_2. }
    split; [by eexists|]. split; [|split; [|split]].
    + rewrite decide_False by done. by rewrite fmap_app.
    + intros j y Hj _. apply lookup_app_l_Some, Hj.
    + intros Hnd. rewrite fmap_app. apply NoDup_app. split; [done|].
      split; [|apply NoDup_singleton].
      intros x Hx Hx'. apply list_elem_of_singleton in Hx' as ->. done.
    + by apply (Hagain _ (length prev)).
Qed.

(** X21.  [handleDeleteShape] removes every shape with the identity and
    keeps the others in their order.  Deleting after a save of the same
    identity is the same as deleting at once; when the identity was new,
    that is the catalogue as it was before the save. *)
Theorem handleDeleteShape_spec sid shape prev :
  (sid ∉ id <$> App.handleDeleteShape sid prev) ∧
  (∀ s, s ∈ prev → id s ≠ sid → s ∈ App.handleDeleteShape sid prev) ∧
  App.handleDeleteShape sid prev `sublist_of` prev ∧
  App.handleDeleteShape (id shape) (App.handleSaveShape shape prev)
    = App.handleDeleteShape (id shape) prev ∧
  (id shape ∉ id <$> prev →
   App.handleDeleteShape (id shape) (App.handleSaveShape shape prev) = prev).
Proof.
  assert (App.handleDeleteShape (id shape) (App.handleSaveShape shape prev)
          = App.handleDeleteShape (id shape) prev) as Hcomp.
  { unfold App.handleDeleteShape, App.handleSaveShape.
    destruct (list_find _ prev) as [[k s]|] eqn:Hfind.
    - apply list_find_Some in Hfind as (Hk & Hid & _).
      apply (filter_insert_dropped _ _ _ s); [done|by intros H|by intros H].
    - rewrite filter_app, filter_cons_False by (by intros H).
      by rewrite filter_nil, app_nil_r. }
  unfold App.handleDeleteShape in *.
  split; [|split; [|split; [apply sublist_filter|split; [done|]]]].
  - intros Hin. apply list_elem_of_fmap in Hin as (s & Hs & Hin).
    apply list_elem_of_filter in Hin as [Hne _]. by apply Hne.
  - intros s Hin Hne. by apply list_elem_of_filter.
  - intros Hnew. rewrite Hcomp. apply filter_all, Forall_forall.
    intros s Hs Heq. apply Hnew. rewrite <- Heq. by apply list_elem_of_fmap_2.
Qed.

End catalogue.

(** ** The shape editor *)

Section editor.
Import ShapeCreator.
Implicit Types (P Q T : Pattern) (e : Editor) (shape : CustomPiece).

Lemma toggleCell_store P i j v :
  cellAt P i j = Some v →
  toggleCell P i j = store P i j (if truthy v then 0%Z else 1%Z).
Proof.
  unfold cellAt, toggleCell, store. intros Hv.
  destruct (P !! i) as [cells|]; [|done]. simpl in Hv |- *. rewrite Hv.
  rewrite decide_True; [done|]. by eapply lookup_lt_Some.
Qed.

(** X22.  A click on a cell of the editor grid flips that cell between set
    and unset and changes no other cell or the size of the grid; a second
    click on the same cell restores which cells are set, and restores the
    pattern itself when the cell held 0 or 1. *)
Theorem toggleCell_flip R C P i j v :
  rect R C P → cellAt P i j = Some v →
  ∃ Q, toggleCell P i j = Some Q ∧ rect R C Q ∧
    cellAt Q i j = Some (if truthy v then 0%Z else 1%Z) ∧
    (is_set Q i j ↔ ¬ is_set P i j) ∧
    (∀ i' j', (i', j') ≠ (i, j) → cellAt Q i' j' = cellAt P i' j') ∧
    ∃ P', toggleCell Q i j = Some P' ∧ rect R C P' ∧
      (∀ i' j', is_set P' i' j' ↔ is_set P i' j') ∧
      (v = 0%Z ∨ v = 1%Z → P' = P).
Proof.
  intros HP Hv. destruct (cellAt_Some_lt _ _ _ _ _ _ HP Hv) as [Hi Hj].
  rewrite (toggleCell_store _ _ _ _ Hv).
  destruct (store_rect R C P i j (if truthy v then 0%Z else 1%Z) HP Hi Hj)
    as (Q & -> & HQ & Hcells).
  assert (cellAt Q i j = Some (if truthy v then 0%Z else 1%Z)) as Hnew.
  { rewrite Hcells. by rewrite decide_True. }
  exists Q. split; [done|]. split; [done|]. split; [done|]. split; [|split].
  - unfold is_set. rewrite Hnew, Hv. split.
    + intros (w & [= <-] & Hw) (w' & [= <-] & Hw').
      rewrite Hw' in Hw. done.
    + intros Hn. destruct (truthy v) eqn:Ht.
      * destruct Hn. by exists v.
      * by exists 1%Z.
  - intros i' j' Hne. rewrite Hcells. rewrite decide_False; [done|].
    intros [-> ->]. done.
  - rewrite (toggleCell_store _ _ _ _ Hnew).
    destruct (store_rect R C Q i j
                (if truthy (if truthy v then 0%Z else 1%Z) then 0%Z else 1%Z)
                HQ Hi Hj) as (P' & -> & HP' & Hcells').
    exists P'. split; [done|]. split; [done|]. split.
    + intros i' j'. unfold is_set. rewrite Hcells'.
      destruct (decide (i' = i ∧ j' = j)) as [[-> ->]|Hne].
      * rewrite Hv. destruct (truthy v) eqn:Ht; simpl.
        -- split; intros _; [by exists v|by exists 1%Z].
        -- split; intros (w & [= <-] & Hw); [done|]. by rewrite Hw in Ht.
      * rewrite Hcells. by rewrite decide_False.
    + intros Hbin. apply (rect_ext R C); [done..|]. intros i' j' Hi' Hj'.
      rewrite Hcells'. destruct (decide (i' = i ∧ j' = j)) as [[-> ->]|Hne].
      * rewrite Hv. by destruct Hbin as [-> | ->].
      * rewrite Hcells. by rewrite decide_False.
Qed.

Lemma toggleCell_flip_example :
  rect 3 2 shapeL ∧ cellAt shapeL 0 1 = Some 0%Z ∧
  ∃ Q, toggleCell shapeL 0 1 = Some Q ∧ rect 3 2 Q ∧
    cellAt Q 0 1 = Some (if truthy 0 then 0%Z else 1%Z) ∧
    (is_set Q 0 1 ↔ ¬ is_set shapeL 0 1) ∧
    (∀ i' j', (i', j') ≠ (0, 1) → cellAt Q i' j' = cellAt shapeL i' j') ∧
    ∃ P', toggleCell Q 0 1 = Some P' ∧ rect 3 2 P' ∧
      (∀ i' j', is_set P' i' j' ↔ is_set shapeL i' j') ∧
      (0%Z = 0%Z ∨ 0%Z = 1%Z → P' = shapeL).
Proof.
  assert (rect 3 2 shapeL) as Hrect.
  { split; [reflexivity|]. repeat constructor. }
  split; [exact Hrect|]. split; [reflexivity|].
  apply (toggleCell_flip 3 2 shapeL 0 1 0 Hrect). reflexivity.
Defined.

(** X23.  What the editor saves is a valid pattern, whatever rectangular
    grid it holds: the saved pattern is rectangular with at least one row
    and one column, no larger than the grid in rows, holds a set cell, and
    is its own trimming.  The identity and the creation time of the shape
    being edited are kept when they are truthy, else fresh ones are taken;
    the colour is the selected one, and the dialog is left closed with the
    blank 6-by-6 form. *)
Theorem handleSaveShape_valid now fresh e R C :
  rect R C (editorPattern e) → 0 < R →
  ∃ shape e',
    handleSaveShape now fresh e = Some (shape, e') ∧
    (∃ R' C', 0 < R' ≤ R ∧ 0 < C' ∧ rect R' C' (pattern shape)) ∧
    (∃ i j, is_set (pattern shape) i j) ∧
    trimPattern (pattern shape) = Some (pattern shape) ∧
    color shape = selectedColor e ∧
    (∀ s, editingShape e = Some s → id s ≠ "" → id shape = id s) ∧
    (∀ s, editingShape e = Some s → createdAt s ≠ 0%Z →
          createdAt shape = createdAt s) ∧
    (editingShape e = None → id shape = fresh ∧ createdAt shape = now) ∧
    e' = {| isOpen := false; selectedColor := "#F5BE02"; gridSize := 6;
            editorPattern := blankPattern; editingShape := None |}.
Proof.
  intros HP HR. unfold handleSaveShape.
  destruct (trimPattern_total R C _ HP HR) as [T HT]. rewrite HT. simpl.
  eexists _, _. split; [reflexivity|]. simpl.
  split; [|split; [|split; [by apply (trimPattern_idem R C (editorPattern e))|]]].
  - destruct (is_set_dec (editorPattern e)) as [Hsome|Hnone].
    + destruct (trimPattern_box R C _ HP HR Hsome)
        as (r0 & r1 & c0 & c1 & T0 & HT0 & Hr & Hc & HrT & _).
      rewrite HT in HT0. injection HT0 as <-.
      exists (r1 - r0 + 1), (c1 - c0 + 1). split; [lia|]. split; [lia|done].
    + rewrite (trimPattern_empty R C _ HP HR Hnone) in HT. injection HT as <-.
      exists 1, 1. split; [lia|]. split; [lia|]. split; [done|].
      repeat constructor.
  - destruct (is_set_dec (editorPattern e)) as [Hsome|Hnone].
    + destruct (trimPattern_box R C _ HP HR Hsome)
        as (r0 & r1 & c0 & c1 & T0 & HT0 & Hr & Hc & HrT & Hcells & Hbox
            & Sa & Sb & Sc & Sd).
      rewrite HT in HT0. injection HT0 as <-.
      destruct (trimPattern_borders (editorPattern e) T r0 r1 c0 c1)
        as ((ja & _ & Ta) & _);
        [lia|lia|done..|].
      by exists 0, ja.
    + rewrite (trimPattern_empty R C _ HP HR Hnone) in HT. injection HT as <-.
      exists 0, 0, 1%Z. done.
  - split; [done|]. split; [|split; [|split; [|done]]].
    + intros s -> Hne. by rewrite decide_False.
    + intros s -> Hne. by rewrite decide_False.
    + by intros ->.
Qed.

Lemma handleSaveShape_valid_example :
  let e := {| isOpen := true; selectedColor := "#00ff00"; gridSize := 6;
              editorPattern := [[0; 0; 0]; [0; 1; 1]; [0; 0; 1]; [0; 0; 0]]%Z;
              editingShape := None |} in
  ∃ shape e',
    handleSaveShape 1700000000000 "shape-1" e = Some (shape, e') ∧
    (∃ R' C', 0 < R' ≤ 4 ∧ 0 < C' ∧ rect R' C' (pattern shape)) ∧
    (∃ i j, is_set (pattern shape) i j) ∧
    trimPattern (pattern shape) = Some (pattern shape) ∧
    color shape = "#00ff00" ∧
    (∀ s, editingShape e = Some s → id s ≠ "" → id shape = id s) ∧
    (∀ s, editingShape e = Some s → createdAt s ≠ 0%Z →
          createdAt shape = createdAt s) ∧
    (editingShape e = None →
       id shape = "shape-1" ∧ createdAt shape = 1700000000000%Z) ∧
    e' = {| isOpen := false; selectedColor := "#F5BE02"; gridSize := 6;
            editorPattern := blankPattern; editingShape := None |}.
Proof.
  intros e. apply (handleSaveShape_valid 1700000000000 "shape-1" e 4 3); [|lia].
  split; [reflexivity|]. repeat constructor.
Defined.

(** X24.  Opening a saved shape in the editor and saving it untouched gives
    the shape back, identity, creation time, colour and pattern, and the
    catalogue in which it stands is then left as it is.  This holds for
    every shape whose pattern is its own trimming, as the patterns that the
    editor saves are, and whose identity and creation time are truthy. *)
Theorem edit_then_save shape e now fresh prev :
  trimPattern (pattern shape) = Some (pattern shape) →
  id shape ≠ "" → createdAt shape ≠ 0%Z →
  ∃ e',
    handleSaveShape now fresh (handleEditShape shape e) = Some (shape, e') ∧
    isOpen (handleEditShape shape e) = true ∧ isOpen e' = false ∧
    (shape ∈ prev → NoDup (id <$> prev) →
     App.handleSaveShape shape prev = prev).
Proof.
  intros Htrim Hid Hat. unfold handleSaveShape, handleEditShape. simpl.
  rewrite Htrim. simpl. rewrite !decide_False by done.
  eexists. split; [by destruct shape|]. split; [done|]. split; [done|].
  intros Hin Hnd. unfold App.handleSaveShape.
  apply list_elem_of_lookup in Hin as [k Hk].
  destruct (list_find _ prev) as [[k' s]|] eqn:Hfind.
  - apply list_find_Some in Hfind as (Hk' & Heq & _).
    assert (k' = k) as ->.
    { apply (NoDup_lookup _ _ _ (id shape) Hnd).
      - by rewrite list_lookup_fmap, Hk', <- Heq.
      - by rewrite list_lookup_fmap, Hk. }
    by apply list_insert_id.
  - apply list_find_None in Hfind.
    destruct (proj1 (Forall_forall _ _) Hfind shape); [|done].
    by eapply list_elem_of_lookup_2.
Qed.

Lemma edit_then_save_example :
  let shape := {| id := "shape-1"; pattern := [[1; 1]; [0; 1]]%Z;
                  color := "#00ff00"; createdAt := 1700000000000 |} in
  let e := {| isOpen := false; selectedColor := "#F5BE02"; gridSize := 6;
              editorPattern := blankPattern; editingShape := None |} in
  ∃ e',
    handleSaveShape 1800000000000 "shape-2" (handleEditShape shape e)
      = Some (shape, e') ∧
    isOpen (handleEditShape shape e) = true ∧ isOpen e' = false ∧
    (shape ∈ [shape] → NoDup (id <$> [shape]) →
     App.handleSaveShape shape [shape] = [shape]).
Proof.
  intros shape e.
  apply (edit_then_save shape e 1800000000000 "shape-2" [shape]);
    [reflexivity|discriminate|discriminate].
Defined.

End editor.
